(** * Active Clinical Guardian: session protocol front end

  A shallow embedding of the client-side core of the repository
  (audio capture, transport channel with reconnection, playback
  accumulator, and the page-level session mirror), followed by the
  theorems that settle the properties stated for it.

  Conventions.
  - A React ref or state cell is a record field; a hook call is a
    function from state to state.
  - Objects with identity (WebSocket instances, pending timeouts) live in
    finite maps keyed by an allocation counter, so that a handle stored
    in a ref and the object it designates are distinct things.
  - A JavaScript number is modelled by [number]: NaN, the two
    infinities, or the rational value of a finite double.  The
    arithmetic of the resampler rounds every result to binary64, to
    nearest with ties to even, and a store into a [Float32Array] rounds
    to binary32.  The two zeros are identified: no result below depends
    on the sign of a zero.
  - An [async] function is split where it awaits: the call runs up to
    the [await], and the rest runs as a separate step when the promise
    settles, so that other calls of the hook can come in between. *)

From Stdlib Require Import ZArith QArith Qround Qabs Qpower Qreduction List String Bool Lia.
From Stdlib.Strings Require Import Byte.
From Stdlib Require Import DecimalString Lqa.
From stdpp Require Import gmap.
Import ListNotations.

Local Open Scope Z_scope.

(* ===================================================================== *)
(** * JavaScript numbers *)
(* ===================================================================== *)

Module Js.

(** An IEEE double: a finite one is given by its rational value. *)
Inductive number : Type :=
| NaN
| Inf (negative : bool)
| Fin (q : Q).

Definition Qsign (q : Q) : comparison := (q ?= 0)%Q.

(** [a + b] *)
Definition add (a b : number) : number :=
  match a, b with
  | NaN, _ | _, NaN => NaN
  | Inf s1, Inf s2 => if Bool.eqb s1 s2 then Inf s1 else NaN
  | Inf s, Fin _ | Fin _, Inf s => Inf s
  | Fin x, Fin y => Fin (x + y)
  end.

(** [a * b] *)
Definition mul (a b : number) : number :=
  match a, b with
  | NaN, _ | _, NaN => NaN
  | Inf s1, Inf s2 => Inf (xorb s1 s2)
  | Inf s, Fin q | Fin q, Inf s =>
      match Qsign q with
      | Eq => NaN
      | Lt => Inf (negb s)
      | Gt => Inf s
      end
  | Fin x, Fin y => Fin (x * y)
  end.

(** [a < b] *)
Definition lt (a b : number) : bool :=
  match a, b with
  | NaN, _ | _, NaN => false
  | Inf s1, Inf s2 => s1 && negb s2
  | Inf s, Fin _ => s
  | Fin _, Inf s => negb s
  | Fin x, Fin y => match (x ?= y)%Q with Lt => true | _ => false end
  end.

(** [Math.min(a, b)]: NaN if either argument is NaN. *)
Definition Math_min (a b : number) : number :=
  match a, b with
  | NaN, _ | _, NaN => NaN
  | _, _ => if lt b a then b else a
  end.

(** [Math.max(a, b)]: NaN if either argument is NaN. *)
Definition Math_max (a b : number) : number :=
  match a, b with
  | NaN, _ | _, NaN => NaN
  | _, _ => if lt a b then b else a
  end.

(** [Math.floor] and [Math.round]; both are exact.  [Math.round] rounds
    halves towards plus infinity. *)
Definition Math_floor (x : number) : number :=
  match x with
  | Fin q => Fin (inject_Z (Qfloor q))
  | _ => x
  end.

Definition Math_round (x : number) : number :=
  match x with
  | Fin q => Fin (inject_Z (Qfloor (q + (1 # 2))%Q))
  | _ => x
  end.

(** ** Rounding *)

(** The exponent [e] with [2^e <= q < 2^(e+1)], for positive [q]. *)
Definition floor_log2 (q : Q) : Z :=
  let e0 := Z.log2 (Qnum q) - Z.log2 (Z.pos (Qden q)) in
  if Qle_bool (2 ^ e0) q then e0 else e0 - 1.

(** The nearest integer, a tie going to the even one. *)
Definition round_half_even (q : Q) : Z :=
  let f := Qfloor q in
  match (q - inject_Z f ?= 1 # 2)%Q with
  | Lt => f
  | Gt => f + 1
  | Eq => if Z.even f then f else f + 1
  end.

(** Rounding to nearest, ties to even, into the binary format with
    [prec] bits of precision, least exponent [emin] (the exponent of the
    smallest subnormal) and overflow threshold [2^emax]: the value is
    rounded to a multiple of [2^e], where [2^e] is the spacing of the
    format around it.  The result is in lowest terms. *)
Definition round_to (prec emin emax : Z) (q : Q) : number :=
  match (q ?= 0)%Q with
  | Eq => Fin 0
  | sign =>
      let e := Z.max emin (floor_log2 (Qabs q) - (prec - 1)) in
      let r := (inject_Z (round_half_even (q / 2 ^ e)) * 2 ^ e)%Q in
      if Qle_bool (2 ^ emax) (Qabs r)
      then Inf match sign with Lt => true | _ => false end
      else Fin (Qred r)
  end.

Definition binary64 : Q -> number := round_to 53 (-1074) 1024.
Definition binary32 : Q -> number := round_to 24 (-149) 128.

(** The result of an arithmetic operation, as a double. *)
Definition round64 (x : number) : number :=
  match x with
  | Fin q => binary64 q
  | _ => x
  end.

(** [Math.fround], the conversion applied by a store into a
    [Float32Array]. *)
Definition fround (x : number) : number :=
  match x with
  | Fin q => binary32 q
  | _ => x
  end.

(** [- a] *)
Definition opp (a : number) : number :=
  match a with
  | NaN => NaN
  | Inf s => Inf (negb s)
  | Fin q => Fin (- q)
  end.

(** The exact quotient.  A zero divisor counts as [+0]. *)
Definition div (a b : number) : number :=
  match a, b with
  | NaN, _ | _, NaN => NaN
  | Inf _, Inf _ => NaN
  | Inf s, Fin y => Inf (xorb s match Qsign y with Lt => true | _ => false end)
  | Fin _, Inf _ => Fin 0
  | Fin x, Fin y =>
      match Qsign y with
      | Eq =>
          match Qsign x with
          | Eq => NaN
          | Lt => Inf true
          | Gt => Inf false
          end
      | _ => Fin (x / y)
      end
  end.

(** The operators [a + b], [a - b], [a * b] and [a / b] on doubles: the
    exact result, rounded. *)
Definition fadd (a b : number) : number := round64 (add a b).
Definition fsub (a b : number) : number := round64 (add a (opp b)).
Definition fmul (a b : number) : number := round64 (mul a b).
Definition fdiv (a b : number) : number := round64 (div a b).

(** Truncation towards zero of a rational. *)
Definition truncate (q : Q) : Z := Z.quot (Qnum q) (Z.pos (Qden q)).

(** Two's complement wrap of an integer to 16 bits. *)
Definition wrap16 (z : Z) : Z :=
  let m := z mod 65536 in
  if 32768 <=? m then m - 65536 else m.

(** [ToInt16], the conversion applied by a store into an [Int16Array]. *)
Definition ToInt16 (x : number) : Z :=
  match x with
  | NaN | Inf _ => 0
  | Fin q => wrap16 (truncate q)
  end.

(** An [ArrayBuffer] is a sequence of bytes. *)
Definition ArrayBuffer := list byte.

(** The object literals passed to [JSON.stringify]: string-valued fields,
    in the order written. *)
Definition JsonObject := list (string * string).

End Js.

(* ===================================================================== *)
(** * Audio capture pipeline (useAudioRecorder, PCM variant) *)
(* ===================================================================== *)

Module Recorder.
Import Js.

Definition Float32Array := list number.
Definition Int16Array := list Z.

(** A function returns, or throws a [RangeError]. *)
Inductive Completion (A : Type) : Type :=
| Normal (value : A)
| RangeError.
Arguments Normal {A} value.
Arguments RangeError {A}.

(** [buffer[index]]: the element if [index] is an integer inside the
    array; otherwise [undefined], which the arithmetic that follows
    turns into NaN. *)
Definition get (buffer : Float32Array) (index : number) : number :=
  match index with
  | Fin q =>
      let i := Qfloor q in
      if Qeq_bool q (inject_Z i) && (0 <=? i) && (i <? Z.of_nat (length buffer))
      then nth (Z.to_nat i) buffer NaN
      else NaN
  | _ => NaN
  end.

(** [new Float32Array(length)]: the number of elements, or [None] for a
    [RangeError] (the length, as an integer, is negative or above
    [2^53 - 1]; NaN counts as 0).  Failure to allocate is not
    modelled. *)
Definition new_Float32Array (length : number) : option nat :=
  match length with
  | NaN => Some 0%nat
  | Inf _ => None
  | Fin q =>
      let n := truncate q in
      if (n <? 0) || (2 ^ 53 - 1 <? n) then None else Some (Z.to_nat n)
  end.

(** One iteration of the interpolation loop: the value stored at
    [result[i]]. *)
Definition interpolate (buffer : Float32Array) (ratio : number) (i : Z) : number :=
  let srcIndex := fmul (Fin (inject_Z i)) ratio in
  let low := Math_floor srcIndex in
  let high := Math_min (fadd low (Fin 1)) (Fin (inject_Z (Z.of_nat (length buffer) - 1))) in
  let frac := fsub srcIndex low in
  fround (fadd (fmul (get buffer low) (fsub (Fin 1) frac)) (fmul (get buffer high) frac)).

(** [downsampleFloat32].  The two rates are finite doubles, given by
    their values; the result is the new array, or the [RangeError] of
    its allocation. *)
Definition downsampleFloat32 (buffer : Float32Array) (srcRate dstRate : Q)
  : Completion Float32Array :=
  if Qeq_bool srcRate dstRate then Normal buffer
  else
    let ratio := fdiv (Fin srcRate) (Fin dstRate) in
    let newLength :=
      Math_round (fdiv (Fin (inject_Z (Z.of_nat (length buffer)))) ratio) in
    match new_Float32Array newLength with
    | None => RangeError
    | Some n =>
        Normal (map (fun i => interpolate buffer ratio (Z.of_nat i)) (seq 0 n))
    end.

(** The clamp on the first line of the quantisation loop. *)
Definition clamp (x : number) : number :=
  Math_max (Fin (-1)) (Math_min (Fin 1) x).

(** The value assigned to [int16[i]], before the typed-array store
    converts it.  No rounding is written after the products: for a
    float sample they are exact in double arithmetic. *)
Definition scale (s : number) : number :=
  if lt s (Fin 0) then mul s (Fin 32768) else mul s (Fin 32767).

Definition float32ToInt16 (float32 : Float32Array) : Int16Array :=
  map (fun x => ToInt16 (scale (clamp x))) float32.

(** ** Teardown *)

(** The four resources held in refs while recording. *)
Inductive Stage : Type :=
| ProcessorStage
| SourceStage
| ContextStage
| TrackStage (index : nat).

(** What a teardown call does when invoked: it completes, or it throws.
    [AudioContext.close] returns a promise; a rejection of that promise
    is not a throw and the caller never looks at it. *)
Inductive CallResult : Type := Completes | Throws.

Definition Environment := Stage -> CallResult.

Record Recorder : Type := mkRecorder {
  isRecording : bool;
  processorRef : bool;          (* ref holds a node *)
  sourceRef : bool;
  audioCtxRef : bool;
  streamRef : option nat;       (* ref holds a stream with that many tracks *)
  released : list Stage         (* teardown calls that completed, in order *)
}.

Inductive Outcome : Type :=
| Returned (r : Recorder)
| Threw (r : Recorder).

Definition state_of (o : Outcome) : Recorder :=
  match o with Returned r | Threw r => r end.

Definition bind (o : Outcome) (k : Recorder -> Outcome) : Outcome :=
  match o with
  | Returned r => k r
  | Threw r => Threw r
  end.

(** A teardown call on [stage]. *)
Definition call (env : Environment) (stage : Stage) (r : Recorder) : Outcome :=
  match env stage with
  | Completes =>
      Returned (mkRecorder (isRecording r) (processorRef r) (sourceRef r)
                           (audioCtxRef r) (streamRef r) (released r ++ [stage]))
  | Throws => Threw r
  end.

Definition set_processorRef (b : bool) (r : Recorder) : Recorder :=
  mkRecorder (isRecording r) b (sourceRef r) (audioCtxRef r) (streamRef r) (released r).
Definition set_sourceRef (b : bool) (r : Recorder) : Recorder :=
  mkRecorder (isRecording r) (processorRef r) b (audioCtxRef r) (streamRef r) (released r).
Definition set_audioCtxRef (b : bool) (r : Recorder) : Recorder :=
  mkRecorder (isRecording r) (processorRef r) (sourceRef r) b (streamRef r) (released r).
Definition set_streamRef (s : option nat) (r : Recorder) : Recorder :=
  mkRecorder (isRecording r) (processorRef r) (sourceRef r) (audioCtxRef r) s (released r).
Definition setIsRecording (b : bool) (r : Recorder) : Recorder :=
  mkRecorder b (processorRef r) (sourceRef r) (audioCtxRef r) (streamRef r) (released r).

(** [tracks.forEach((track) => track.stop())] over tracks [i .. i+n-1]. *)
Fixpoint stop_tracks (env : Environment) (i n : nat) (r : Recorder) : Outcome :=
  match n with
  | O => Returned r
  | S n' => bind (call env (TrackStage i) r) (stop_tracks env (S i) n')
  end.

Definition stopRecording (env : Environment) (r : Recorder) : Outcome :=
  bind (if processorRef r
        then bind (call env ProcessorStage r)
                  (fun r => Returned (set_processorRef false r))
        else Returned r) (fun r =>
  bind (if sourceRef r
        then bind (call env SourceStage r)
                  (fun r => Returned (set_sourceRef false r))
        else Returned r) (fun r =>
  bind (if audioCtxRef r
        then bind (call env ContextStage r)
                  (fun r => Returned (set_audioCtxRef false r))
        else Returned r) (fun r =>
  bind (match streamRef r with
        | Some n => bind (stop_tracks env 0 n r)
                         (fun r => Returned (set_streamRef None r))
        | None => Returned r
        end) (fun r =>
  Returned (setIsRecording false r))))).

(** The stages a recorder currently holds, in teardown order. *)
Definition held (r : Recorder) : list Stage :=
  (if processorRef r then [ProcessorStage] else []) ++
  (if sourceRef r then [SourceStage] else []) ++
  (if audioCtxRef r then [ContextStage] else []) ++
  match streamRef r with
  | Some n => map TrackStage (seq 0 n)
  | None => []
  end.

(** ** Vocabulary for the statements *)

(** The stages of [stages] whose teardown call completes, up to the first
    one that throws. *)
Fixpoint completed_prefix (env : Environment) (stages : list Stage) : list Stage :=
  match stages with
  | [] => []
  | s :: rest =>
      match env s with
      | Completes => s :: completed_prefix env rest
      | Throws => []
      end
  end.

Definition all_complete (env : Environment) (stages : list Stage) : Prop :=
  forall s, In s stages -> env s = Completes.

(** Every ref is null and the recording flag is off. *)
Definition cleared (r : Recorder) : Prop :=
  processorRef r = false /\ sourceRef r = false /\ audioCtxRef r = false /\
  streamRef r = None /\ isRecording r = false.

(** A recorder in the middle of a recording with one audio track. *)
Definition recording : Recorder := mkRecorder true true true true (Some 1%nat) [].

(** An environment in which disconnecting the processor node throws. *)
Definition throwing_processor : Environment :=
  fun s => match s with ProcessorStage => Throws | _ => Completes end.

(** An environment in which nothing throws. *)
Definition no_throw : Environment := fun _ => Completes.

End Recorder.

(* ===================================================================== *)
(** * Transport channel and reconnection manager (useWebSocket) *)
(* ===================================================================== *)

Module Transport.
Import Js.

Inductive ReadyState : Type := CONNECTING | OPEN | CLOSING | CLOSED.

Inductive Frame : Type :=
| Text (message : JsonObject)
| Binary (data : ArrayBuffer).

(** A [WebSocket] object.  [onopen], [onerror] and [onmessage] stay
    attached for the life of the object; only [onclose] is ever set to
    null, so it is the one handler that needs a flag.  [sent] records the
    frames accepted by [send]. *)
Record WebSocket : Type := mkWebSocket {
  readyState : ReadyState;
  onclose : bool;
  sent : list Frame
}.

(** The refs and state of one hook instance, together with the part of
    the browser it has touched: the sockets it created and the timeouts
    still pending.  [timeouts] maps a timeout id to the delay it was
    scheduled with; ids are positive, hence truthy. *)
Record Hook : Type := mkHook {
  isConnected : bool;
  wsRef : option nat;
  reconnectAttemptsRef : Z;
  reconnectTimerRef : option nat;
  intentionalCloseRef : bool;
  sockets : gmap nat WebSocket;
  nextSocket : nat;
  timeouts : gmap nat Z;
  nextTimeout : nat
}.

Definition initial : Hook :=
  mkHook false None 0 None false ∅ 0%nat ∅ 1%nat.

Definition setIsConnected (b : bool) (h : Hook) : Hook :=
  mkHook b (wsRef h) (reconnectAttemptsRef h) (reconnectTimerRef h)
         (intentionalCloseRef h) (sockets h) (nextSocket h) (timeouts h) (nextTimeout h).
Definition set_wsRef (w : option nat) (h : Hook) : Hook :=
  mkHook (isConnected h) w (reconnectAttemptsRef h) (reconnectTimerRef h)
         (intentionalCloseRef h) (sockets h) (nextSocket h) (timeouts h) (nextTimeout h).
Definition set_reconnectAttemptsRef (n : Z) (h : Hook) : Hook :=
  mkHook (isConnected h) (wsRef h) n (reconnectTimerRef h)
         (intentionalCloseRef h) (sockets h) (nextSocket h) (timeouts h) (nextTimeout h).
Definition set_reconnectTimerRef (t : option nat) (h : Hook) : Hook :=
  mkHook (isConnected h) (wsRef h) (reconnectAttemptsRef h) t
         (intentionalCloseRef h) (sockets h) (nextSocket h) (timeouts h) (nextTimeout h).
Definition set_intentionalCloseRef (b : bool) (h : Hook) : Hook :=
  mkHook (isConnected h) (wsRef h) (reconnectAttemptsRef h) (reconnectTimerRef h)
         b (sockets h) (nextSocket h) (timeouts h) (nextTimeout h).
Definition set_sockets (m : gmap nat WebSocket) (h : Hook) : Hook :=
  mkHook (isConnected h) (wsRef h) (reconnectAttemptsRef h) (reconnectTimerRef h)
         (intentionalCloseRef h) m (nextSocket h) (timeouts h) (nextTimeout h).
Definition set_nextSocket (n : nat) (h : Hook) : Hook :=
  mkHook (isConnected h) (wsRef h) (reconnectAttemptsRef h) (reconnectTimerRef h)
         (intentionalCloseRef h) (sockets h) n (timeouts h) (nextTimeout h).
Definition set_timeouts (m : gmap nat Z) (h : Hook) : Hook :=
  mkHook (isConnected h) (wsRef h) (reconnectAttemptsRef h) (reconnectTimerRef h)
         (intentionalCloseRef h) (sockets h) (nextSocket h) m (nextTimeout h).
Definition set_nextTimeout (n : nat) (h : Hook) : Hook :=
  mkHook (isConnected h) (wsRef h) (reconnectAttemptsRef h) (reconnectTimerRef h)
         (intentionalCloseRef h) (sockets h) (nextSocket h) (timeouts h) n.

(** ** Browser primitives *)

(** [new WebSocket(url)] as configured by [connect]: all four handlers
    attached, nothing sent yet. *)
Definition createWebSocket : WebSocket := mkWebSocket CONNECTING true [].

(** [ws.close()]: starts the closing handshake unless the socket is
    already closing or closed.  The close event comes later. *)
Definition close (ws : WebSocket) : WebSocket :=
  match readyState ws with
  | CONNECTING | OPEN => mkWebSocket CLOSING (onclose ws) (sent ws)
  | CLOSING | CLOSED => ws
  end.

(** [ws.onclose = null] *)
Definition detach_onclose (ws : WebSocket) : WebSocket :=
  mkWebSocket (readyState ws) false (sent ws).

(** [ws.send(frame)] on an open socket. *)
Definition send (frame : Frame) (ws : WebSocket) : WebSocket :=
  mkWebSocket (readyState ws) (onclose ws) (sent ws ++ [frame]).

Definition set_readyState (s : ReadyState) (ws : WebSocket) : WebSocket :=
  mkWebSocket s (onclose ws) (sent ws).

(** [setTimeout(callback, delay)]: returns the new id. *)
Definition setTimeout (delay : Z) (h : Hook) : nat * Hook :=
  let tid := nextTimeout h in
  (tid, set_nextTimeout (S tid) (set_timeouts (<[tid := delay]> (timeouts h)) h)).

(** [clearTimeout(id)] *)
Definition clearTimeout (tid : nat) (h : Hook) : Hook :=
  set_timeouts (delete tid (timeouts h)) h.

(** [wsRef.current?.readyState === WebSocket.OPEN] *)
Definition current_is_open (h : Hook) : bool :=
  match wsRef h with
  | Some id =>
      match sockets h !! id with
      | Some ws => match readyState ws with OPEN => true | _ => false end
      | None => false
      end
  | None => false
  end.

Definition RECONNECT_BASE_DELAY : Z := 1000.

(** The options of the hook that matter here: [maxReconnectAttempts] is
    optional and defaults to 5. *)
Definition maxReconnectAttempts_of (option : option Z) : Z :=
  match option with
  | Some n => n
  | None => 5
  end.

Section WithOptions.

(** The [maxReconnectAttempts] option (default 5). *)
Variable maxReconnectAttempts : Z.

Definition connect (h : Hook) : Hook :=
  if current_is_open h then h
  else
    (* Clean up any existing connection *)
    let h :=
      match wsRef h with
      | Some id => set_sockets (alter close id (alter detach_onclose id (sockets h))) h
      | None => h
      end in
    let h := set_intentionalCloseRef false h in
    let id := nextSocket h in
    let h := set_nextSocket (S id) (set_sockets (<[id := createWebSocket]> (sockets h)) h) in
    set_wsRef (Some id) h.

(** The [ws.onopen] handler installed by [connect]. *)
Definition onopen_handler (h : Hook) : Hook :=
  set_reconnectAttemptsRef 0 (setIsConnected true h).

(** The body of the timeout scheduled by the close handler. *)
Definition reconnect_callback (h : Hook) : Hook :=
  connect (set_reconnectAttemptsRef (reconnectAttemptsRef h + 1) h).

(** The [ws.onclose] handler installed by [connect]. *)
Definition onclose_handler (h : Hook) : Hook :=
  let h := setIsConnected false h in
  if negb (intentionalCloseRef h) && (reconnectAttemptsRef h <? maxReconnectAttempts)
  then
    let delay := RECONNECT_BASE_DELAY * 2 ^ reconnectAttemptsRef h in
    let '(tid, h) := setTimeout delay h in
    set_reconnectTimerRef (Some tid) h
  else h.

Definition disconnect (h : Hook) : Hook :=
  let h := set_intentionalCloseRef true h in
  let h :=
    match reconnectTimerRef h with
    | Some tid => set_reconnectTimerRef None (clearTimeout tid h)
    | None => h
    end in
  let h := set_reconnectAttemptsRef 0 h in
  match wsRef h with
  | Some id => set_wsRef None (set_sockets (alter close id (sockets h)) h)
  | None => h
  end.

(** The cleanup function of the unmount effect. *)
Definition unmount (h : Hook) : Hook :=
  let h := set_intentionalCloseRef true h in
  let h :=
    match reconnectTimerRef h with
    | Some tid => clearTimeout tid h
    | None => h
    end in
  disconnect h.

Definition send_frame (frame : Frame) (h : Hook) : Hook :=
  if current_is_open h
  then
    match wsRef h with
    | Some id => set_sockets (alter (send frame) id (sockets h)) h
    | None => h
    end
  else h.

Definition sendMessage (message : JsonObject) (h : Hook) : Hook :=
  send_frame (Text message) h.

Definition sendAudio (audioData : ArrayBuffer) (h : Hook) : Hook :=
  send_frame (Binary audioData) h.

Definition sendTranscript (text : string) (speaker : option string) (h : Hook) : Hook :=
  let speaker := match speaker with Some s => s | None => "doctor"%string end in
  sendMessage [("type", "transcript"); ("text", text); ("speaker", speaker)]%string h.

Definition endSession : Hook -> Hook := sendMessage [("type", "end")]%string.
Definition pauseSession : Hook -> Hook := sendMessage [("type", "pause")]%string.
Definition resumeSession : Hook -> Hook := sendMessage [("type", "resume")]%string.
Definition triggerSafetyCheck : Hook -> Hook := sendMessage [("type", "check_safety")]%string.

(** ** Events *)

(** What can happen to a hook instance: the browser reports that a socket
    opened or closed, a pending timeout fires, or the owner of the hook
    calls one of the returned functions. *)
Inductive Event : Type :=
| Opened (id : nat)
| Closed (id : nat)
| TimeoutFired (tid : nat)
| Connect
| Disconnect
| Unmount
| SendMessage (message : JsonObject)
| SendAudio (audioData : ArrayBuffer).

(** The open event of socket [id]: only a connecting socket can open. *)
Definition opened (id : nat) (h : Hook) : Hook :=
  match sockets h !! id with
  | Some ws =>
      match readyState ws with
      | CONNECTING =>
          onopen_handler (set_sockets (<[id := set_readyState OPEN ws]> (sockets h)) h)
      | _ => h
      end
  | None => h
  end.

(** The close event of socket [id]: fires once, and runs the close
    handler if one is still attached. *)
Definition closed (id : nat) (h : Hook) : Hook :=
  match sockets h !! id with
  | Some ws =>
      match readyState ws with
      | CLOSED => h
      | _ =>
          let h := set_sockets (<[id := set_readyState CLOSED ws]> (sockets h)) h in
          if onclose ws then onclose_handler h else h
      end
  | None => h
  end.

(** A pending timeout fires: it leaves the pending set and its callback
    runs.  A cleared timeout never fires. *)
Definition timeout_fired (tid : nat) (h : Hook) : Hook :=
  match timeouts h !! tid with
  | Some _ => reconnect_callback (clearTimeout tid h)
  | None => h
  end.

Definition step (h : Hook) (e : Event) : Hook :=
  match e with
  | Opened id => opened id h
  | Closed id => closed id h
  | TimeoutFired tid => timeout_fired tid h
  | Connect => connect h
  | Disconnect => disconnect h
  | Unmount => unmount h
  | SendMessage message => sendMessage message h
  | SendAudio audioData => sendAudio audioData h
  end.

Definition run (events : list Event) (h : Hook) : Hook :=
  fold_left step events h.

(** ** A run of failed connections *)

(** The close event of the socket the hook currently holds. *)
Definition current_closed (h : Hook) : Hook :=
  match wsRef h with
  | Some id => closed id h
  | None => h
  end.

(** The scheduled retry fires. *)
Definition retry_fired (h : Hook) : Hook :=
  match reconnectTimerRef h with
  | Some tid => timeout_fired tid h
  | None => h
  end.

(** [n] consecutive unintentional closes: the current socket closes, and
    before each further close the retry scheduled by the previous one has
    fired and produced the socket that closes next.  No socket opens. *)
Fixpoint consecutive_closes (n : nat) (h : Hook) : Hook :=
  match n with
  | O => h
  | S O => current_closed h
  | S n' => current_closed (retry_fired (consecutive_closes n' h))
  end.

(** The delay of the retry currently scheduled, if any. *)
Definition scheduled_delay (h : Hook) : option Z :=
  match reconnectTimerRef h with
  | Some tid => timeouts h !! tid
  | None => None
  end.

End WithOptions.

(** ** Vocabulary for the statements *)

(** The hook holds a socket that has not closed yet, with its close
    handler attached; no close was asked for, the attempt counter is [a]
    and no timeout is pending. *)
Definition awaiting (a : Z) (h : Hook) : Prop :=
  exists id ws,
    wsRef h = Some id /\ sockets h !! id = Some ws /\
    readyState ws <> CLOSED /\ onclose ws = true /\
    intentionalCloseRef h = false /\ reconnectAttemptsRef h = a /\
    timeouts h = ∅.

(** The socket the hook holds has closed and exactly one timeout is
    pending: the retry recorded in [reconnectTimerRef], with the delay of
    attempt [a]. *)
Definition backing_off (a : Z) (h : Hook) : Prop :=
  exists id ws tid,
    wsRef h = Some id /\ sockets h !! id = Some ws /\ readyState ws = CLOSED /\
    reconnectTimerRef h = Some tid /\
    timeouts h = {[tid := RECONNECT_BASE_DELAY * 2 ^ a]} /\
    intentionalCloseRef h = false /\ reconnectAttemptsRef h = a.

(** Every pending timeout is the one recorded in [reconnectTimerRef]. *)
Definition tracked (h : Hook) : Prop :=
  forall tid, is_Some (timeouts h !! tid) -> reconnectTimerRef h = Some tid.

(** Reconnection is off: the close was intentional and nothing is
    pending. *)
Definition suppressed (h : Hook) : Prop :=
  intentionalCloseRef h = true /\ timeouts h = ∅.

Definition is_connect (e : Event) : bool :=
  match e with Connect => true | _ => false end.

(** The socket is absent, or present and not in the OPEN state. *)
Definition not_open (h : Hook) : Prop :=
  wsRef h = None \/
  exists id, wsRef h = Some id /\
    forall ws, sockets h !! id = Some ws -> readyState ws <> OPEN.

End Transport.

(** The first version of the hook: no reconnection. *)
Module TransportV1.
Import Js.
Import Transport(ReadyState, CONNECTING, OPEN, CLOSING, CLOSED, Frame, Text, Binary,
                 WebSocket, mkWebSocket, readyState, onclose, sent,
                 createWebSocket, close, send).

Record Hook : Type := mkHook {
  isConnected : bool;
  wsRef : option nat;
  sockets : gmap nat WebSocket;
  nextSocket : nat
}.

Definition current_is_open (h : Hook) : bool :=
  match wsRef h with
  | Some id =>
      match sockets h !! id with
      | Some ws => match readyState ws with OPEN => true | _ => false end
      | None => false
      end
  | None => false
  end.

Definition connect (h : Hook) : Hook :=
  if current_is_open h then h
  else
    let id := nextSocket h in
    mkHook (isConnected h) (Some id) (<[id := createWebSocket]> (sockets h)) (S id).

Definition disconnect (h : Hook) : Hook :=
  match wsRef h with
  | Some id => mkHook (isConnected h) None (alter close id (sockets h)) (nextSocket h)
  | None => h
  end.

Definition send_frame (frame : Frame) (h : Hook) : Hook :=
  if current_is_open h
  then
    match wsRef h with
    | Some id => mkHook (isConnected h) (wsRef h) (alter (send frame) id (sockets h)) (nextSocket h)
    | None => h
    end
  else h.

Definition sendMessage (message : JsonObject) (h : Hook) : Hook :=
  send_frame (Text message) h.

Definition sendAudio (audioData : ArrayBuffer) (h : Hook) : Hook :=
  send_frame (Binary audioData) h.

Definition sendTranscript (text : string) (speaker : option string) (h : Hook) : Hook :=
  let speaker := match speaker with Some s => s | None => "doctor"%string end in
  sendMessage [("type", "transcript"); ("text", text); ("speaker", speaker)]%string h.

Definition endSession : Hook -> Hook := sendMessage [("type", "end")]%string.
Definition pauseSession : Hook -> Hook := sendMessage [("type", "pause")]%string.
Definition resumeSession : Hook -> Hook := sendMessage [("type", "resume")]%string.
Definition triggerSafetyCheck : Hook -> Hook := sendMessage [("type", "check_safety")]%string.

(** The socket is absent, or present and not in the OPEN state. *)
Definition not_open (h : Hook) : Prop :=
  wsRef h = None \/
  exists id, wsRef h = Some id /\
    forall ws, sockets h !! id = Some ws -> readyState ws <> OPEN.

End TransportV1.

(* ===================================================================== *)
(** * Audio playback accumulator (useAudioPlayer, accumulating variant) *)
(* ===================================================================== *)

Module Player.
Import Js.

(** The refs and state of the hook, a millisecond clock, the timeouts
    still pending (oldest first, each with the time it is due), and a log
    of the buffers handed to [decodeAudioData] with the time of the
    call. *)
Record Player : Type := mkPlayer {
  isPlaying : bool;
  chunksRef : list ArrayBuffer;
  flushTimerRef : option nat;
  clock : Z;
  timeouts : list (nat * Z);
  nextTimeout : nat;
  decoded : list (Z * ArrayBuffer)
}.

Definition initial : Player := mkPlayer false [] None 0 [] 1%nat [].

Definition QUIET_INTERVAL : Z := 500.

Definition setIsPlaying (b : bool) (p : Player) : Player :=
  mkPlayer b (chunksRef p) (flushTimerRef p) (clock p) (timeouts p) (nextTimeout p) (decoded p).
Definition set_chunksRef (c : list ArrayBuffer) (p : Player) : Player :=
  mkPlayer (isPlaying p) c (flushTimerRef p) (clock p) (timeouts p) (nextTimeout p) (decoded p).
Definition set_flushTimerRef (t : option nat) (p : Player) : Player :=
  mkPlayer (isPlaying p) (chunksRef p) t (clock p) (timeouts p) (nextTimeout p) (decoded p).
Definition set_clock (t : Z) (p : Player) : Player :=
  mkPlayer (isPlaying p) (chunksRef p) (flushTimerRef p) t (timeouts p) (nextTimeout p) (decoded p).
Definition set_timeouts (l : list (nat * Z)) (p : Player) : Player :=
  mkPlayer (isPlaying p) (chunksRef p) (flushTimerRef p) (clock p) l (nextTimeout p) (decoded p).
Definition set_nextTimeout (n : nat) (p : Player) : Player :=
  mkPlayer (isPlaying p) (chunksRef p) (flushTimerRef p) (clock p) (timeouts p) n (decoded p).
Definition set_decoded (d : list (Z * ArrayBuffer)) (p : Player) : Player :=
  mkPlayer (isPlaying p) (chunksRef p) (flushTimerRef p) (clock p) (timeouts p) (nextTimeout p) d.

(** [setTimeout(callback, delay)] *)
Definition setTimeout (delay : Z) (p : Player) : nat * Player :=
  let tid := nextTimeout p in
  (tid, set_nextTimeout (S tid) (set_timeouts (timeouts p ++ [(tid, clock p + delay)]) p)).

(** [clearTimeout(id)] *)
Definition clearTimeout (tid : nat) (p : Player) : Player :=
  set_timeouts (List.filter (fun entry => negb (Nat.eqb (fst entry) tid)) (timeouts p)) p.

(** [playAccumulated], up to the call of [decodeAudioData]: the buffer is
    taken and reset, the chunks are concatenated in order, and the result
    is handed to the decoder.  Decoding and playback complete later, see
    [playback_settled]. *)
Definition playAccumulated (p : Player) : Player :=
  let chunks := chunksRef p in
  let p := set_chunksRef [] p in
  match chunks with
  | [] => p
  | _ :: _ =>
      let combined := concat chunks in
      set_decoded (decoded p ++ [(clock p, combined)]) (setIsPlaying true p)
  end.

(** The [finally] block of [playAccumulated], run when playback ends or
    decoding fails. *)
Definition playback_settled (p : Player) : Player := setIsPlaying false p.

(** The body of the timeout scheduled by [playAudioChunk]. *)
Definition flush_callback (p : Player) : Player :=
  playAccumulated (set_flushTimerRef None p).

Definition playAudioChunk (audioData : ArrayBuffer) (p : Player) : Player :=
  let p := set_chunksRef (chunksRef p ++ [audioData]) p in
  (* Reset the flush timer *)
  let p :=
    match flushTimerRef p with
    | Some tid => clearTimeout tid p
    | None => p
    end in
  let '(tid, p) := setTimeout QUIET_INTERVAL p in
  set_flushTimerRef (Some tid) p.

Definition stopPlayback (p : Player) : Player :=
  let p := set_chunksRef [] p in
  let p :=
    match flushTimerRef p with
    | Some tid => set_flushTimerRef None (clearTimeout tid p)
    | None => p
    end in
  setIsPlaying false p.

(** ** Time *)

(** Fire, oldest first, the pending timeouts selected by [is_due]; each
    fires at the time it is due.  The callback of this hook schedules no
    timeout, so the pending list at the start is the list to go
    through. *)
Fixpoint fire (is_due : Z -> bool) (pending : list (nat * Z)) (p : Player) : Player :=
  match pending with
  | [] => p
  | (tid, due) :: rest =>
      if is_due due
      then fire is_due rest (flush_callback (set_clock due (clearTimeout tid p)))
      else fire is_due rest p
  end.

(** Let time pass until [t]: every timeout due by then fires.  A timeout
    due exactly at [t] fires before anything else that happens at [t]. *)
Definition advance (t : Z) (p : Player) : Player :=
  let p := fire (fun due => due <=? t) (timeouts p) p in
  set_clock (Z.max (clock p) t) p.

(** A fragment arrives at time [t]. *)
Definition arrive (p : Player) (arrival : Z * ArrayBuffer) : Player :=
  playAudioChunk (snd arrival) (advance (fst arrival) p).

(** Let time pass until nothing is pending. *)
Definition quiesce (p : Player) : Player :=
  fire (fun _ => true) (timeouts p) p.

Definition run (arrivals : list (Z * ArrayBuffer)) (p : Player) : Player :=
  quiesce (fold_left arrive arrivals p).

(** ** Trailing-edge debounce, as the specification words it *)

(** The fragments are cut wherever the quiet interval elapses between one
    arrival and the next; each piece is flushed, concatenated in arrival
    order, one quiet interval after its last fragment.  [current] is the
    piece being accumulated and [last] the time of its last fragment. *)
Fixpoint debounce_from (current : list ArrayBuffer) (last : Z)
    (arrivals : list (Z * ArrayBuffer)) : list (Z * ArrayBuffer) :=
  match arrivals with
  | [] => [(last + QUIET_INTERVAL, concat current)]
  | (t, data) :: rest =>
      if last + QUIET_INTERVAL <=? t
      then (last + QUIET_INTERVAL, concat current) :: debounce_from [data] t rest
      else debounce_from (current ++ [data]) t rest
  end.

Definition debounce (arrivals : list (Z * ArrayBuffer)) : list (Z * ArrayBuffer) :=
  match arrivals with
  | [] => []
  | (t, data) :: rest => debounce_from [data] t rest
  end.

(** Arrival times never go backwards, and start no earlier than [t]. *)
Fixpoint chronological (t : Z) (arrivals : list (Z * ArrayBuffer)) : Prop :=
  match arrivals with
  | [] => True
  | (t', _) :: rest => t <= t' /\ chronological t' rest
  end.

(** The state between two fragments: [current] is buffered, the last
    fragment came at [last], and the one pending timeout is the flush due
    one quiet interval later. *)
Definition accumulating (playing : bool) (current : list ArrayBuffer) (last : Z)
    (tid : nat) (flushed : list (Z * ArrayBuffer)) : Player :=
  mkPlayer playing current (Some tid) last [(tid, last + QUIET_INTERVAL)] (S tid) flushed.

End Player.

(* ===================================================================== *)
(** * Session mirror and dispatcher (the page component) *)
(* ===================================================================== *)

Module Page.
Import Js.

Local Open Scope string_scope.

(** ** Wire and view types (lib/api.ts and the panels) *)

Record SOAPNote : Type := mkSOAPNote {
  subjective : string;
  objective : string;
  assessment : string;
  plan : string;
  icd10_codes : list string;
  cpt_codes : list string
}.

Record BillingInfo : Type := mkBillingInfo {
  invoice_id : string;
  amount : Q;
  status : string
}.

Record EndConsultResponse : Type := mkEndConsultResponse {
  session_id : string;
  soap_note : SOAPNote;
  billing : BillingInfo;
  duration_minutes : Q
}.

Record MedicationIntent : Type := mkMedicationIntent {
  med_name : string;
  med_dosage : option string;
  med_action : option string
}.

Record ClinicalIntent : Type := mkClinicalIntent {
  medications : list MedicationIntent;
  procedures : list (string * option string);
  diagnoses : list (string * option string)
}.

Inductive SafetyLevel : Type := SAFE | CAUTION | DANGER | CRITICAL.

(** The messages of the channel, by their [type] field.  [OtherMessage]
    stands for parsed JSON whose [type] is none of the known ones. *)
Inductive WebSocketMessage : Type :=
| SafetyAlertMessage (safety_level : SafetyLevel) (risk_score : Q)
    (warning recommendation : option string) (requires_interruption : bool)
    (timestamp : string)
| TranscriptMessage (text timestamp : string)
| StateChangeMessage (old_state new_state timestamp : string)
| ClinicalIntentMessage (intent : ClinicalIntent) (timestamp : string)
| ConsultEndedMessage (soap_note : SOAPNote) (timestamp : string)
| InterruptionStartMessage (text : option string) (timestamp : string)
| InterruptionEndMessage (timestamp : string)
| OtherMessage (type : string).

Record TranscriptEntry : Type := mkTranscriptEntry {
  entry_id : string;
  entry_text : string;
  entry_speaker : string;
  entry_timestamp : string
}.

Record SafetyAlert : Type := mkSafetyAlert {
  alert_id : string;
  alert_level : SafetyLevel;
  alert_message : string;
  alert_recommendation : option string;
  alert_timestamp : string
}.

(** ** JavaScript idioms *)

(** A number inside a template literal. *)
Definition number_to_string (z : Z) : string := NilZero.string_of_int (Z.to_int z).

(** An optional string inside a template literal. *)
Definition template (s : option string) : string :=
  match s with Some s => s | None => "undefined" end.

(** [s || fallback]: null, undefined and the empty string are falsy. *)
Definition or_else (s : option string) (fallback : string) : string :=
  match s with
  | Some "" | None => fallback
  | Some s => s
  end.

(** Truthiness of a nullable string. *)
Definition truthy (s : option string) : bool :=
  match s with
  | Some "" | None => false
  | Some _ => true
  end.

(** ** Component state *)

Record PageState : Type := mkPageState {
  sessionId : option string;
  sessionState : string;
  isPaused : bool;
  elapsedSeconds : Z;
  selectedPatientId : option string;
  transcriptEntries : list TranscriptEntry;
  safetyAlerts : list SafetyAlert;
  currentSafetyLevel : SafetyLevel;
  isInterrupting : bool;
  interruptionMessage : string;
  clinicalIntent : option ClinicalIntent;
  sessionSummary : option EndConsultResponse;
  ws : Transport.Hook;
  recorder : Recorder.Recorder
}.

Definition initial : PageState :=
  mkPageState None "IDLE" false 0 None [] [] SAFE false "" None None
              Transport.initial
              (Recorder.mkRecorder false false false false None []).

Definition setSessionId (x : option string) (p : PageState) : PageState :=
  mkPageState x (sessionState p) (isPaused p) (elapsedSeconds p) (selectedPatientId p)
    (transcriptEntries p) (safetyAlerts p) (currentSafetyLevel p) (isInterrupting p)
    (interruptionMessage p) (clinicalIntent p) (sessionSummary p) (ws p) (recorder p).
Definition setSessionState (x : string) (p : PageState) : PageState :=
  mkPageState (sessionId p) x (isPaused p) (elapsedSeconds p) (selectedPatientId p)
    (transcriptEntries p) (safetyAlerts p) (currentSafetyLevel p) (isInterrupting p)
    (interruptionMessage p) (clinicalIntent p) (sessionSummary p) (ws p) (recorder p).
Definition setIsPaused (x : bool) (p : PageState) : PageState :=
  mkPageState (sessionId p) (sessionState p) x (elapsedSeconds p) (selectedPatientId p)
    (transcriptEntries p) (safetyAlerts p) (currentSafetyLevel p) (isInterrupting p)
    (interruptionMessage p) (clinicalIntent p) (sessionSummary p) (ws p) (recorder p).
Definition setElapsedSeconds (x : Z) (p : PageState) : PageState :=
  mkPageState (sessionId p) (sessionState p) (isPaused p) x (selectedPatientId p)
    (transcriptEntries p) (safetyAlerts p) (currentSafetyLevel p) (isInterrupting p)
    (interruptionMessage p) (clinicalIntent p) (sessionSummary p) (ws p) (recorder p).
Definition setTranscriptEntries (x : list TranscriptEntry) (p : PageState) : PageState :=
  mkPageState (sessionId p) (sessionState p) (isPaused p) (elapsedSeconds p) (selectedPatientId p)
    x (safetyAlerts p) (currentSafetyLevel p) (isInterrupting p)
    (interruptionMessage p) (clinicalIntent p) (sessionSummary p) (ws p) (recorder p).
Definition setSafetyAlerts (x : list SafetyAlert) (p : PageState) : PageState :=
  mkPageState (sessionId p) (sessionState p) (isPaused p) (elapsedSeconds p) (selectedPatientId p)
    (transcriptEntries p) x (currentSafetyLevel p) (isInterrupting p)
    (interruptionMessage p) (clinicalIntent p) (sessionSummary p) (ws p) (recorder p).
Definition setCurrentSafetyLevel (x : SafetyLevel) (p : PageState) : PageState :=
  mkPageState (sessionId p) (sessionState p) (isPaused p) (elapsedSeconds p) (selectedPatientId p)
    (transcriptEntries p) (safetyAlerts p) x (isInterrupting p)
    (interruptionMessage p) (clinicalIntent p) (sessionSummary p) (ws p) (recorder p).
Definition setIsInterrupting (x : bool) (p : PageState) : PageState :=
  mkPageState (sessionId p) (sessionState p) (isPaused p) (elapsedSeconds p) (selectedPatientId p)
    (transcriptEntries p) (safetyAlerts p) (currentSafetyLevel p) x
    (interruptionMessage p) (clinicalIntent p) (sessionSummary p) (ws p) (recorder p).
Definition setInterruptionMessage (x : string) (p : PageState) : PageState :=
  mkPageState (sessionId p) (sessionState p) (isPaused p) (elapsedSeconds p) (selectedPatientId p)
    (transcriptEntries p) (safetyAlerts p) (currentSafetyLevel p) (isInterrupting p)
    x (clinicalIntent p) (sessionSummary p) (ws p) (recorder p).
Definition setClinicalIntent (x : option ClinicalIntent) (p : PageState) : PageState :=
  mkPageState (sessionId p) (sessionState p) (isPaused p) (elapsedSeconds p) (selectedPatientId p)
    (transcriptEntries p) (safetyAlerts p) (currentSafetyLevel p) (isInterrupting p)
    (interruptionMessage p) x (sessionSummary p) (ws p) (recorder p).
Definition setSessionSummary (x : option EndConsultResponse) (p : PageState) : PageState :=
  mkPageState (sessionId p) (sessionState p) (isPaused p) (elapsedSeconds p) (selectedPatientId p)
    (transcriptEntries p) (safetyAlerts p) (currentSafetyLevel p) (isInterrupting p)
    (interruptionMessage p) (clinicalIntent p) x (ws p) (recorder p).
Definition set_ws (x : Transport.Hook) (p : PageState) : PageState :=
  mkPageState (sessionId p) (sessionState p) (isPaused p) (elapsedSeconds p) (selectedPatientId p)
    (transcriptEntries p) (safetyAlerts p) (currentSafetyLevel p) (isInterrupting p)
    (interruptionMessage p) (clinicalIntent p) (sessionSummary p) x (recorder p).
Definition set_recorder (x : Recorder.Recorder) (p : PageState) : PageState :=
  mkPageState (sessionId p) (sessionState p) (isPaused p) (elapsedSeconds p) (selectedPatientId p)
    (transcriptEntries p) (safetyAlerts p) (currentSafetyLevel p) (isInterrupting p)
    (interruptionMessage p) (clinicalIntent p) (sessionSummary p) (ws p) x.

(** ** The message handler *)

(** [handleWebSocketMessage] is a callback that closes over two state
    values of the render that created it; the socket keeps calling the
    callback it was given, so these are the values of that render and not
    necessarily the current ones.  State setters act on current state. *)
Record Closure : Type := mkClosure {
  closed_sessionId : option string;
  closed_elapsedSeconds : Z
}.

Definition medication_label (m : MedicationIntent) : string :=
  med_name m ++
  match med_dosage m with
  | Some "" | None => ""
  | Some d => " " ++ d
  end.

(** [now] is the value of [Date.now()] during the call. *)
Definition handleWebSocketMessage (c : Closure) (now : Z)
    (message : WebSocketMessage) (p : PageState) : PageState :=
  match message with
  | StateChangeMessage _ new_state _ =>
      let p := setSessionState new_state p in
      let p := if String.eqb new_state "PAUSED" then setIsPaused true p else p in
      let p := if String.eqb new_state "LISTENING" then setIsPaused false p else p in
      if String.eqb new_state "INTERRUPTING" then setIsInterrupting true p else p
  | TranscriptMessage text timestamp =>
      setTranscriptEntries
        (transcriptEntries p ++
           [mkTranscriptEntry ("t-" ++ number_to_string now) text "doctor" timestamp])%list p
  | SafetyAlertMessage safety_level _ warning recommendation _ timestamp =>
      let alert :=
        mkSafetyAlert ("sa-" ++ number_to_string now) safety_level
          (or_else warning "Safety check completed")
          (match recommendation with Some "" | None => None | Some r => Some r end)
          timestamp in
      setCurrentSafetyLevel safety_level (setSafetyAlerts (alert :: safetyAlerts p) p)
  | ClinicalIntentMessage intent timestamp =>
      let p := setClinicalIntent (Some intent) p in
      match medications intent with
      | [] => p
      | _ :: _ =>
          let medNames := String.concat ", " (map medication_label (medications intent)) in
          setTranscriptEntries
            (transcriptEntries p ++
               [mkTranscriptEntry ("intent-" ++ number_to_string now)
                  ("[Detected] Medications: " ++ medNames) "system" timestamp])%list p
      end
  | ConsultEndedMessage soap_note _ =>
      let p :=
        setSessionSummary
          (Some (mkEndConsultResponse
                   (match closed_sessionId c with Some s => s | None => "" end)
                   soap_note
                   (mkBillingInfo "pending" 0 "pending")
                   (inject_Z (closed_elapsedSeconds c / 60)))) p in
      setSessionState "COMPLETED" p
  | InterruptionStartMessage text timestamp =>
      let p := setIsInterrupting true p in
      let p := setInterruptionMessage (or_else text "Clinical alert detected!") p in
      setTranscriptEntries
        (transcriptEntries p ++
           [mkTranscriptEntry ("sys-" ++ number_to_string now)
              ("[ALERT] " ++ template text) "system" timestamp])%list p
  | InterruptionEndMessage _ =>
      setIsInterrupting false p
  | OtherMessage _ => p
  end.

(** ** The timer effect *)

(** The effect is re-run on every change of its three dependencies and
    its cleanup clears the interval, so after each commit an interval
    exists exactly when the condition held in that commit. *)
Definition timer_running (p : PageState) : bool :=
  truthy (sessionId p) && String.eqb (sessionState p) "LISTENING" && negb (isPaused p).

(** The interval callback is due: it runs if there is an interval.  The
    interval is created with a period of 1000 ms; a callback is one
    tick of that interval, not one second of the wall clock (the
    interval is cleared and created anew at every change of the effect's
    dependencies, and the time run so far is lost). *)
Definition tick (p : PageState) : PageState :=
  if timer_running p then setElapsedSeconds (elapsedSeconds p + 1) p else p.

(** ** Commands *)

(** [handleStartConsult], with the result of the REST call: the session
    id of the response, or [None] if the call was rejected. *)
Definition handleStartConsult (response : option string) (p : PageState) : PageState :=
  if truthy (selectedPatientId p)
  then
    match response with
    | Some id =>
        let p := setSessionId (Some id) p in
        let p := setSessionState "LISTENING" p in
        let p := setElapsedSeconds 0 p in
        let p := setTranscriptEntries [] p in
        let p := setSafetyAlerts [] p in
        let p := setCurrentSafetyLevel SAFE p in
        setClinicalIntent None p
    | None => p
    end
  else p.

(** The page does not pass [maxReconnectAttempts], so the default
    applies. *)
Definition maxReconnectAttempts : Z := Transport.maxReconnectAttempts_of None.

(** The deferred [ws.connect()] of [handleStartConsult]. *)
Definition connect_deferred (p : PageState) : PageState :=
  set_ws (Transport.connect (ws p)) p.

(** [handleEndConsult], with the behaviour of the teardown calls and the
    result of the REST call ([None] if rejected).  Whatever throws inside
    the [try] block is caught and logged. *)
Definition handleEndConsult (env : Recorder.Environment)
    (response : option EndConsultResponse) (p : PageState) : PageState :=
  if truthy (sessionId p)
  then
    match Recorder.stopRecording env (recorder p) with
    | Recorder.Threw r => set_recorder r p
    | Recorder.Returned r =>
        let p := set_recorder r p in
        match response with
        | Some response =>
            let p := setSessionSummary (Some response) p in
            let p := set_ws (Transport.disconnect (ws p)) p in
            let p := setSessionId None p in
            setSessionState "IDLE" p
        | None => p
        end
    end
  else p.

(** ** Events *)

Inductive Event : Type :=
| Message (c : Closure) (now : Z) (message : WebSocketMessage)
| Tick
| StartConsult (response : option string)
| ConnectDeferred
| Socket (e : Transport.Event)
| EndConsult (env : Recorder.Environment) (response : option EndConsultResponse).

Definition step (p : PageState) (e : Event) : PageState :=
  match e with
  | Message c now message => handleWebSocketMessage c now message p
  | Tick => tick p
  | StartConsult response => handleStartConsult response p
  | ConnectDeferred => connect_deferred p
  | Socket e => set_ws (Transport.step maxReconnectAttempts (ws p) e) p
  | EndConsult env response => handleEndConsult env response p
  end.

Definition run (events : list Event) (p : PageState) : PageState :=
  fold_left step events p.

(** ** Vocabulary of the specification *)

(** The six session states the protocol names. *)
Definition recognized (s : string) : bool :=
  existsb (String.eqb s)
    ["IDLE"; "LISTENING"; "PAUSED"; "PROCESSING"; "INTERRUPTING"; "COMPLETED"].

(** The [new_state] of the last [state_change] with a recognized value,
    or [default] if there is none. *)
Definition last_recognized (default : string) (new_states : list string) : string :=
  fold_left (fun acc s => if recognized s then s else acc) new_states default.

(** A sequence of [state_change] events, from their
    [(old_state, new_state)] pairs. *)
Definition state_change_events (c : Closure) (now : Z) (changes : list (string * string))
  : list Event :=
  map (fun change => Message c now (StateChangeMessage (fst change) (snd change) "")) changes.

(** What the user sees of a finished session. *)
Definition observable (p : PageState) : string * option EndConsultResponse :=
  (sessionState p, sessionSummary p).

(** The summary that the [consult_ended] branch builds. *)
Definition fabricated_summary (c : Closure) (soap : SOAPNote) : EndConsultResponse :=
  mkEndConsultResponse
    (match closed_sessionId c with Some s => s | None => "" end)
    soap (mkBillingInfo "pending" 0 "pending")
    (inject_Z (closed_elapsedSeconds c / 60)).

(** A page with a session under way. *)
Definition in_session : PageState :=
  setSessionState "LISTENING" (setSessionId (Some "S1") initial).

Definition empty_note : SOAPNote := mkSOAPNote "" "" "" "" [] [].

End Page.


(* ===================================================================== *)
(** * The capture hook around the pipeline (useAudioRecorder, PCM variant) *)
(* ===================================================================== *)

Module Capture.
Import Js Recorder.

(** The calls [startRecording] makes, in order.  Each may throw (for
    [getUserMedia]: the promise may be rejected). *)
Inductive Setup : Type :=
| GetUserMedia
| NewAudioContext
| CreateMediaStreamSource
| CreateScriptProcessor
| ConnectSource
| ConnectProcessor.

(** The hook: the refs and recording flag of [Recorder], the [error]
    state, and the number of [startRecording] calls that are suspended
    at [await getUserMedia]. *)
Record Hook : Type := mkHook {
  recorder : Recorder;
  error : option string;
  pending : nat
}.

Definition initial : Hook :=
  mkHook (mkRecorder false false false false None []) None 0.

Definition setError (e : option string) (h : Hook) : Hook :=
  mkHook (recorder h) e (pending h).
Definition set_recorder (r : Recorder) (h : Hook) : Hook :=
  mkHook r (error h) (pending h).
Definition set_pending (n : nat) (h : Hook) : Hook :=
  mkHook (recorder h) (error h) n.

(** The [catch] block of [startRecording]. *)
Definition start_failed (h : Hook) : Hook :=
  setError (Some "Failed to access microphone"%string) h.

(** A call of [startRecording], up to its [await]: the error is reset
    and the permission request is under way.  No ref and no flag has
    been touched yet. *)
Definition startRecording (h : Hook) : Hook :=
  set_pending (S (pending h)) (setError None h).

(** The rest of [startRecording], run when the permission request of a
    suspended call settles: [env] says which setup calls throw (for
    [getUserMedia]: whether the promise is rejected), [tracks] is the
    number of tracks of the stream the browser grants.  Without a
    suspended call nothing happens. *)
Definition getUserMedia_settled (env : Setup -> CallResult) (tracks : nat) (h : Hook)
  : Hook :=
  match pending h with
  | O => h
  | S n =>
      let h := set_pending n h in
      match env GetUserMedia with
      | Throws => start_failed h
      | Completes =>
          let h := set_recorder (set_streamRef (Some tracks) (recorder h)) h in
          match env NewAudioContext with
          | Throws => start_failed h
          | Completes =>
              let h := set_recorder (set_audioCtxRef true (recorder h)) h in
              match env CreateMediaStreamSource with
              | Throws => start_failed h
              | Completes =>
                  let h := set_recorder (set_sourceRef true (recorder h)) h in
                  match env CreateScriptProcessor with
                  | Throws => start_failed h
                  | Completes =>
                      let h := set_recorder (set_processorRef true (recorder h)) h in
                      match env ConnectSource with
                      | Throws => start_failed h
                      | Completes =>
                          match env ConnectProcessor with
                          | Throws => start_failed h
                          | Completes =>
                              set_recorder (setIsRecording true (recorder h)) h
                          end
                      end
                  end
              end
          end
      end
  end.

(** [stopRecording] of the hook: an exception leaves the hook with what
    was done before it. *)
Definition stopRecording (env : Environment) (h : Hook) : Hook :=
  set_recorder (state_of (Recorder.stopRecording env (recorder h))) h.

(** [toggleRecording]: [isRecording] is the state as the render that
    created the callback saw it. *)
Definition toggleRecording (isRecording : bool) (env : Environment) (h : Hook) : Hook :=
  if isRecording then stopRecording env h else startRecording h.

(** What happens to the hook: a call of one of its functions, or a
    permission request settling.  The component is rendered again after
    every event, so a callback sees the state the event before it
    left. *)
Inductive Event : Type :=
| StartRecording
| StopRecording
| ToggleRecording
| Settled.

Section Run.

Variable setup : Setup -> CallResult.
Variable tracks : nat.
Variable env : Environment.

Definition step (h : Hook) (e : Event) : Hook :=
  match e with
  | StartRecording => startRecording h
  | StopRecording => stopRecording env h
  | ToggleRecording => toggleRecording (isRecording (recorder h)) env h
  | Settled => getUserMedia_settled setup tracks h
  end.

Definition run (events : list Event) (h : Hook) : Hook :=
  fold_left step events h.

End Run.

(** The [onaudioprocess] handler: what is passed to [onAudioChunk], if
    anything, or the exception the handler throws.  [onAudioChunk] is
    optional; [contextRate] is the sample rate the browser picked for
    the audio context. *)
Definition onaudioprocess (onAudioChunk : bool) (inputData : Float32Array)
    (contextRate sampleRate : Q) : Completion (option Int16Array) :=
  if onAudioChunk
  then
    match downsampleFloat32 inputData contextRate sampleRate with
    | Normal downsampled => Normal (Some (float32ToInt16 downsampled))
    | RangeError => RangeError
    end
  else Normal None.

(** A sample is finite. *)
Definition finite (x : number) : Prop :=
  match x with Fin _ => True | _ => False end.

(** A sample is finite and lies between [lo] and [hi]. *)
Definition within (lo hi : Q) (x : number) : Prop :=
  match x with
  | Fin q => (lo <= q)%Q /\ (q <= hi)%Q
  | _ => False
  end.

(** Order on samples that are not NaN. *)
Definition le (x y : number) : Prop :=
  match x, y with
  | NaN, _ | _, NaN => False
  | Inf true, _ => True
  | _, Inf false => True
  | Inf false, _ => False
  | _, Inf true => False
  | Fin a, Fin b => (a <= b)%Q
  end.

Definition no_setup_throws : Setup -> CallResult := fun _ => Completes.

End Capture.

(* ===================================================================== *)
(** * The channel as a whole: invariants and compound steps *)
(* ===================================================================== *)

Module Channel.
Import Js Transport.

(** A socket that is connecting or open is the one the hook holds. *)
Definition single_live (h : Hook) : Prop :=
  forall id ws,
    sockets h !! id = Some ws ->
    readyState ws = CONNECTING \/ readyState ws = OPEN ->
    wsRef h = Some id.

(** Socket ids at or above the allocation counter are unused. *)
Definition allocated (h : Hook) : Prop :=
  forall id, (nextSocket h <= id)%nat -> sockets h !! id = None.

(** The open event of the socket the hook currently holds. *)
Definition current_opened (h : Hook) : Hook :=
  match wsRef h with
  | Some id => opened id h
  | None => h
  end.

(** The call that puts a given frame on the wire: [sendMessage] for a
    text frame, [sendAudio] for a binary one. *)
Definition send_event (frame : Frame) : Event :=
  match frame with
  | Text message => SendMessage message
  | Binary audioData => SendAudio audioData
  end.

End Channel.

(* ===================================================================== *)
(** * The accumulator over longer runs *)
(* ===================================================================== *)

Module Accumulator.
Import Js Player.

(** The state after a sequence of arrivals, before time is left to run
    out. *)
Definition after (arrivals : list (Z * ArrayBuffer)) (p : Player) : Player :=
  fold_left arrive arrivals p.

(** Consecutive times are at least [gap] apart. *)
Fixpoint spaced (gap : Z) (times : list Z) : Prop :=
  match times with
  | [] => True
  | t :: rest =>
      match rest with
      | [] => True
      | t' :: _ => t + gap <= t' /\ spaced gap rest
      end
  end.

(** All the bytes of a sequence of timed buffers, in order. *)
Definition bytes (buffers : list (Z * ArrayBuffer)) : ArrayBuffer :=
  concat (map snd buffers).

End Accumulator.

(* ===================================================================== *)
(** * Audio playback queue (useAudioPlayer, queueing variant) *)
(* ===================================================================== *)

Module QueuePlayer.
Import Js.

(** The refs and state of the hook.  [playAudioChunk] is an async
    function whose loop suspends while a chunk is decoded and played;
    [loops] counts the loops suspended at that point, and [started] logs
    the chunks handed to [decodeAudioData], in order. *)
Record Player : Type := mkPlayer {
  isPlaying : bool;
  audioQueueRef : list ArrayBuffer;
  isPlayingRef : bool;
  loops : nat;
  started : list ArrayBuffer
}.

Definition initial : Player := mkPlayer false [] false 0 [].

(** The loop of [playAudioChunk] from its test up to the next
    suspension, or to the two statements after the loop if the queue is
    empty. *)
Definition loop (p : Player) : Player :=
  match audioQueueRef p with
  | chunk :: rest =>
      mkPlayer (isPlaying p) rest (isPlayingRef p) (S (loops p)) (started p ++ [chunk])
  | [] =>
      mkPlayer false [] false (loops p) (started p)
  end.

Definition playAudioChunk (audioData : ArrayBuffer) (p : Player) : Player :=
  let p := mkPlayer (isPlaying p) (audioQueueRef p ++ [audioData]) (isPlayingRef p)
                    (loops p) (started p) in
  if isPlayingRef p then p
  else loop (mkPlayer true (audioQueueRef p) true (loops p) (started p)).

(** A suspended loop resumes: the chunk has finished playing, or
    decoding failed and the error was caught and logged. *)
Definition settled (p : Player) : Player :=
  match loops p with
  | O => p
  | S n => loop (mkPlayer (isPlaying p) (audioQueueRef p) (isPlayingRef p) n (started p))
  end.

Definition stopPlayback (p : Player) : Player :=
  mkPlayer false [] false (loops p) (started p).

Inductive Event : Type :=
| Chunk (audioData : ArrayBuffer)
| Settled.

Definition step (p : Player) (e : Event) : Player :=
  match e with
  | Chunk audioData => playAudioChunk audioData p
  | Settled => settled p
  end.

Definition run (events : list Event) (p : Player) : Player :=
  fold_left step events p.

(** The chunks of a sequence of events, in order. *)
Fixpoint chunks (events : list Event) : list ArrayBuffer :=
  match events with
  | [] => []
  | Chunk audioData :: rest => audioData :: chunks rest
  | Settled :: rest => chunks rest
  end.

End QueuePlayer.

(* ===================================================================== *)
(** * The page over longer runs *)
(* ===================================================================== *)

Module Dispatcher.
Import Js Page.

Definition is_start (e : Event) : bool :=
  match e with StartConsult _ => true | _ => false end.

Definition is_interruption_end (e : Event) : bool :=
  match e with Message _ _ (InterruptionEndMessage _) => true | _ => false end.

(** The number of interval callbacks in a sequence of events. *)
Fixpoint ticks (events : list Event) : Z :=
  match events with
  | [] => 0
  | Tick :: rest => 1 + ticks rest
  | _ :: rest => ticks rest
  end.

(** The number of messages in a sequence of events. *)
Fixpoint messages (events : list Event) : nat :=
  match events with
  | [] => O
  | Message _ _ _ :: rest => S (messages rest)
  | _ :: rest => messages rest
  end.



End Dispatcher.

(* ===================================================================== *)
(** * The first channel hook: no cleanup on reconnect *)
(* ===================================================================== *)

Module ChannelV1.
Import Js.
Import Transport(ReadyState, CONNECTING, OPEN, CLOSING, CLOSED, WebSocket, mkWebSocket,
                 readyState, onclose, sent, createWebSocket).
Import TransportV1.

(** The hook as [useState] and [useRef] initialise it. *)
Definition initial : Hook := mkHook false None ∅ 0.

(** [n] calls of [connect] in a row. *)
Definition connects (n : nat) (h : Hook) : Hook := Nat.iter n connect h.

(** Socket ids at or above the allocation counter are unused. *)
Definition allocated (h : Hook) : Prop :=
  forall id, (nextSocket h <= id)%nat -> sockets h !! id = None.

End ChannelV1.

(* ===================================================================== *)
(** * The interruption overlay component (InterruptionOverlay) *)
(* ===================================================================== *)

Module Overlay.

(** The component between renders: the [isActive] prop of the last
    render, the [visible] state, the pending hide timeout (its due time)
    and the wall clock in milliseconds.  A render and the effect it
    triggers are taken as one step. *)
Record Overlay : Type := mkOverlay {
  isActive : bool;
  visible : bool;
  timer : option Z;
  clock : Z
}.

Definition set_isActive (b : bool) (o : Overlay) : Overlay :=
  mkOverlay b (visible o) (timer o) (clock o).
Definition setVisible (b : bool) (o : Overlay) : Overlay :=
  mkOverlay (isActive o) b (timer o) (clock o).
Definition set_timer (t : option Z) (o : Overlay) : Overlay :=
  mkOverlay (isActive o) (visible o) t (clock o).
Definition set_clock (t : Z) (o : Overlay) : Overlay :=
  mkOverlay (isActive o) (visible o) (timer o) t.

Definition HIDE_DELAY : Z := 300.

(** The body of the effect, for the current [isActive]. *)
Definition effect (o : Overlay) : Overlay :=
  if isActive o
  then setVisible true o
  else
    (* Delay hiding for animation *)
    set_timer (Some (clock o + HIDE_DELAY)) o.

(** The cleanup returned by the last run of the effect: the inactive
    branch returns [clearTimeout(timer)], the active branch returns
    nothing. *)
Definition cleanup (o : Overlay) : Overlay :=
  if isActive o then o else set_timer None o.

(** The first render, followed by the effect. *)
Definition mount (active : bool) (now : Z) : Overlay :=
  effect (mkOverlay active false None now).

(** A later render with prop [active]: the effect depends on [isActive]
    only, so it runs again (after the cleanup of its last run) exactly
    when the prop has changed. *)
Definition render (active : bool) (o : Overlay) : Overlay :=
  if Bool.eqb active (isActive o) then o
  else effect (set_isActive active (cleanup o)).

(** Time passes until [t]: the hide timeout fires if it is due. *)
Definition advance (t : Z) (o : Overlay) : Overlay :=
  let o := set_clock (Z.max (clock o) t) o in
  match timer o with
  | Some due => if due <=? clock o then setVisible false (set_timer None o) else o
  | None => o
  end.

Inductive Event : Type :=
  | Render (active : bool)
  | Advance (t : Z).

Definition step (o : Overlay) (e : Event) : Overlay :=
  match e with
  | Render active => render active o
  | Advance t => advance t o
  end.

Definition run (events : list Event) (o : Overlay) : Overlay :=
  fold_left step events o.

(** [if (!visible) return null]: the overlay is in the document. *)
Definition shown (o : Overlay) : bool := visible o.

(** The invariant of the component: while active it is visible and
    nothing is pending; a pending hide is due in the future, at most one
    delay away; an inactive overlay that is still visible has its hide
    pending. *)
Definition settled (o : Overlay) : Prop :=
  (isActive o = true -> visible o = true /\ timer o = None) /\
  (forall due, timer o = Some due ->
     isActive o = false /\ clock o < due <= clock o + HIDE_DELAY) /\
  (isActive o = false -> visible o = true -> timer o <> None).

End Overlay.

(* ===================================================================== *)
(** * The REST client's socket URL (api.ts, createWebSocket) *)
(* ===================================================================== *)

Module Api.
Local Open Scope string_scope.

(** [process.env.NEXT_PUBLIC_API_URL || 'http://localhost:8000'] *)
Definition API_BASE (env : option string) : string :=
  match env with
  | Some "" | None => "http://localhost:8000"
  | Some url => url
  end.

(** [s] without its leading [pattern], if it starts with it. *)
Fixpoint strip (pattern s : string) : option string :=
  match pattern with
  | EmptyString => Some s
  | String a pattern' =>
      match s with
      | EmptyString => None
      | String b s' => if Ascii.eqb a b then strip pattern' s' else None
      end
  end.

(** [String.prototype.includes] *)
Fixpoint includes (pattern s : string) : bool :=
  match strip pattern s with
  | Some _ => true
  | None =>
      match s with
      | EmptyString => false
      | String _ s' => includes pattern s'
      end
  end.

(** [String.prototype.replace] with a string pattern and a replacement
    that holds no [$]: the first occurrence, if any, is replaced. *)
Fixpoint replace (pattern replacement s : string) : string :=
  match strip pattern s with
  | Some rest => replacement ++ rest
  | None =>
      match s with
      | EmptyString => EmptyString
      | String c s' => String c (replace pattern replacement s')
      end
  end.

(** The URL [createWebSocket] opens. *)
Definition createWebSocket_url (baseUrl sessionId : string) : string :=
  let wsUrl := replace "http" "ws" baseUrl in
  wsUrl ++ "/ws/consult/" ++ sessionId.

End Api.

(* ===================================================================== *)
(** * The MediaRecorder variant of the capture hook (useAudioRecorder.ts) *)
(* ===================================================================== *)

Module MediaCapture.
Import Js.
Import Recorder(CallResult, Completes, Throws).

(** [MediaRecorder.state] *)
Inductive RecordingState : Type := inactive | recording | paused.

(** The calls of [startRecording] that can throw or reject. *)
Inductive Setup : Type :=
  | GetUserMedia
  | NewMediaRecorder
  | Start.

(** Streams and recorders are objects with identity: a stream is mapped
    to whether its tracks are live, a recorder to its state.  [pending]
    counts the [startRecording] calls suspended at [await
    getUserMedia]. *)
Record Hook : Type := mkHook {
  isRecording : bool;
  error : option string;
  mediaRecorderRef : option nat;
  streamRef : option nat;
  streams : gmap nat bool;
  recorders : gmap nat RecordingState;
  nextStream : nat;
  nextRecorder : nat;
  pending : nat
}.

Definition initial : Hook := mkHook false None None None ∅ ∅ 0 0 0.

Definition setIsRecording (b : bool) (h : Hook) : Hook :=
  mkHook b (error h) (mediaRecorderRef h) (streamRef h) (streams h) (recorders h)
    (nextStream h) (nextRecorder h) (pending h).
Definition setError (e : option string) (h : Hook) : Hook :=
  mkHook (isRecording h) e (mediaRecorderRef h) (streamRef h) (streams h) (recorders h)
    (nextStream h) (nextRecorder h) (pending h).
Definition set_mediaRecorderRef (r : option nat) (h : Hook) : Hook :=
  mkHook (isRecording h) (error h) r (streamRef h) (streams h) (recorders h)
    (nextStream h) (nextRecorder h) (pending h).
Definition set_streamRef (s : option nat) (h : Hook) : Hook :=
  mkHook (isRecording h) (error h) (mediaRecorderRef h) s (streams h) (recorders h)
    (nextStream h) (nextRecorder h) (pending h).
Definition set_streams (m : gmap nat bool) (h : Hook) : Hook :=
  mkHook (isRecording h) (error h) (mediaRecorderRef h) (streamRef h) m (recorders h)
    (nextStream h) (nextRecorder h) (pending h).
Definition set_recorders (m : gmap nat RecordingState) (h : Hook) : Hook :=
  mkHook (isRecording h) (error h) (mediaRecorderRef h) (streamRef h) (streams h) m
    (nextStream h) (nextRecorder h) (pending h).
Definition set_nextStream (n : nat) (h : Hook) : Hook :=
  mkHook (isRecording h) (error h) (mediaRecorderRef h) (streamRef h) (streams h)
    (recorders h) n (nextRecorder h) (pending h).
Definition set_nextRecorder (n : nat) (h : Hook) : Hook :=
  mkHook (isRecording h) (error h) (mediaRecorderRef h) (streamRef h) (streams h)
    (recorders h) (nextStream h) n (pending h).
Definition set_pending (n : nat) (h : Hook) : Hook :=
  mkHook (isRecording h) (error h) (mediaRecorderRef h) (streamRef h) (streams h)
    (recorders h) (nextStream h) (nextRecorder h) n.

(** The [catch] block of [startRecording]. *)
Definition start_failed (h : Hook) : Hook :=
  setError (Some "Failed to access microphone"%string) h.

(** A call of [startRecording], up to its [await]: the error is reset
    and the permission request is under way.  No ref and no flag has
    been touched yet. *)
Definition startRecording (h : Hook) : Hook :=
  set_pending (S (pending h)) (setError None h).

(** The rest of [startRecording], run when the permission request of a
    suspended call settles.  Without a suspended call nothing
    happens. *)
Definition getUserMedia_settled (env : Setup -> CallResult) (h : Hook) : Hook :=
  match pending h with
  | O => h
  | S n =>
      let h := set_pending n h in
      match env GetUserMedia with
      | Throws => start_failed h
      | Completes =>
          let stream := nextStream h in
          let h := set_nextStream (S stream) (set_streams (<[stream := true]> (streams h)) h) in
          let h := set_streamRef (Some stream) h in
          match env NewMediaRecorder with
          | Throws => start_failed h
          | Completes =>
              let mediaRecorder := nextRecorder h in
              let h := set_nextRecorder (S mediaRecorder)
                         (set_recorders (<[mediaRecorder := inactive]> (recorders h)) h) in
              let h := set_mediaRecorderRef (Some mediaRecorder) h in
              match env Start with
              | Throws => start_failed h
              | Completes =>
                  let h := set_recorders (<[mediaRecorder := recording]> (recorders h)) h in
                  setIsRecording true h
              end
          end
      end
  end.

Definition stopRecording (h : Hook) : Hook :=
  let h :=
    match mediaRecorderRef h with
    | Some id =>
        match recorders h !! id with
        | Some inactive | None => h
        | Some _ => set_recorders (<[id := inactive]> (recorders h)) h
        end
    | None => h
    end in
  let h :=
    match streamRef h with
    | Some id => set_streamRef None (set_streams (alter (fun _ => false) id (streams h)) h)
    | None => h
    end in
  setIsRecording false h.

(** [toggleRecording]: [isRecording] is the state as the render that
    created the callback saw it. *)
Definition toggleRecording (isRecording : bool) (h : Hook) : Hook :=
  if isRecording then stopRecording h else startRecording h.

(** [ondataavailable]: what is passed to [onAudioChunk] (given or not)
    for a blob of the given bytes. *)
Definition ondataavailable (onAudioChunk : bool) (data : ArrayBuffer) : option ArrayBuffer :=
  if (0 <? Z.of_nat (length data)) && onAudioChunk then Some data else None.

(** What happens to the hook: a call of one of its functions, or a
    permission request settling.  The component is rendered again after
    every event, so a callback sees the state the event before it
    left. *)
Inductive Event : Type :=
  | StartRecording
  | StopRecording
  | ToggleRecording
  | Settled.

Definition step (env : Setup -> CallResult) (h : Hook) (e : Event) : Hook :=
  match e with
  | StartRecording => startRecording h
  | StopRecording => stopRecording h
  | ToggleRecording => toggleRecording (isRecording h) h
  | Settled => getUserMedia_settled env h
  end.

Definition run (env : Setup -> CallResult) (events : list Event) (h : Hook) : Hook :=
  fold_left (step env) events h.

(** A run in which every permission request settles before the next
    call of the hook. *)
Definition run_serial (env : Setup -> CallResult) (events : list Event) (h : Hook)
  : Hook :=
  fold_left (fun h e => getUserMedia_settled env (step env h e)) events h.

(** The calls the page makes: it never calls [startRecording] itself. *)
Definition is_start (e : Event) : bool :=
  match e with StartRecording => true | _ => false end.

(** Stream ids at or above the allocation counter are unused. *)
Definition allocated (h : Hook) : Prop :=
  forall id, (nextStream h <= id)%nat -> streams h !! id = None.

(** Every live stream is the one the hook holds, the flag tells whether
    a stream is held, and no call is suspended. *)
Definition no_leak (h : Hook) : Prop :=
  (forall id, streams h !! id = Some true -> streamRef h = Some id) /\
  (isRecording h = true <-> streamRef h <> None) /\
  pending h = 0%nat.

(** A stream with live tracks that no ref points to. *)
Definition leaked (id : nat) (h : Hook) : Prop :=
  streams h !! id = Some true /\ streamRef h <> Some id.

Definition no_throw : Setup -> CallResult := fun _ => Completes.

End MediaCapture.

(* ===================================================================== *)
(** * Properties of the rounding *)
(* ===================================================================== *)

Module RoundingFacts.
Import Js.

(** Push [inject_Z] through sums and products in a hypothesis. *)
Ltac inject_in H :=
  repeat first [ rewrite inject_Z_plus in H
               | rewrite inject_Z_mult in H
               | rewrite inject_Z_opp in H ].

(** ** Powers of two *)

Lemma pow2_pos (e : Z) : (0 < 2 ^ e)%Q.
Proof. apply Qpower_0_lt. reflexivity. Qed.

Lemma pow2_add (a b : Z) : (2 ^ (a + b) == 2 ^ a * 2 ^ b)%Q.
Proof. apply Qpower_plus. discriminate. Qed.

Lemma pow2_le (a b : Z) : a <= b -> (2 ^ a <= 2 ^ b)%Q.
Proof. intros H. apply Qpower_le_compat_l; [exact H | discriminate]. Qed.

Lemma pow2_lt (a b : Z) : a < b -> (2 ^ a < 2 ^ b)%Q.
Proof. intros H. apply Qpower_lt_compat_l; [exact H | reflexivity]. Qed.

Lemma pow2_lt_inv (a b : Z) : (2 ^ a < 2 ^ b)%Q -> a < b.
Proof. intros H. apply (Qpower_lt_compat_l_inv 2); [exact H | reflexivity]. Qed.

Lemma pow2_inject (n : Z) : 0 <= n -> (2 ^ n == inject_Z (2 ^ n))%Q.
Proof. intros H. now rewrite Zpower_Qpower. Qed.

Lemma pow2_div (a b : Z) : (2 ^ a / 2 ^ b == 2 ^ (a - b))%Q.
Proof.
  unfold Z.sub. rewrite pow2_add, Qpower_opp. reflexivity.
Qed.

(** ** The binary logarithm *)

Lemma Qdiv_lt_le (n d X Y : Q) :
  (0 < d)%Q -> (0 < Y)%Q -> (0 < X)%Q -> (0 <= n)%Q -> (n <= X)%Q -> (Y < d)%Q \/ ((Y <= d)%Q /\ (n < X)%Q) ->
  (n / d < X / Y)%Q.
Proof.
  intros Hd HY HX Hn HnX Hstrict.
  apply Qlt_shift_div_l; [exact HY |].
  assert (E : (n / d * Y == n * Y / d)%Q) by (field; lra). rewrite E.
  apply Qlt_shift_div_r; [exact Hd |].
  destruct Hstrict as [H | [H1 H2]]; nra.
Qed.

Lemma floor_log2_spec (q : Q) :
  (0 < q)%Q -> (2 ^ floor_log2 q <= q)%Q /\ (q < 2 ^ (floor_log2 q + 1))%Q.
Proof.
  intros Hq. unfold floor_log2.
  set (n := Qnum q). set (d := Z.pos (Qden q)).
  assert (Hn : 0 < n) by (unfold n; destruct q as [[ | p | p] ?]; cbn in *; easy).
  assert (Hd : 0 < d) by (unfold d; lia).
  destruct (Z.log2_spec n Hn) as [Hn1 Hn2].
  destruct (Z.log2_spec d Hd) as [Hd1 Hd2].
  assert (Eq : (q == inject_Z n / inject_Z d)%Q).
  { unfold n, d. destruct q as [a b]. cbn [Qnum Qden].
    rewrite (Qmake_Qdiv a b). reflexivity. }
  assert (Hdq : (0 < inject_Z d)%Q) by (change 0%Q with (inject_Z 0); now rewrite <- Zlt_Qlt).
  assert (Pn1 : (2 ^ Z.log2 n <= inject_Z n)%Q).
  { rewrite pow2_inject by apply Z.log2_nonneg. now rewrite <- Zle_Qle. }
  assert (Pn2 : (inject_Z n < 2 ^ (Z.log2 n + 1))%Q).
  { rewrite pow2_inject by (pose proof (Z.log2_nonneg n); lia).
    rewrite <- Zlt_Qlt. now rewrite <- Z.add_1_r in Hn2. }
  assert (Pd1 : (2 ^ Z.log2 d <= inject_Z d)%Q).
  { rewrite pow2_inject by apply Z.log2_nonneg. now rewrite <- Zle_Qle. }
  assert (Pd2 : (inject_Z d < 2 ^ (Z.log2 d + 1))%Q).
  { rewrite pow2_inject by (pose proof (Z.log2_nonneg d); lia).
    rewrite <- Zlt_Qlt. now rewrite <- Z.add_1_r in Hd2. }
  set (a := Z.log2 n) in *. set (b := Z.log2 d) in *.
  assert (Hnq : (0 < inject_Z n)%Q) by (change 0%Q with (inject_Z 0); now rewrite <- Zlt_Qlt).
  assert (Hup : (q < 2 ^ (a - b + 1))%Q).
  { replace (a - b + 1) with ((a + 1) - b) by lia. rewrite <- pow2_div, Eq.
    pose proof (pow2_pos b). pose proof (pow2_pos (a + 1)).
    apply Qdiv_lt_le; try assumption; try lra; try (right; split; lra). }
  assert (Hlow : (2 ^ (a - b - 1) <= q)%Q).
  { replace (a - b - 1) with (a - (b + 1)) by lia. rewrite <- pow2_div, Eq.
    pose proof (pow2_pos a). pose proof (pow2_pos (b + 1)).
    apply Qlt_le_weak. apply Qdiv_lt_le; try assumption; try lra; try (left; lra). }
  destruct (Qle_bool (2 ^ (a - b)) q) eqn:Htest.
  - apply Qle_bool_iff in Htest. split; [exact Htest | exact Hup].
  - split; [exact Hlow |].
    replace (a - b - 1 + 1) with (a - b) by lia.
    apply Qnot_le_lt. intros H. apply Qle_bool_iff in H. congruence.
Qed.

Lemma floor_log2_unique (q : Q) (e : Z) :
  (2 ^ e <= q)%Q -> (q < 2 ^ (e + 1))%Q -> floor_log2 q = e.
Proof.
  intros Hlo Hhi.
  assert (Hq : (0 < q)%Q) by (pose proof (pow2_pos e); lra).
  destruct (floor_log2_spec q Hq) as [Slo Shi].
  assert (H1 : floor_log2 q < e + 1) by (apply pow2_lt_inv; lra).
  assert (H2 : e < floor_log2 q + 1) by (apply pow2_lt_inv; lra).
  lia.
Qed.

Lemma floor_log2_comp (q q' : Q) : (0 < q)%Q -> (q == q')%Q -> floor_log2 q = floor_log2 q'.
Proof.
  intros Hq E. symmetry. destruct (floor_log2_spec q Hq) as [Slo Shi].
  apply floor_log2_unique; lra.
Qed.

Lemma floor_log2_lt (q : Q) (k : Z) : (0 < q)%Q -> (q < 2 ^ k)%Q -> floor_log2 q < k.
Proof.
  intros Hq H. destruct (floor_log2_spec q Hq) as [Slo _].
  apply pow2_lt_inv. lra.
Qed.

(** ** Rounding to an integer *)

Lemma Qfloor_unique (q : Q) (z : Z) :
  (inject_Z z <= q)%Q -> (q < inject_Z (z + 1))%Q -> Qfloor q = z.
Proof.
  intros Hlo Hhi.
  pose proof (Qfloor_le q) as H1. pose proof (Qlt_floor q) as H2.
  assert (A : (inject_Z z < inject_Z (Qfloor q + 1))%Q) by lra.
  assert (B : (inject_Z (Qfloor q) < inject_Z (z + 1))%Q) by lra.
  rewrite <- Zlt_Qlt in A, B. lia.
Qed.

Lemma round_half_even_comp (q q' : Q) :
  (q == q')%Q -> round_half_even q = round_half_even q'.
Proof.
  intros E. unfold round_half_even.
  rewrite (Qfloor_comp _ _ E).
  assert (E' : (q - inject_Z (Qfloor q') == q' - inject_Z (Qfloor q'))%Q) by lra.
  now rewrite (Qcompare_comp _ _ E' _ _ (Qeq_refl (1 # 2))).
Qed.

Lemma round_half_even_Z (z : Z) : round_half_even (inject_Z z) = z.
Proof.
  unfold round_half_even. rewrite Qfloor_Z.
  assert (E : (inject_Z z - inject_Z z ?= 1 # 2)%Q = Lt).
  { rewrite <- Qlt_alt. lra. }
  now rewrite E.
Qed.

Lemma round_half_even_between (A B : Z) (q : Q) :
  (inject_Z A <= q)%Q -> (q <= inject_Z B)%Q ->
  A <= round_half_even q <= B.
Proof.
  intros Hlo Hhi. unfold round_half_even.
  pose proof (Qfloor_le q) as F1. pose proof (Qlt_floor q) as F2.
  assert (HA : A <= Qfloor q).
  { rewrite <- (Qfloor_Z A). now apply Qfloor_resp_le. }
  assert (HB : Qfloor q <= B).
  { rewrite <- (Qfloor_Z B). now apply Qfloor_resp_le. }
  rewrite inject_Z_plus in F2. change (inject_Z 1) with 1%Q in F2.
  assert (Hup : (inject_Z (Qfloor q) < q)%Q -> Qfloor q + 1 <= B).
  { intros Hfrac. assert (H : (inject_Z (Qfloor q) < inject_Z B)%Q) by lra.
    rewrite <- Zlt_Qlt in H. lia. }
  destruct (q - inject_Z (Qfloor q) ?= 1 # 2)%Q eqn:Hc.
  - rewrite <- Qeq_alt in Hc. destruct (Z.even (Qfloor q)); [lia |].
    assert (Qfloor q + 1 <= B) by (apply Hup; lra). lia.
  - lia.
  - rewrite <- Qgt_alt in Hc. assert (Qfloor q + 1 <= B) by (apply Hup; lra). lia.
Qed.

Lemma round_half_even_error (q : Q) :
  (q - (1 # 2) <= inject_Z (round_half_even q))%Q /\
  (inject_Z (round_half_even q) <= q + (1 # 2))%Q.
Proof.
  unfold round_half_even.
  pose proof (Qfloor_le q) as F1. pose proof (Qlt_floor q) as F2.
  rewrite inject_Z_plus in F2. change (inject_Z 1) with 1%Q in F2.
  destruct (q - inject_Z (Qfloor q) ?= 1 # 2)%Q eqn:Hc.
  - rewrite <- Qeq_alt in Hc. destruct (Z.even (Qfloor q));
      rewrite ?inject_Z_plus; change (inject_Z 1) with 1%Q; lra.
  - rewrite <- Qlt_alt in Hc. lra.
  - rewrite <- Qgt_alt in Hc. rewrite inject_Z_plus. change (inject_Z 1) with 1%Q. lra.
Qed.

(** ** Rounding into a binary format *)

Lemma Qred_inject_Z (z : Z) : Qred (inject_Z z) = inject_Z z.
Proof.
  unfold Qred, inject_Z.
  pose proof (Z.ggcd_gcd z 1) as Hg. pose proof (Z.ggcd_correct_divisors z 1) as Hd.
  destruct (Z.ggcd z 1) as (g & a & b). cbn [fst snd] in *.
  rewrite Z.gcd_1_r in Hg. subst g. destruct Hd as [Ha Hb].
  rewrite Z.mul_1_l in Ha, Hb. subst a b. reflexivity.
Qed.

Lemma Qred_Qred (q : Q) : Qred (Qred q) = Qred q.
Proof. apply Qred_complete, Qred_correct. Qed.

Lemma round_to_zero (prec emin emax : Z) (q : Q) :
  (q == 0)%Q -> round_to prec emin emax q = Fin 0.
Proof. intros E. unfold round_to. rewrite Qeq_alt in E. now rewrite E. Qed.

(** The value before the overflow test, for a value that is not zero. *)
Lemma round_to_nonzero (prec emin emax : Z) (q : Q) :
  ~ (q == 0)%Q ->
  let e := Z.max emin (floor_log2 (Qabs q) - (prec - 1)) in
  let r := (inject_Z (round_half_even (q / 2 ^ e)) * 2 ^ e)%Q in
  round_to prec emin emax q =
    if Qle_bool (2 ^ emax) (Qabs r)
    then Inf match (q ?= 0)%Q with Lt => true | _ => false end
    else Fin (Qred r).
Proof.
  intros Hq. cbv zeta. unfold round_to.
  destruct (q ?= 0)%Q eqn:Hs; [| reflexivity | reflexivity].
  rewrite <- Qeq_alt in Hs. contradiction.
Qed.

Lemma Qabs_pos_nonzero (q : Q) : ~ (q == 0)%Q -> (0 < Qabs q)%Q.
Proof.
  intros Hq. apply Qabs_case; intros H.
  - destruct (Qlt_le_dec 0 q) as [Hpos | Hneg]; [exact Hpos |].
    exfalso. apply Hq. now apply Qle_antisym.
  - destruct (Qlt_le_dec q 0) as [Hneg | Hpos]; [lra |].
    exfalso. apply Hq. now apply Qle_antisym.
Qed.

(** Rounding respects the equality of rationals. *)
Lemma round_to_comp (prec emin emax : Z) (q q' : Q) :
  (q == q')%Q -> round_to prec emin emax q = round_to prec emin emax q'.
Proof.
  intros E. destruct (Qeq_dec q 0) as [Hz | Hz].
  - rewrite !round_to_zero; [reflexivity | lra | exact Hz].
  - assert (Hz' : ~ (q' == 0)%Q) by (intros H; apply Hz; lra).
    rewrite (round_to_nonzero _ _ _ q Hz), (round_to_nonzero _ _ _ q' Hz').
    cbv zeta.
    assert (Ea : (Qabs q == Qabs q')%Q) by now rewrite E.
    rewrite (floor_log2_comp _ _ (Qabs_pos_nonzero q Hz) Ea).
    set (e := Z.max emin (floor_log2 (Qabs q') - (prec - 1))).
    assert (Em : round_half_even (q / 2 ^ e) = round_half_even (q' / 2 ^ e)).
    { apply round_half_even_comp. now rewrite E. }
    rewrite Em. now rewrite (Qcompare_comp _ _ E _ _ (Qeq_refl 0)).
Qed.

(** Rounding never crosses a point of a grid that is at least as coarse
    as the format around the value. *)
Lemma round_to_grid (prec emin emax : Z) (q : Q) (g A B : Z) :
  emin <= g -> (Qabs q < 2 ^ (g + prec))%Q ->
  (inject_Z A * 2 ^ g <= q)%Q -> (q <= inject_Z B * 2 ^ g)%Q ->
  (- 2 ^ emax < inject_Z A * 2 ^ g)%Q -> (inject_Z B * 2 ^ g < 2 ^ emax)%Q ->
  exists r, round_to prec emin emax q = Fin (Qred r) /\
            (inject_Z A * 2 ^ g <= r)%Q /\ (r <= inject_Z B * 2 ^ g)%Q.
Proof.
  intros Hg Hmag Hlo Hhi Hmin Hmax.
  destruct (Qeq_dec q 0) as [Hz | Hz].
  { exists 0%Q. rewrite (round_to_zero _ _ _ _ Hz). split; [reflexivity | lra]. }
  rewrite (round_to_nonzero _ _ _ q Hz). cbv zeta.
  set (e := Z.max emin (floor_log2 (Qabs q) - (prec - 1))).
  assert (He : e <= g).
  { pose proof (floor_log2_lt _ _ (Qabs_pos_nonzero q Hz) Hmag). unfold e. lia. }
  pose proof (pow2_pos e) as Pe. pose proof (pow2_pos g) as Pg.
  assert (Egrid : (2 ^ g == inject_Z (2 ^ (g - e)) * 2 ^ e)%Q).
  { rewrite <- pow2_inject by lia. rewrite <- pow2_add. now replace (g - e + e) with g by lia. }
  set (m := round_half_even (q / 2 ^ e)).
  assert (Hm : A * 2 ^ (g - e) <= m <= B * 2 ^ (g - e)).
  { apply round_half_even_between; rewrite inject_Z_mult.
    - apply Qle_shift_div_l; [exact Pe |]. rewrite <- Qmult_assoc, <- Egrid. exact Hlo.
    - apply Qle_shift_div_r; [exact Pe |]. rewrite <- Qmult_assoc, <- Egrid. exact Hhi. }
  assert (Hr : (inject_Z A * 2 ^ g <= inject_Z m * 2 ^ e)%Q /\
               (inject_Z m * 2 ^ e <= inject_Z B * 2 ^ g)%Q).
  { destruct Hm as [Hm1 Hm2]. rewrite Zle_Qle, inject_Z_mult in Hm1, Hm2.
    rewrite Egrid. rewrite !Qmult_assoc. split; apply Qmult_le_compat_r; lra. }
  exists (inject_Z m * 2 ^ e)%Q. split; [| exact Hr].
  assert (Hfin : Qle_bool (2 ^ emax) (Qabs (inject_Z m * 2 ^ e)) = false).
  { apply not_true_iff_false. rewrite Qle_bool_iff. apply Qlt_not_le.
    apply Qabs_Qlt_condition. lra. }
  now rewrite Hfin.
Qed.

(** A value of the format is its own rounding. *)
Lemma round_to_exact (prec emin emax : Z) (q : Q) (g m : Z) :
  (q == inject_Z m * 2 ^ g)%Q -> emin <= g ->
  (Qabs q < 2 ^ (g + prec))%Q -> (Qabs q < 2 ^ emax)%Q ->
  round_to prec emin emax q = Fin (Qred q).
Proof.
  intros E Hg Hmag Hmax.
  apply Qabs_Qlt_condition in Hmax.
  destruct (round_to_grid prec emin emax q g m m Hg Hmag) as (r & -> & Hlo & Hhi);
    try lra.
  f_equal. apply Qred_complete. lra.
Qed.

(** Integers below [2^53] are doubles. *)
Lemma binary64_Z (z : Z) :
  Z.abs z < 2 ^ 53 -> binary64 (inject_Z z) = Fin (inject_Z z).
Proof.
  intros Hz. unfold binary64.
  assert (Habs : (Qabs (inject_Z z) < 2 ^ 53)%Q).
  { change (Qabs (inject_Z z)) with (inject_Z (Z.abs z)).
    rewrite (pow2_inject 53) by lia. now rewrite <- Zlt_Qlt. }
  rewrite (round_to_exact 53 (-1074) 1024 (inject_Z z) 0 z).
  - now rewrite Qred_inject_Z.
  - change (2 ^ 0)%Q with 1%Q. lra.
  - lia.
  - exact Habs.
  - pose proof (pow2_le 53 1024 ltac:(lia)). lra.
Qed.

Lemma binary64_comp (q q' : Q) : (q == q')%Q -> binary64 q = binary64 q'.
Proof. apply round_to_comp. Qed.

(** What rounding returns as finite is in lowest terms and is a value of
    the format. *)
Lemma round_to_value (prec emin emax : Z) (q x : Q) :
  round_to prec emin emax q = Fin x ->
  Qred x = x /\
  ((x == 0)%Q \/
   exists m e, (x == inject_Z m * 2 ^ e)%Q /\ emin <= e /\
               (Qabs q < 2 ^ (e + prec))%Q /\ (Qabs x < 2 ^ emax)%Q /\
               (q - 2 ^ e * (1 # 2) <= x)%Q /\ (x <= q + 2 ^ e * (1 # 2))%Q /\
               e = Z.max emin (floor_log2 (Qabs q) - (prec - 1))).
Proof.
  intros H. destruct (Qeq_dec q 0) as [Hz | Hz].
  - rewrite (round_to_zero _ _ _ _ Hz) in H. injection H as <-.
    split; [reflexivity | left; reflexivity].
  - rewrite (round_to_nonzero _ _ _ q Hz) in H. cbv zeta in H.
    set (e := Z.max emin (floor_log2 (Qabs q) - (prec - 1))) in *.
    set (m := round_half_even (q / 2 ^ e)) in *.
    destruct (Qle_bool (2 ^ emax) (Qabs (inject_Z m * 2 ^ e))) eqn:Hov; [discriminate |].
    injection H as <-. split; [apply Qred_Qred |]. right. exists m, e.
    pose proof (pow2_pos e) as Pe.
    destruct (floor_log2_spec _ (Qabs_pos_nonzero q Hz)) as [_ Hup].
    destruct (round_half_even_error (q / 2 ^ e)) as [E1 E2]. fold m in E1, E2.
    assert (Eq : (q == q / 2 ^ e * 2 ^ e)%Q) by (field; lra).
    split; [apply Qred_correct |]. split; [unfold e; lia |]. split.
    { apply Qlt_le_trans with (2 ^ (floor_log2 (Qabs q) + 1))%Q; [exact Hup |].
      apply pow2_le. unfold e. lia. }
    split.
    { rewrite Qred_correct. apply Qnot_le_lt. intros Hle.
      apply Qle_bool_iff in Hle. congruence. }
    rewrite Qred_correct. split; [| split; [| reflexivity]]; nra.
Qed.

(** Every float is a double. *)
Lemma float32_is_double (x q : Q) :
  binary32 x = Fin x -> (q == x)%Q -> binary64 q = Fin x.
Proof.
  intros H E. rewrite (binary64_comp _ _ E).
  destruct (round_to_value _ _ _ _ _ H) as [Hred [Hz | (m & e & Ex & He & Hmag & Hmax & _)]].
  - unfold binary64. rewrite (round_to_zero _ _ _ _ Hz). f_equal.
    rewrite <- Hred. change 0%Q with (Qred 0). now apply Qred_complete.
  - unfold binary64. rewrite (round_to_exact 53 (-1074) 1024 x e m Ex).
    + now rewrite Hred.
    + lia.
    + apply Qlt_le_trans with (2 ^ (e + 24))%Q; [exact Hmag | apply pow2_le; lia].
    + apply Qlt_le_trans with (2 ^ 128)%Q; [exact Hmax | apply pow2_le; lia].
Qed.

(** ** Values of a format *)

(** A finite result of rounding is its own rounding. *)
Lemma round_to_idempotent (prec emin emax : Z) (q x : Q) :
  0 < prec -> round_to prec emin emax q = Fin x -> round_to prec emin emax x = Fin x.
Proof.
  intros Hp H.
  destruct (round_to_value _ _ _ _ _ H)
    as [Hred [Hz | (m & e & Ex & He & Hmag & Hmax & Hlo & Hhi & _)]].
  { rewrite (round_to_zero _ _ _ _ Hz). f_equal.
    rewrite <- Hred. change 0%Q with (Qred 0). symmetry. now apply Qred_complete. }
  pose proof (pow2_pos e) as Pe.
  assert (ET : (2 ^ (e + prec) == 2 ^ e * inject_Z (2 ^ prec))%Q).
  { rewrite pow2_add. rewrite (pow2_inject prec) by lia. reflexivity. }
  apply Qabs_Qlt_condition in Hmag. destruct Hmag as [Hq1 Hq2].
  rewrite ET in Hq1, Hq2.
  set (K := inject_Z (2 ^ prec)) in *.
  assert (HK : (0 < K)%Q).
  { unfold K. change 0%Q with (inject_Z 0). rewrite <- Zlt_Qlt.
    apply Z.pow_pos_nonneg; lia. }
  assert (Hm : - 2 ^ prec <= m <= 2 ^ prec).
  { assert (B1 : (inject_Z m < K + (1 # 2))%Q) by nra.
    assert (B2 : (- K - (1 # 2) < inject_Z m)%Q) by nra.
    assert (C1 : (inject_Z (2 * m) < inject_Z (2 * 2 ^ prec + 1))%Q).
    { rewrite inject_Z_plus, !inject_Z_mult. fold K.
      change (inject_Z 2) with 2%Q. change (inject_Z 1) with 1%Q. lra. }
    assert (C2 : (inject_Z (- (2 * 2 ^ prec) - 1) < inject_Z (2 * m))%Q).
    { unfold Z.sub. rewrite inject_Z_plus, inject_Z_opp, !inject_Z_mult. fold K.
      change (inject_Z 2) with 2%Q. change (inject_Z (- (1))) with (-1)%Q. lra. }
    rewrite <- Zlt_Qlt in C1, C2. lia. }
  assert (Hresult : round_to prec emin emax x = Fin (Qred x));
    [| now rewrite Hresult, Hred].
  destruct (Z_lt_le_dec (Z.abs m) (2 ^ prec)) as [Hin | Hedge].
  - apply (round_to_exact prec emin emax x e m Ex He); [| exact Hmax].
    rewrite ET. apply Qabs_Qlt_condition.
    assert (M1 : (inject_Z m < K)%Q) by (unfold K; rewrite <- Zlt_Qlt; lia).
    assert (M2 : (- K < inject_Z m)%Q).
    { unfold K. rewrite <- inject_Z_opp, <- Zlt_Qlt. lia. }
    split; nra.
  - assert (Hs : m = 2 ^ prec \/ m = - 2 ^ prec) by lia.
    assert (Ex' : exists s : Z, (s = 1 \/ s = -1) /\
                                (x == inject_Z s * 2 ^ (e + prec))%Q).
    { destruct Hs as [-> | ->].
      - exists 1. split; [now left |]. rewrite Ex, ET. fold K.
        change (inject_Z 1) with 1%Q. ring.
      - exists (-1). split; [now right |]. rewrite Ex, ET, inject_Z_opp. fold K.
        change (inject_Z (-1)) with (-1)%Q. ring. }
    destruct Ex' as (s & Hs' & Exs).
    apply (round_to_exact prec emin emax x (e + prec) s Exs); [lia | | exact Hmax].
    pose proof (pow2_lt (e + prec) (e + prec + prec) ltac:(lia)) as Plt.
    pose proof (pow2_pos (e + prec)) as Ppos.
    apply Qabs_Qlt_condition.
    destruct Hs' as [-> | ->].
    + change (inject_Z 1) with 1%Q in Exs. split; lra.
    + change (inject_Z (-1)) with (-1)%Q in Exs. split; lra.
Qed.

(** Rounding never leaves a symmetric interval whose bound is a value
    of the format. *)
Lemma round_to_below (prec emin emax : Z) (q y : Q) :
  0 < prec -> (- y <= q)%Q -> (q <= y)%Q ->
  round_to prec emin emax y = Fin y ->
  exists x, round_to prec emin emax q = Fin x /\ Qred x = x /\
            (- y <= x)%Q /\ (x <= y)%Q.
Proof.
  intros Hp Hlo Hhi Hy.
  assert (Hy0 : (0 <= y)%Q) by lra.
  destruct (Qeq_dec q 0) as [Hq | Hq].
  { exists 0%Q. rewrite (round_to_zero _ _ _ _ Hq).
    split; [reflexivity |]. split; [reflexivity | lra]. }
  destruct (round_to_value _ _ _ _ _ Hy)
    as [_ [Hz | (m & ey & Ey & Hey & _ & Hmax & _ & _ & Eey)]].
  { exfalso. apply Hq. lra. }
  assert (Hypos : (0 < y)%Q).
  { destruct (Qlt_le_dec 0 y) as [Hpos | Hneg]; [exact Hpos |].
    exfalso. apply Hq. lra. }
  assert (Eabs : (Qabs y == y)%Q) by now apply Qabs_pos.
  rewrite (floor_log2_comp (Qabs y) y) in Eey by lra.
  rewrite Eabs in Hmax.
  pose proof (Qabs_pos_nonzero q Hq) as Haq.
  assert (Haq' : (Qabs q <= y)%Q) by (apply Qabs_Qle_condition; split; lra).
  destruct (floor_log2_spec _ Haq) as [Sq1 Sq2].
  destruct (floor_log2_spec _ Hypos) as [Sy1 Sy2].
  assert (Hfl : floor_log2 (Qabs q) <= floor_log2 y).
  { assert (H : floor_log2 (Qabs q) < floor_log2 y + 1) by (apply pow2_lt_inv; lra).
    lia. }
  set (e := Z.max emin (floor_log2 (Qabs q) - (prec - 1))).
  assert (He : emin <= e <= ey) by (unfold e; lia).
  assert (Egrid : (inject_Z (m * 2 ^ (ey - e)) * 2 ^ e == y)%Q).
  { rewrite inject_Z_mult, <- pow2_inject by lia. rewrite <- Qmult_assoc, <- pow2_add.
    replace (ey - e + e) with ey by lia. now rewrite Ey. }
  assert (Egrid' : (inject_Z (- (m * 2 ^ (ey - e))) * 2 ^ e == - y)%Q).
  { rewrite inject_Z_opp. rewrite <- Egrid. ring. }
  destruct (round_to_grid prec emin emax q e (- (m * 2 ^ (ey - e))) (m * 2 ^ (ey - e)))
    as (r & Hr & R1 & R2).
  - lia.
  - apply Qlt_le_trans with (2 ^ (floor_log2 (Qabs q) + 1))%Q; [exact Sq2 |].
    apply pow2_le. unfold e. lia.
  - rewrite Egrid'. exact Hlo.
  - rewrite Egrid. exact Hhi.
  - rewrite Egrid'. lra.
  - rewrite Egrid. exact Hmax.
  - exists (Qred r). split; [exact Hr |]. split; [apply Qred_Qred |].
    rewrite Egrid' in R1. rewrite Egrid in R2. rewrite Qred_correct. lra.
Qed.

End RoundingFacts.

(* ===================================================================== *)
(** * Properties of the capture pipeline *)
(* ===================================================================== *)

Module RecorderFacts.
Import Js Recorder RoundingFacts.

(** ** Comparison and selection *)

Lemma lt_Fin (x y : Q) : lt (Fin x) (Fin y) = true <-> (x < y)%Q.
Proof.
  cbn. rewrite Qlt_alt. destruct (x ?= y)%Q; split; congruence.
Qed.

Lemma lt_Fin_false (x y : Q) : lt (Fin x) (Fin y) = false <-> (y <= x)%Q.
Proof.
  rewrite <- not_true_iff_false, lt_Fin. split.
  - apply Qnot_lt_le.
  - apply Qle_not_lt.
Qed.

Lemma Math_min_Z (a b : Z) :
  Math_min (Fin (inject_Z a)) (Fin (inject_Z b)) = Fin (inject_Z (Z.min a b)).
Proof.
  unfold Math_min. destruct (lt (Fin (inject_Z b)) (Fin (inject_Z a))) eqn:H.
  - apply lt_Fin in H. rewrite <- Zlt_Qlt in H. now rewrite Z.min_r by lia.
  - apply lt_Fin_false in H. rewrite <- Zle_Qle in H. now rewrite Z.min_l by lia.
Qed.

(** ** Arithmetic on integers that are doubles *)

Lemma fmul_Z (a b : Z) :
  Z.abs (a * b) < 2 ^ 53 ->
  fmul (Fin (inject_Z a)) (Fin (inject_Z b)) = Fin (inject_Z (a * b)).
Proof.
  intros H. unfold fmul, mul, round64.
  rewrite (binary64_comp _ (inject_Z (a * b))) by (now rewrite inject_Z_mult).
  now apply binary64_Z.
Qed.

Lemma fadd_Z (a b : Z) :
  Z.abs (a + b) < 2 ^ 53 ->
  fadd (Fin (inject_Z a)) (Fin (inject_Z b)) = Fin (inject_Z (a + b)).
Proof.
  intros H. unfold fadd, add, round64.
  rewrite (binary64_comp _ (inject_Z (a + b))) by (now rewrite inject_Z_plus).
  now apply binary64_Z.
Qed.

Lemma fmul_three (i : Z) :
  Z.abs (i * 3) < 2 ^ 53 -> fmul (Fin (inject_Z i)) (Fin 3) = Fin (inject_Z (i * 3)).
Proof. exact (fmul_Z i 3). Qed.

Lemma fadd_one (z : Z) :
  Z.abs (z + 1) < 2 ^ 53 -> fadd (Fin (inject_Z z)) (Fin 1) = Fin (inject_Z (z + 1)).
Proof. exact (fadd_Z z 1). Qed.

Lemma fsub_same (q : Q) : fsub (Fin q) (Fin q) = Fin 0.
Proof.
  unfold fsub, opp, add, round64, binary64. apply round_to_zero. ring.
Qed.

Lemma Math_floor_Z (z : Z) : Math_floor (Fin (inject_Z z)) = Fin (inject_Z z).
Proof. unfold Math_floor. now rewrite Qfloor_Z. Qed.

Lemma get_Z (buffer : Float32Array) (z : Z) :
  0 <= z < Z.of_nat (length buffer) ->
  get buffer (Fin (inject_Z z)) = nth (Z.to_nat z) buffer NaN.
Proof.
  intros Hz. unfold get. rewrite Qfloor_Z.
  replace (Qeq_bool (inject_Z z) (inject_Z z)) with true
    by (symmetry; apply Qeq_bool_iff; reflexivity).
  replace (0 <=? z) with true by (symmetry; apply Z.leb_le; lia).
  replace (z <? Z.of_nat (length buffer)) with true by (symmetry; apply Z.ltb_lt; lia).
  reflexivity.
Qed.

Lemma new_Float32Array_Z (n : Z) :
  0 <= n < 2 ^ 53 -> new_Float32Array (Fin (inject_Z n)) = Some (Z.to_nat n).
Proof.
  intros Hn. unfold new_Float32Array, truncate. cbn [Qnum Qden inject_Z].
  rewrite Z.quot_1_r.
  replace (n <? 0) with false by (symmetry; apply Z.ltb_ge; lia).
  replace (2 ^ 53 - 1 <? n) with false by (symmetry; apply Z.ltb_ge; lia).
  reflexivity.
Qed.

(** ** Rounded quotients *)

(** A double near a rational of the normal range: the relative error is
    at most [2^-53]. *)
Lemma binary64_near (q : Q) (k : Z) :
  (0 < q)%Q -> (2 ^ (-1022) <= q)%Q -> (q < 2 ^ k)%Q -> k < 1024 ->
  exists x, binary64 q = Fin x /\ Qred x = x /\
            (q - q * 2 ^ (-53) <= x)%Q /\ (x <= q + q * 2 ^ (-53))%Q.
Proof.
  intros Hpos Hnormal Hk Hk'.
  assert (Hz : ~ (q == 0)%Q) by lra.
  assert (Habs : (Qabs q == q)%Q) by (apply Qabs_pos; lra).
  destruct (floor_log2_spec (Qabs q) (Qabs_pos_nonzero q Hz)) as [Flo Fhi].
  set (fl := floor_log2 (Qabs q)) in *.
  assert (Hfl1 : -1022 <= fl).
  { assert (H : -1022 < fl + 1) by (apply pow2_lt_inv; lra). lia. }
  assert (Hfl2 : fl < k) by (apply pow2_lt_inv; lra).
  destruct (round_to_grid 53 (-1074) 1024 q (fl - 52) (2 ^ 52) (2 ^ 53)) as (r & Hr & Glo & Ghi).
  - lia.
  - replace (fl - 52 + 53) with (fl + 1) by lia. exact Fhi.
  - rewrite <- (pow2_inject 52) by lia. rewrite <- pow2_add.
    replace (52 + (fl - 52)) with fl by lia. lra.
  - rewrite <- (pow2_inject 53) by lia. rewrite <- pow2_add.
    replace (53 + (fl - 52)) with (fl + 1) by lia. lra.
  - pose proof (pow2_pos 1024). pose proof (pow2_pos (fl - 52)).
    assert (0 < inject_Z (2 ^ 52))%Q by (rewrite <- pow2_inject by lia; apply pow2_pos).
    nra.
  - rewrite <- (pow2_inject 53) by lia. rewrite <- pow2_add.
    apply pow2_lt. lia.
  - unfold binary64. rewrite Hr.
    destruct (round_to_value _ _ _ _ _ Hr) as [Hred [Hzero | (m & e & Ex & He & _ & _ & E1 & E2 & Ee)]].
    + exfalso. rewrite Qred_correct in Hzero.
      pose proof (pow2_pos (fl - 52)).
      assert (0 < inject_Z (2 ^ 52))%Q by (rewrite <- pow2_inject by lia; apply pow2_pos).
      nra.
    + exists (Qred r). split; [reflexivity |]. split; [apply Qred_Qred |].
      fold fl in Ee. rewrite Z.max_r in Ee by lia. subst e.
      assert (Hulp : (2 ^ (fl + 1 - 53) * (1 # 2) <= q * 2 ^ (-53))%Q).
      { replace (fl + 1 - 53) with (fl + (-52)) by lia. rewrite pow2_add.
        assert (E52 : (2 ^ (-52) * (1 # 2) == 2 ^ (-53))%Q) by reflexivity.
        rewrite <- Qmult_assoc, E52.
        apply Qmult_le_compat_r; [lra | apply Qlt_le_weak, pow2_pos]. }
      replace (fl - (53 - 1)) with (fl + 1 - 53) in E1, E2 by lia.
      split; lra.
Qed.

(** [Math.round(L / k)] for a length and a positive integer [k]: the
    quotient is rounded to a double first, and the result is still the
    exact quotient rounded half up. *)
Lemma round_quotient (L k : Z) :
  0 <= L < 2 ^ 50 -> 0 < k < 2 ^ 53 ->
  Math_round (fdiv (Fin (inject_Z L)) (Fin (inject_Z k)))
    = Fin (inject_Z ((2 * L + k) / (2 * k))).
Proof.
  intros HL Hk.
  assert (Hkq : (0 < inject_Z k)%Q) by (change 0%Q with (inject_Z 0); rewrite <- Zlt_Qlt; lia).
  assert (Hsign : Qsign (inject_Z k) = Gt) by (unfold Qsign; now rewrite <- Qgt_alt).
  unfold fdiv, div. rewrite Hsign. unfold round64.
  set (q := (inject_Z L / inject_Z k)%Q).
  set (N := (2 * L + k) / (2 * k)).
  assert (HN : 2 * k * N <= 2 * L + k < 2 * k * N + 2 * k).
  { unfold N. pose proof (Z.mul_div_le (2 * L + k) (2 * k) ltac:(lia)).
    pose proof (Z.mul_succ_div_gt (2 * L + k) (2 * k) ltac:(lia)). lia. }
  assert (Eqk : (q * inject_Z k == inject_Z L)%Q) by (unfold q; field; lra).
  assert (HNq : (2 * (inject_Z k * inject_Z N) <= 2 * inject_Z L + inject_Z k)%Q /\
                (2 * inject_Z L + inject_Z k
                   < 2 * (inject_Z k * inject_Z N) + 2 * inject_Z k)%Q).
  { destruct HN as [H1 H2]. rewrite Zle_Qle in H1. rewrite Zlt_Qlt in H2.
    inject_in H1. inject_in H2.
    change (inject_Z 2) with 2%Q in H1, H2. lra. }
  assert (Hfloor : forall x : Q,
            (inject_Z N * inject_Z k <= (x + (1 # 2)) * inject_Z k)%Q ->
            ((x + (1 # 2)) * inject_Z k < (inject_Z N + 1) * inject_Z k)%Q ->
            Math_round (Fin x) = Fin (inject_Z N)).
  { intros x H1 H2. unfold Math_round. f_equal. f_equal. apply Qfloor_unique.
    - apply Qmult_le_r in H1; [exact H1 | exact Hkq].
    - rewrite inject_Z_plus. change (inject_Z 1) with 1%Q.
      apply Qmult_lt_r in H2; [exact H2 | exact Hkq]. }
  destruct (Z.eq_dec L 0) as [-> | HL0].
  { assert (Ez : (q == 0)%Q) by (unfold q; field; lra).
    unfold binary64. rewrite (round_to_zero 53 (-1074) 1024 q Ez).
    apply Hfloor; nra. }
  destruct (Z.eq_dec (2 * L + k) (2 * k * N)) as [Htie | Hnot].
  - (* exactly halfway: the quotient is a double *)
    assert (Eq : (q == inject_Z (2 * N - 1) * 2 ^ (-1))%Q).
    { change (2 ^ (-1))%Q with (1 # 2). apply (Qmult_inj_r _ _ (inject_Z k)); [intros E0; lra |].
      assert (Htie' : (inject_Z (2 * L + k) == inject_Z (2 * k * N))%Q) by now rewrite Htie.
      inject_in Htie'.
      replace (2 * N - 1) with (2 * N + -1) by lia. rewrite inject_Z_plus, inject_Z_mult.
      change (inject_Z 2) with 2%Q in *. change (inject_Z (-1)) with (-1)%Q. nra. }
    assert (HNpos : 0 <= 2 * N - 1 /\ 2 * N - 1 < 2 ^ 51) by nia.
    assert (Hm : (0 <= inject_Z (2 * N - 1))%Q /\ (inject_Z (2 * N - 1) < 2 ^ 52)%Q).
    { split; [change 0%Q with (inject_Z 0); rewrite <- Zle_Qle; lia |].
      rewrite (pow2_inject 52) by lia. rewrite <- Zlt_Qlt. lia. }
    assert (Hq51 : (Qabs q < 2 ^ 52)%Q).
    { rewrite Eq. change (2 ^ (-1))%Q with (1 # 2). rewrite Qabs_pos; lra. }
    unfold binary64. rewrite (round_to_exact 53 (-1074) 1024 q (-1) (2 * N - 1) Eq).
    + apply Hfloor; rewrite Qred_correct; nra.
    + lia.
    + exact Hq51.
    + pose proof (pow2_le 52 1024 ltac:(lia)). lra.
  - (* away from halfway by at least 1/(2k): the rounding error is smaller *)
    assert (HLq : (1 <= inject_Z L)%Q /\ (inject_Z L < inject_Z (2 ^ 50))%Q).
    { split; [change 1%Q with (inject_Z 1); rewrite <- Zle_Qle; lia |
              rewrite <- Zlt_Qlt; lia]. }
    assert (Hk53 : (inject_Z k < inject_Z (2 ^ 53))%Q) by (rewrite <- Zlt_Qlt; lia).
    assert (Hqpos : (0 < q)%Q).
    { unfold q. apply Qlt_shift_div_l; [exact Hkq | lra]. }
    assert (Hnormal : (2 ^ (-1022) <= q)%Q).
    { apply Qle_trans with (2 ^ (-53))%Q; [apply pow2_le; lia |].
      unfold q. apply Qle_shift_div_l; [exact Hkq |].
      change (2 ^ (-53))%Q with (/ inject_Z (2 ^ 53))%Q.
      assert (0 < inject_Z (2 ^ 53))%Q by reflexivity.
      apply Qle_trans with 1%Q; [| lra].
      rewrite Qmult_comm. apply Qle_shift_div_r; [assumption | lra]. }
    assert (Hq50 : (q < 2 ^ 50)%Q).
    { rewrite (pow2_inject 50) by lia. unfold q.
      apply Qlt_shift_div_r; [exact Hkq |].
      assert (1 <= inject_Z k)%Q by (change 1%Q with (inject_Z 1); rewrite <- Zle_Qle; lia).
      assert (0 < inject_Z (2 ^ 50))%Q by reflexivity. nra. }
    destruct (binary64_near q 50 Hqpos Hnormal Hq50 ltac:(lia)) as (x & -> & _ & Xlo & Xhi).
    assert (Herr : (q * 2 ^ (-53) * inject_Z k < 1 # 8)%Q).
    { assert (E : (q * 2 ^ (-53) * inject_Z k == inject_Z L * 2 ^ (-53))%Q)
        by (rewrite <- Eqk; ring).
      assert (E3 : ((1 # 8) == 2 ^ 50 * 2 ^ (-53))%Q) by (rewrite <- pow2_add; reflexivity).
      rewrite E, E3. apply Qmult_lt_compat_r; [apply pow2_pos |].
      rewrite (pow2_inject 50) by lia. lra. }
    assert (Hgap : (2 * (inject_Z k * inject_Z N) + 1 <= 2 * inject_Z L + inject_Z k)%Q /\
                   (2 * inject_Z L + inject_Z k + 1
                      <= 2 * (inject_Z k * inject_Z N) + 2 * inject_Z k)%Q).
    { assert (H1 : 2 * k * N + 1 <= 2 * L + k) by lia.
      assert (H2 : 2 * L + k + 1 <= 2 * k * N + 2 * k) by lia.
      rewrite Zle_Qle in H1, H2. inject_in H1. inject_in H2.
      change (inject_Z 2) with 2%Q in H1, H2. change (inject_Z 1) with 1%Q in H1, H2.
      lra. }
    assert (Xk1 : ((q - q * 2 ^ (-53)) * inject_Z k <= x * inject_Z k)%Q)
      by (apply Qmult_le_compat_r; lra).
    assert (Xk2 : (x * inject_Z k <= (q + q * 2 ^ (-53)) * inject_Z k)%Q)
      by (apply Qmult_le_compat_r; lra).
    apply Hfloor; nra.
Qed.

(** ** Resampling *)

Lemma ratio_is_three : fdiv (Fin 48000) (Fin 16000) = Fin 3.
Proof. vm_compute. reflexivity. Qed.

Lemma round_third (L : Z) : (2 * L + 3) / (2 * 3) = (L + 1) / 3.
Proof.
  change (2 * 3) with 6.
  pose proof (Z.mul_div_le (2 * L + 3) 6 ltac:(lia)).
  pose proof (Z.mul_succ_div_gt (2 * L + 3) 6 ltac:(lia)).
  pose proof (Z.mul_div_le (L + 1) 3 ltac:(lia)).
  pose proof (Z.mul_succ_div_gt (L + 1) 3 ltac:(lia)). lia.
Qed.

(** The exact quotient, rounded half up. *)
Lemma exact_round_third (L : Z) :
  Math_round (Fin (inject_Z L / 3)) = Fin (inject_Z ((L + 1) / 3)).
Proof.
  unfold Math_round. f_equal. f_equal.
  pose proof (Z.mul_div_le (L + 1) 3 ltac:(lia)) as H1.
  pose proof (Z.mul_succ_div_gt (L + 1) 3 ltac:(lia)) as H2.
  set (N := (L + 1) / 3) in *.
  assert (Hlo : 6 * N <= 2 * L + 3) by lia.
  assert (Hhi : 2 * L + 3 < 6 * N + 6) by lia.
  rewrite Zle_Qle in Hlo. rewrite Zlt_Qlt in Hhi. inject_in Hlo. inject_in Hhi.
  change (inject_Z 6) with 6%Q in *. change (inject_Z 2) with 2%Q in *.
  change (inject_Z 3) with 3%Q in *.
  unfold Qdiv. change (/ 3)%Q with (1 # 3).
  apply Qfloor_unique.
  - lra.
  - rewrite inject_Z_plus. change (inject_Z 1) with 1%Q. lra.
Qed.

(** One iteration at ratio 3: the position is an integer, so the
    fraction is zero and the weights are 1 and 0. *)
Lemma interpolate_third (buffer : Float32Array) (i : nat) :
  let L := Z.of_nat (length buffer) in
  L < 2 ^ 50 -> 3 * Z.of_nat i < L ->
  interpolate buffer (Fin 3) (Z.of_nat i) =
    fround (fadd (fmul (nth (3 * i) buffer NaN) (Fin 1))
                 (fmul (nth (Nat.min (3 * i + 1) (length buffer - 1)) buffer NaN) (Fin 0))).
Proof.
  intros L HL Hi. unfold interpolate. fold L.
  rewrite fmul_three by lia. rewrite Math_floor_Z. rewrite fadd_one by lia.
  rewrite Math_min_Z. rewrite fsub_same.
  replace (fsub (Fin 1) (Fin 0)) with (Fin 1) by (vm_compute; reflexivity).
  rewrite !get_Z by (fold L; lia).
  replace (Z.to_nat (Z.of_nat i * 3)) with (3 * i)%nat by lia.
  replace (Z.to_nat (Z.min (Z.of_nat i * 3 + 1) (L - 1)))
    with (Nat.min (3 * i + 1) (length buffer - 1)) by (unfold L; lia).
  reflexivity.
Qed.

(** A float multiplied by 1, and added to the zero that a finite
    neighbour multiplied by 0 gives, is stored unchanged. *)
Lemma pick_float (x y : Q) :
  fround (Fin x) = Fin x ->
  fround (fadd (fmul (Fin x) (Fin 1)) (fmul (Fin y) (Fin 0))) = Fin x.
Proof.
  intros Hx. unfold fround in Hx.
  assert (E1 : fmul (Fin x) (Fin 1) = Fin x).
  { unfold fmul, mul, round64. apply float32_is_double; [exact Hx | ring]. }
  assert (E2 : fmul (Fin y) (Fin 0) = Fin 0).
  { unfold fmul, mul, round64, binary64. apply round_to_zero. ring. }
  rewrite E1, E2.
  assert (E3 : fadd (Fin x) (Fin 0) = Fin x).
  { unfold fadd, add, round64. apply float32_is_double; [exact Hx | ring]. }
  rewrite E3. exact Hx.
Qed.

Lemma Qeq_bool_refl (q : Q) : Qeq_bool q q = true.
Proof. apply Qeq_bool_iff. reflexivity. Qed.

Lemma downsample_48k_16k (buffer : Float32Array) :
  Z.of_nat (length buffer) < 2 ^ 50 ->
  downsampleFloat32 buffer 48000 16000 =
  Normal (map (fun i => interpolate buffer (Fin 3) (Z.of_nat i))
              (seq 0 (Z.to_nat ((Z.of_nat (length buffer) + 1) / 3)))).
Proof.
  intros HL. unfold downsampleFloat32.
  change (Qeq_bool 48000 16000) with false. cbv iota zeta.
  rewrite ratio_is_three. change (Fin 3) with (Fin (inject_Z 3)) at 1.
  rewrite round_quotient by lia. rewrite round_third.
  rewrite new_Float32Array_Z; [reflexivity |].
  split; [apply Z.div_pos; lia |].
  apply Z.le_lt_trans with (Z.of_nat (length buffer) + 1); [| lia].
  apply Z.div_le_upper_bound; lia.
Qed.

(** Claim C7.  Resampling a buffer to its own rate returns that buffer.
    Resampling a buffer of [L] samples from 48000 Hz to 16000 Hz returns
    [round(L / 3)] samples, that is [(L + 1) div 3]: the double
    arithmetic of the code gives the exact value.  Sample [i] is the
    linear interpolation of the source samples at positions [3 i] and
    [min (3 i + 1, L - 1)], both inside the buffer; the ratio being the
    integer 3, the fraction is 0 and the weights are 1 and 0, so when
    both neighbours are finite the sample is source sample [3 i]
    itself.  (Lengths below [2^50]; arrays are shorter than that.) *)
Theorem downsampleFloat32_resamples (buffer : Float32Array) :
  let L := Z.of_nat (length buffer) in
  (forall R : Q, downsampleFloat32 buffer R R = Normal buffer) /\
  (L < 2 ^ 50 ->
   exists out,
     downsampleFloat32 buffer 48000 16000 = Normal out /\
     Math_round (Fin (inject_Z L / 3)) = Fin (inject_Z (Z.of_nat (length out))) /\
     Z.of_nat (length out) = (L + 1) / 3 /\
     forall i : nat, (i < length out)%nat ->
       let low := (3 * i)%nat in
       let high := Nat.min (3 * i + 1) (length buffer - 1) in
       (low < length buffer)%nat /\ (low <= high)%nat /\ (high <= low + 1)%nat /\
       (high < length buffer)%nat /\
       nth i out NaN =
         fround (fadd (fmul (nth low buffer NaN) (Fin 1))
                      (fmul (nth high buffer NaN) (Fin 0))) /\
       (forall x y : Q,
          nth low buffer NaN = Fin x -> nth high buffer NaN = Fin y ->
          fround (Fin x) = Fin x -> nth i out NaN = Fin x)).
Proof.
  intros L. split.
  { intros R. unfold downsampleFloat32. now rewrite Qeq_bool_refl. }
  intros HL. rewrite (downsample_48k_16k buffer HL). fold L.
  set (n := Z.to_nat ((L + 1) / 3)).
  exists (map (fun i => interpolate buffer (Fin 3) (Z.of_nat i)) (seq 0 n)).
  assert (Hlen : length (map (fun i => interpolate buffer (Fin 3) (Z.of_nat i)) (seq 0 n)) = n)
    by now rewrite length_map, length_seq.
  assert (Hn : Z.of_nat n = (L + 1) / 3).
  { unfold n. apply Z2Nat.id. apply Z.div_pos; lia. }
  split; [reflexivity |]. rewrite Hlen. split; [| split; [exact Hn |]].
  { rewrite Hn. apply exact_round_third. }
  intros i Hi. cbv zeta.
  assert (Hi3 : 3 * Z.of_nat i + 2 <= L).
  { assert (Z.of_nat i < (L + 1) / 3) by lia.
    pose proof (Z.mul_div_le (L + 1) 3). lia. }
  assert (Hsample :
    nth i (map (fun i => interpolate buffer (Fin 3) (Z.of_nat i)) (seq 0 n)) NaN =
    fround (fadd (fmul (nth (3 * i) buffer NaN) (Fin 1))
                 (fmul (nth (Nat.min (3 * i + 1) (length buffer - 1)) buffer NaN) (Fin 0)))).
  { rewrite (nth_indep _ NaN (interpolate buffer (Fin 3) (Z.of_nat 0)))
      by (rewrite Hlen; exact Hi).
    rewrite (map_nth (fun i => interpolate buffer (Fin 3) (Z.of_nat i))).
    rewrite seq_nth by exact Hi. cbn [Nat.add].
    apply interpolate_third; fold L; lia. }
  unfold L in *.
  split; [lia |]. split; [lia |]. split; [lia |]. split; [lia |].
  split; [exact Hsample |].
  intros x y Hx Hy Hfloat. rewrite Hsample, Hx, Hy. now apply pick_float.
Qed.

(** Seven samples at 48000 Hz give two at 16000 Hz: samples 0 and 3. *)
Lemma downsampleFloat32_resamples_witness :
  let buffer := [Fin (1 # 2); Fin (1 # 4); Fin (-1); Fin 1; Fin 0; Fin (3 # 4); Fin (1 # 8)] in
  Z.of_nat (length buffer) < 2 ^ 50 /\
  downsampleFloat32 buffer 48000 16000 = Normal [Fin (1 # 2); Fin 1].
Proof.
  cbv zeta.
  assert (HL : Z.of_nat (length [Fin (1 # 2); Fin (1 # 4); Fin (-1); Fin 1; Fin 0;
                                 Fin (3 # 4); Fin (1 # 8)]) < 2 ^ 50) by reflexivity.
  split; [exact HL |].
  destruct (proj2 (downsampleFloat32_resamples _) HL) as (out & -> & _ & Hlen & Hval).
  assert (Hlen' : length out = 2%nat) by (apply Nat2Z.inj; rewrite Hlen; reflexivity).
  destruct out as [ | a [ | b [ | c rest]]]; try discriminate Hlen'.
  destruct (Hval 0%nat ltac:(cbn; lia)) as (_ & _ & _ & _ & _ & Ha).
  destruct (Hval 1%nat ltac:(cbn; lia)) as (_ & _ & _ & _ & _ & Hb).
  cbn in Ha, Hb.
  rewrite (Ha (1 # 2)%Q (1 # 4)%Q eq_refl eq_refl ltac:(vm_compute; reflexivity)).
  rewrite (Hb 1%Q 0%Q eq_refl eq_refl ltac:(vm_compute; reflexivity)).
  reflexivity.
Defined.

(** ** Quantisation *)

Lemma wrap16_in_range (z : Z) : -32768 <= z <= 32767 -> wrap16 z = z.
Proof.
  intros Hz. unfold wrap16.
  destruct (Z.leb_spec 32768 (z mod 65536)) as [H | H];
    Z.div_mod_to_equations; lia.
Qed.

Lemma truncate_bounds (q : Q) (lo hi : Z) :
  (inject_Z lo <= q)%Q -> (q <= inject_Z hi)%Q -> lo <= truncate q <= hi.
Proof.
  unfold Qle, truncate, inject_Z. cbn [Qnum Qden]. intros Hlo Hhi.
  rewrite Z.mul_1_r in Hlo, Hhi.
  split.
  - rewrite <- (Z.quot_mul lo (Z.pos (Qden q))) by lia.
    apply Z.quot_le_mono; lia.
  - rewrite <- (Z.quot_mul hi (Z.pos (Qden q))) by lia.
    apply Z.quot_le_mono; lia.
Qed.

Lemma truncate_nonneg (q : Q) : (0 <= q)%Q -> truncate q = Qfloor q.
Proof.
  unfold Qle, truncate, Qfloor. destruct q as [n d]. cbn [Qnum Qden].
  intros H. apply Z.quot_div_nonneg; lia.
Qed.

Lemma truncate_nonpos (q : Q) : (q <= 0)%Q -> truncate q = Qceiling q.
Proof.
  unfold Qle, truncate, Qceiling, Qfloor, Qopp. destruct q as [n d]. cbn [Qnum Qden].
  intros H. rewrite <- (Z.opp_involutive n) at 1.
  rewrite Z.quot_opp_l by lia. f_equal. apply Z.quot_div_nonneg; lia.
Qed.

(** Truncation towards zero preserves the order. *)
Lemma truncate_monotone (a b : Q) : (a <= b)%Q -> truncate a <= truncate b.
Proof.
  intros Hab.
  destruct (Qlt_le_dec a 0) as [Ha | Ha], (Qlt_le_dec b 0) as [Hb | Hb].
  - rewrite !truncate_nonpos by now apply Qlt_le_weak.
    now apply Qceiling_resp_le.
  - rewrite (truncate_nonpos a) by now apply Qlt_le_weak.
    rewrite (truncate_nonneg b) by exact Hb.
    apply Z.le_trans with 0.
    + rewrite <- (Qceiling_Z 0). apply Qceiling_resp_le. now apply Qlt_le_weak.
    + rewrite <- (Qfloor_Z 0). now apply Qfloor_resp_le.
  - exfalso. lra.
  - rewrite !truncate_nonneg by assumption. now apply Qfloor_resp_le.
Qed.

Lemma truncate_comp (a b : Q) : (a == b)%Q -> truncate a = truncate b.
Proof. intros E. apply Z.le_antisymm; apply truncate_monotone; lra. Qed.

Lemma truncate_integer (z : Z) (v : Q) : (v == inject_Z z)%Q -> truncate v = z.
Proof.
  intros E. rewrite (truncate_comp _ _ E). unfold truncate, inject_Z. cbn [Qnum Qden].
  apply Z.quot_1_r.
Qed.

(** The clamp turns NaN into NaN and everything else into a value of the
    closed range. *)
Lemma clamp_range (x : number) :
  (x = NaN /\ clamp x = NaN) \/
  exists q, clamp x = Fin q /\ (-1 <= q)%Q /\ (q <= 1)%Q.
Proof.
  destruct x as [ | [ | ] | q ]; [left; easy | right .. ].
  - exists (-1)%Q. easy.
  - exists 1%Q. easy.
  - unfold clamp, Math_min.
    destruct (lt (Fin q) (Fin 1)) eqn:Hhi.
    + unfold Math_max. destruct (lt (Fin (-1)) (Fin q)) eqn:Hlo.
      * exists q. apply lt_Fin in Hhi, Hlo.
        split; [easy |]. split; now apply Qlt_le_weak.
      * exists (-1)%Q. easy.
    + exists 1%Q. easy.
Qed.

Lemma scale_range (q : Q) :
  (-1 <= q)%Q -> (q <= 1)%Q ->
  exists v, scale (Fin q) = Fin v /\
            (inject_Z (-32768) <= v)%Q /\ (v <= inject_Z 32767)%Q.
Proof.
  intros Hlo Hhi. unfold scale.
  destruct (lt (Fin q) (Fin 0)) eqn:Hneg; cbn [mul].
  - apply lt_Fin in Hneg. exists (q * 32768)%Q. split; [easy |].
    unfold Qle, Qlt, Qmult, inject_Z in *. cbn [Qnum Qden] in *. lia.
  - apply lt_Fin_false in Hneg. exists (q * 32767)%Q. split; [easy |].
    unfold Qle, Qlt, Qmult, inject_Z in *. cbn [Qnum Qden] in *. lia.
Qed.

(** The clamp of a sample that is not NaN. *)
Lemma clamp_value (x : number) :
  x <> NaN ->
  exists c, clamp x = Fin c /\ (-1 <= c)%Q /\ (c <= 1)%Q /\
    match x with
    | NaN => False
    | Inf true => (c == -1)%Q
    | Inf false => (c == 1)%Q
    | Fin q =>
        ((q <= -1)%Q -> (c == -1)%Q) /\ ((1 <= q)%Q -> (c == 1)%Q) /\
        ((-1 <= q)%Q -> (q <= 1)%Q -> (c == q)%Q)
    end.
Proof.
  intros Hx. destruct x as [ | [ | ] | q]; [congruence | | |].
  - exists (-1)%Q. cbn. repeat split; try lra; try discriminate; reflexivity.
  - exists 1%Q. cbn. repeat split; try lra; try discriminate; reflexivity.
  - unfold clamp, Math_min.
    destruct (lt (Fin q) (Fin 1)) eqn:Hhi.
    + unfold Math_max. destruct (lt (Fin (-1)) (Fin q)) eqn:Hlo.
      * apply lt_Fin in Hhi, Hlo. exists q.
        repeat split; intros; try lra; reflexivity.
      * apply lt_Fin in Hhi. apply lt_Fin_false in Hlo.
        exists (-1)%Q. repeat split; intros; try lra; try discriminate; reflexivity.
    + apply lt_Fin_false in Hhi. exists 1%Q.
      cbn. repeat split; intros; try lra; try discriminate; reflexivity.
Qed.

(** The scaling of a clamped value, and what the store makes of it. *)
Lemma scale_value (c : Q) :
  (-1 <= c)%Q -> (c <= 1)%Q ->
  exists v, scale (Fin c) = Fin v /\
    ((c < 0)%Q -> (v == c * 32768)%Q) /\ ((0 <= c)%Q -> (v == c * 32767)%Q) /\
    ToInt16 (Fin v) = truncate v /\ -32768 <= truncate v <= 32767.
Proof.
  intros Hlo Hhi.
  destruct (scale_range c Hlo Hhi) as (v & Hv & Hvlo & Hvhi).
  exists v. split; [exact Hv |].
  pose proof (truncate_bounds v _ _ Hvlo Hvhi) as Hrange.
  assert (Hstore : ToInt16 (Fin v) = truncate v).
  { cbn [ToInt16]. now apply wrap16_in_range. }
  unfold scale in Hv.
  destruct (lt (Fin c) (Fin 0)) eqn:Hneg; cbn [mul] in Hv; injection Hv as <-.
  - apply lt_Fin in Hneg.
    split; [intros _; reflexivity |]. split; [intros H; lra | easy].
  - apply lt_Fin_false in Hneg.
    split; [intros H; lra |]. split; [intros _; reflexivity | easy].
Qed.

(** The products of the quantiser are exact in double arithmetic: a
    float has 24 significant bits and the factor fewer than 17, so the
    rounding that follows the multiplication changes nothing. *)
Lemma scale_product_exact (q : Q) (k : Z) :
  binary32 q = Fin q -> Z.abs k <= 2 ^ 16 ->
  exists x, fmul (Fin q) (Fin (inject_Z k)) = Fin x /\ (x == q * inject_Z k)%Q.
Proof.
  intros H Hk. unfold fmul. cbn [mul round64].
  destruct (round_to_value _ _ _ _ _ H)
    as [_ [Hz | (m & e & Ex & He & Hmag & Hmax & _)]].
  { exists 0%Q. split; [| rewrite Hz; ring].
    apply round_to_zero. rewrite Hz. ring. }
  exists (Qred (q * inject_Z k)). split; [| apply Qred_correct].
  assert (Hkq : (Qabs (inject_Z k) <= 2 ^ 16)%Q).
  { change (Qabs (inject_Z k)) with (inject_Z (Z.abs k)).
    rewrite (pow2_inject 16) by lia. now rewrite <- Zle_Qle. }
  pose proof (Qabs_nonneg q) as Q0. pose proof (Qabs_nonneg (inject_Z k)) as K0.
  pose proof (pow2_pos 16) as P16.
  assert (Hprod : forall A : Q, (Qabs q < A)%Q ->
            (Qabs (q * inject_Z k) < A * 2 ^ 16)%Q).
  { intros A HA. rewrite Qabs_Qmult.
    set (a := Qabs q) in *. set (b := Qabs (inject_Z k)) in *.
    set (c := (2 ^ 16)%Q) in *. nra. }
  apply (round_to_exact 53 (-1074) 1024 _ e (m * k)).
  - rewrite inject_Z_mult, Ex. ring.
  - lia.
  - apply Qlt_le_trans with (2 ^ (e + 24) * 2 ^ 16)%Q; [now apply Hprod |].
    rewrite <- pow2_add. apply pow2_le. lia.
  - apply Qlt_le_trans with (2 ^ 128 * 2 ^ 16)%Q; [now apply Hprod |].
    rewrite <- pow2_add. apply pow2_le. lia.
Qed.

(** What the quantiser stores for one sample. *)
Lemma quantised_sample (x : number) :
  let y := ToInt16 (scale (clamp x)) in
  -32768 <= y <= 32767 /\
  match x with
  | NaN => y = 0
  | Inf true => y = -32768
  | Inf false => y = 32767
  | Fin q =>
      ((q <= -1)%Q -> y = -32768) /\
      ((-1 <= q)%Q -> (q < 0)%Q -> y = truncate (q * 32768)) /\
      ((0 <= q)%Q -> (q <= 1)%Q -> y = truncate (q * 32767)) /\
      ((1 <= q)%Q -> y = 32767)
  end.
Proof.
  cbv zeta. destruct x as [ | [ | ] | q].
  - cbn. lia.
  - vm_compute. split; [split; discriminate | reflexivity].
  - vm_compute. split; [split; discriminate | reflexivity].
  - destruct (clamp_value (Fin q)) as (c & -> & Hclo & Hchi & A & B & C); [discriminate |].
    destruct (scale_value c Hclo Hchi) as (v & -> & Hn & Hp & -> & Hrange).
    split; [exact Hrange |]. split; [| split; [| split]].
    + intros Hq. specialize (A Hq). specialize (Hn ltac:(lra)).
      apply truncate_integer. change (inject_Z (-32768)) with (-32768)%Q. lra.
    + intros H1 H2. specialize (C H1 ltac:(lra)). specialize (Hn ltac:(lra)).
      apply truncate_comp. lra.
    + intros H1 H2. specialize (C ltac:(lra) H2). specialize (Hp ltac:(lra)).
      apply truncate_comp. lra.
    + intros Hq. specialize (B Hq). specialize (Hp ltac:(lra)).
      apply truncate_integer. change (inject_Z 32767) with 32767%Q. lra.
Qed.

(** Claim C8.  The quantiser keeps the length, and for every sample: a
    value at or below -1 (or minus infinity) is clamped to -1 and stored
    as -32768; a value at or above 1 (or plus infinity) is clamped to 1
    and stored as 32767; a value of the closed range is left as it is,
    multiplied by 32768 if it is negative and by 32767 otherwise, and
    the product is truncated towards zero; NaN is stored as 0.  Every
    stored value lies between -32768 and 32767: the 16-bit store never
    wraps. *)
Theorem float32ToInt16_in_range (float32 : Float32Array) :
  length (float32ToInt16 float32) = length float32 /\
  forall i : nat, (i < length float32)%nat ->
    let y := nth i (float32ToInt16 float32) 0 in
    -32768 <= y <= 32767 /\
    match nth i float32 NaN with
    | NaN => y = 0
    | Inf true => y = -32768
    | Inf false => y = 32767
    | Fin q =>
        ((q <= -1)%Q -> y = -32768) /\
        ((-1 <= q)%Q -> (q < 0)%Q -> y = truncate (q * 32768)) /\
        ((0 <= q)%Q -> (q <= 1)%Q -> y = truncate (q * 32767)) /\
        ((1 <= q)%Q -> y = 32767)
    end.
Proof.
  unfold float32ToInt16. split; [apply length_map |].
  intros i Hi. cbv zeta.
  rewrite (nth_indep _ 0 (ToInt16 (scale (clamp NaN)))) by (now rewrite length_map).
  rewrite (map_nth (fun x => ToInt16 (scale (clamp x)))).
  apply quantised_sample.
Qed.

(** Half of full scale on either side, two samples beyond the range, NaN
    and an infinity. *)
Lemma float32ToInt16_in_range_witness :
  float32ToInt16 [Fin (1 # 2); Fin (- (1 # 2)); Fin 2; Fin (-3); NaN; Inf false]
    = [16383; -16384; 32767; -32768; 0; 32767].
Proof.
  set (float32 := [Fin (1 # 2); Fin (- (1 # 2)); Fin 2; Fin (-3); NaN; Inf false]).
  destruct (float32ToInt16_in_range float32) as [Hlen Hval].
  destruct (float32ToInt16 float32) as [ | y0 [ | y1 [ | y2 [ | y3 [ | y4 [ | y5 [ | ? ?]]]]]]];
    try discriminate Hlen.
  destruct (Hval 0%nat ltac:(cbn; lia)) as (_ & _ & _ & H0 & _).
  destruct (Hval 1%nat ltac:(cbn; lia)) as (_ & _ & H1 & _).
  destruct (Hval 2%nat ltac:(cbn; lia)) as (_ & _ & _ & _ & H2).
  destruct (Hval 3%nat ltac:(cbn; lia)) as (_ & H3 & _).
  destruct (Hval 4%nat ltac:(cbn; lia)) as (_ & H4).
  destruct (Hval 5%nat ltac:(cbn; lia)) as (_ & H5).
  cbn in H0, H1, H2, H3, H4, H5.
  rewrite (H0 ltac:(discriminate) ltac:(discriminate)).
  rewrite (H1 ltac:(discriminate) ltac:(reflexivity)).
  rewrite (H2 ltac:(discriminate)), (H3 ltac:(discriminate)), H4, H5.
  reflexivity.
Defined.

(** ** Teardown *)

Lemma completed_prefix_all env stages :
  all_complete env stages -> completed_prefix env stages = stages.
Proof.
  induction stages as [ | s rest IH]; intros H; cbn; [reflexivity |].
  rewrite (H s) by now left. f_equal. apply IH. intros x Hx. apply H. now right.
Qed.

Lemma all_complete_cons env s rest :
  all_complete env (s :: rest) <-> env s = Completes /\ all_complete env rest.
Proof.
  unfold all_complete. split.
  - intros H. split; [apply H; now left | intros x Hx; apply H; now right].
  - intros [Hs Hr] x [<- | Hx]; [exact Hs | now apply Hr].
Qed.

Lemma all_complete_nil env : all_complete env [].
Proof. intros s []. Qed.

(** [stop_tracks] stops the tracks in order until one throws. *)
Lemma stop_tracks_released env n : forall i r,
  released (state_of (stop_tracks env i n r)) =
    released r ++ completed_prefix env (map TrackStage (seq i n)).
Proof.
  induction n as [ | n IH]; intros i r; cbn.
  - now rewrite app_nil_r.
  - unfold call. destruct (env (TrackStage i)); cbn.
    + rewrite IH. cbn. now rewrite <- app_assoc.
    + now rewrite app_nil_r.
Qed.

Lemma stop_tracks_outcome env n : forall i r,
  (all_complete env (map TrackStage (seq i n)) /\
   stop_tracks env i n r =
     Returned (mkRecorder (isRecording r) (processorRef r) (sourceRef r) (audioCtxRef r)
                 (streamRef r) (released r ++ map TrackStage (seq i n)))) \/
  (~ all_complete env (map TrackStage (seq i n)) /\
   exists r', stop_tracks env i n r = Threw r' /\
              released r' = released r ++ completed_prefix env (map TrackStage (seq i n))).
Proof.
  intros i r. pose proof (stop_tracks_released env n i r) as Hrel. revert i r Hrel.
  induction n as [ | n IH]; intros i r Hrel.
  - left. split; [apply all_complete_nil |]. cbn. rewrite app_nil_r. now destruct r.
  - revert Hrel. cbn [seq map stop_tracks]. unfold call.
    destruct (env (TrackStage i)) eqn:E; cbn [bind]; intros Hrel.
    + destruct (IH (S i) (mkRecorder (isRecording r) (processorRef r) (sourceRef r)
                            (audioCtxRef r) (streamRef r) (released r ++ [TrackStage i])))
        as [[Hall Hret] | [Hnot (r' & Hthrew & _)]].
      * apply stop_tracks_released.
      * left. split; [now apply all_complete_cons |]. rewrite Hret. cbn.
        now rewrite <- app_assoc.
      * right. split; [rewrite all_complete_cons; tauto |].
        exists r'. split; [exact Hthrew |]. now rewrite Hthrew in Hrel.
    + right. split; [rewrite all_complete_cons; intros [H' _]; congruence |].
      exists r. split; [reflexivity |]. exact Hrel.
Qed.

(** The two ways [stopRecording] can end. *)
Lemma stopRecording_outcome (env : Environment) (r : Recorder) :
  (all_complete env (held r) /\
   stopRecording env r =
     Returned (mkRecorder false false false false None (released r ++ held r))) \/
  (~ all_complete env (held r) /\
   exists r', stopRecording env r = Threw r' /\
              released r' = released r ++ completed_prefix env (held r)).
Proof.
  destruct r as [rec p s c st rel]. unfold stopRecording, held.
  cbn [isRecording processorRef sourceRef audioCtxRef streamRef released].
  unfold call.
  destruct p; [destruct (env ProcessorStage) eqn:EP |]; cbn.
  all: destruct s; [destruct (env SourceStage) eqn:ES |]; cbn.
  all: destruct c; [destruct (env ContextStage) eqn:EC |]; cbn.
  all: destruct st as [n | ]; cbn.
  all: try match goal with
       | |- context [stop_tracks ?e 0 ?m ?R] =>
           destruct (stop_tracks_outcome e m 0%nat R)
             as [[Hall ->] | [Hnot (r' & -> & Hrel)]]; cbn in *
       end.
  all: rewrite ?all_complete_cons, ?EP, ?ES, ?EC; cbn; rewrite ?EP, ?ES, ?EC; cbn;
    rewrite ?EP, ?ES, ?EC; cbn.
  all: try (left; split; [ auto using all_complete_nil
                         | rewrite <- ?app_assoc, ?app_nil_r; reflexivity ]).
  all: try (right; split; [ intuition congruence
                          | eexists; split; [reflexivity | ];
                            rewrite ?Hrel, <- ?app_assoc, ?app_nil_r; reflexivity ]).
Qed.

Lemma stopRecording_returns (env : Environment) (r : Recorder) :
  all_complete env (held r) ->
  exists r', stopRecording env r = Returned r'.
Proof.
  intros Hall. destruct (stopRecording_outcome env r) as [[_ ->] | [Hnot _]].
  - now eexists.
  - contradiction.
Qed.

(** Claim C9, as the code has it.  The teardown calls are made in the
    order processor, source, context, tracks, with nothing to catch a
    throw.  The stages released are those held up to the first call that
    throws.  If no call throws, every held stage is released, every ref
    is cleared and the recording flag is reset; if one throws, the
    exception leaves [stopRecording]. *)
Theorem stopRecording_releases_in_order (env : Environment) (r : Recorder) :
  released (state_of (stopRecording env r)) =
    released r ++ completed_prefix env (held r) /\
  (all_complete env (held r) ->
   exists r', stopRecording env r = Returned r' /\ cleared r' /\
              released r' = released r ++ held r) /\
  (~ all_complete env (held r) -> exists r', stopRecording env r = Threw r').
Proof.
  destruct (stopRecording_outcome env r) as [[Hall ->] | [Hnot (r' & -> & Hrel)]];
    cbn [state_of released].
  - rewrite completed_prefix_all by exact Hall. split; [reflexivity |]. split.
    + intros _. eexists. split; [reflexivity |]. now unfold cleared.
    + intros Hnot. contradiction.
  - split; [exact Hrel |]. split.
    + intros Hall. contradiction.
    + intros _. now exists r'.
Qed.

Lemma no_throw_all_complete (stages : list Stage) : all_complete no_throw stages.
Proof. intros s _. reflexivity. Qed.

Lemma stopRecording_releases_in_order_witness :
  all_complete no_throw (held recording) /\
  exists r', stopRecording no_throw recording = Returned r' /\ cleared r' /\
             released r' = released recording ++ held recording.
Proof.
  split.
  - intros s _. reflexivity.
  - apply (stopRecording_releases_in_order no_throw recording).
    intros s _. reflexivity.
Defined.

(** With all four stages held, a throw from the first teardown call
    leaves the source node (and everything after it) unreleased. *)
Lemma stopRecording_abandons_later_stages :
  In SourceStage (held recording) /\
  ~ In SourceStage (released (state_of (stopRecording throwing_processor recording))).
Proof.
  split.
  - cbn. auto.
  - cbn. intros [].
Qed.

End RecorderFacts.

(* ===================================================================== *)
(** * Properties of the transport channel *)
(* ===================================================================== *)

Module TransportFacts.
Import Js Transport.

(** ** Backoff *)

Section Backoff.
Variable maxReconnectAttempts : Z.

(** An unintentional close below the cap schedules the retry of the
    current attempt. *)
Lemma close_schedules_retry a h :
  awaiting a h -> a < maxReconnectAttempts ->
  backing_off a (current_closed maxReconnectAttempts h).
Proof.
  intros (id & ws & Href & Hws & Hstate & Hhandler & Hint & Hatt & Hpend) Hlt.
  unfold current_closed, closed. rewrite Href, Hws.
  destruct h as [conn ref att tref int socks ns touts nt]. cbn in *. subst.
  assert (Hgo : (a <? maxReconnectAttempts) = true) by now apply Z.ltb_lt.
  destruct (readyState ws) eqn:E; [| | | congruence];
    rewrite Hhandler; unfold onclose_handler; cbn; rewrite Hgo; cbn;
    exists id, (set_readyState CLOSED ws), nt; cbn;
    rewrite lookup_insert_eq, insert_empty; easy.
Qed.

(** At the cap, a close schedules nothing. *)
Lemma close_gives_up a h :
  awaiting a h -> maxReconnectAttempts <= a ->
  timeouts (current_closed maxReconnectAttempts h) = ∅.
Proof.
  intros (id & ws & Href & Hws & Hstate & Hhandler & Hint & Hatt & Hpend) Hge.
  unfold current_closed, closed. rewrite Href, Hws.
  destruct h as [conn ref att tref int socks ns touts nt]. cbn in *. subst.
  assert (Hstop : (a <? maxReconnectAttempts) = false) by now apply Z.ltb_ge.
  destruct (readyState ws) eqn:E; [| | | congruence];
    rewrite Hhandler; unfold onclose_handler; cbn; rewrite Hstop; reflexivity.
Qed.

(** When the retry fires, the counter goes up by one and a fresh socket
    replaces the closed one. *)
Lemma retry_reconnects a h :
  backing_off a h -> awaiting (a + 1) (retry_fired h).
Proof.
  intros (id & ws & tid & Href & Hws & Hstate & Htref & Hpend & Hint & Hatt).
  unfold retry_fired, timeout_fired. rewrite Htref, Hpend, lookup_singleton_eq.
  destruct h as [conn ref att tref int socks ns touts nt]. cbn in *. subst.
  unfold reconnect_callback, connect, current_is_open. cbn.
  rewrite Hws, Hstate. cbn.
  exists ns, createWebSocket. cbn.
  rewrite lookup_insert_eq, delete_singleton_eq. easy.
Qed.

Lemma closes_back_off (h : Hook) (n : nat) :
  awaiting 0 h -> Z.of_nat (S n) <= maxReconnectAttempts ->
  backing_off (Z.of_nat n) (consecutive_closes maxReconnectAttempts (S n) h).
Proof.
  intros Hh. induction n as [ | n IH]; intros Hle.
  - apply close_schedules_retry; [exact Hh | lia].
  - change (consecutive_closes maxReconnectAttempts (S (S n)) h)
      with (current_closed maxReconnectAttempts
              (retry_fired (consecutive_closes maxReconnectAttempts (S n) h))).
    apply close_schedules_retry; [| lia].
    replace (Z.of_nat (S n)) with (Z.of_nat n + 1) by lia.
    apply retry_reconnects, IH. lia.
Qed.

Lemma backing_off_delay a h :
  backing_off a h ->
  scheduled_delay h = Some (RECONNECT_BASE_DELAY * 2 ^ a) /\
  reconnectAttemptsRef h = a.
Proof.
  intros (id & ws & tid & Href & Hws & Hstate & Htref & Hpend & Hint & Hatt).
  unfold scheduled_delay. rewrite Htref, Hpend, lookup_singleton_eq. easy.
Qed.

(** Claim C2.  Start with a live socket, the counter at 0 and nothing
    pending, and let the socket close unintentionally [N] times in a row,
    each retry firing before the next close and no socket ever opening.
    While [N] is at most the cap, the [N]th close schedules a retry after
    [RECONNECT_BASE_DELAY * 2 ^ (N - 1)] with the counter at [N - 1]; the
    close after the cap leaves nothing pending.  In any state, a close
    with the counter at or above the cap schedules nothing, and the open
    event of a connecting socket resets the counter to 0. *)
Theorem reconnect_backoff_schedule (h : Hook) :
  awaiting 0 h ->
  (forall N : nat, 1 <= Z.of_nat N <= maxReconnectAttempts ->
     scheduled_delay (consecutive_closes maxReconnectAttempts N h)
       = Some (RECONNECT_BASE_DELAY * 2 ^ (Z.of_nat N - 1)) /\
     reconnectAttemptsRef (consecutive_closes maxReconnectAttempts N h)
       = Z.of_nat N - 1) /\
  (forall N : nat, Z.of_nat N = maxReconnectAttempts + 1 ->
     timeouts (consecutive_closes maxReconnectAttempts N h) = ∅) /\
  (forall (g : Hook) (id : nat),
     maxReconnectAttempts <= reconnectAttemptsRef g ->
     timeouts (closed maxReconnectAttempts id g) = timeouts g) /\
  (forall (g : Hook) (id : nat) (ws : WebSocket),
     sockets g !! id = Some ws -> readyState ws = CONNECTING ->
     reconnectAttemptsRef (opened id g) = 0).
Proof.
  intros Hh. repeat split.
  - destruct N as [ | n]; [lia |].
    replace (Z.of_nat (S n) - 1) with (Z.of_nat n) by lia.
    apply backing_off_delay, closes_back_off; [exact Hh | lia].
  - destruct N as [ | n]; [lia |].
    replace (Z.of_nat (S n) - 1) with (Z.of_nat n) by lia.
    apply backing_off_delay, closes_back_off; [exact Hh | lia].
  - intros N HN. destruct N as [ | [ | n]].
    + destruct Hh as (id & ws & H). cbn. tauto.
    + apply (close_gives_up 0); [exact Hh | lia].
    + change (consecutive_closes maxReconnectAttempts (S (S n)) h)
        with (current_closed maxReconnectAttempts
                (retry_fired (consecutive_closes maxReconnectAttempts (S n) h))).
      apply (close_gives_up (Z.of_nat n + 1)); [| lia].
      apply retry_reconnects, closes_back_off; [exact Hh | lia].
  - intros g id Hge. unfold closed.
    destruct (sockets g !! id) as [ws | ]; [| reflexivity].
    assert (Hstop : (reconnectAttemptsRef g <? maxReconnectAttempts) = false)
      by now apply Z.ltb_ge.
    destruct (readyState ws), (onclose ws); try reflexivity;
      unfold onclose_handler; cbn; rewrite Hstop, andb_false_r; reflexivity.
  - intros g id ws Hws Hstate. unfold opened. rewrite Hws, Hstate. reflexivity.
Qed.

End Backoff.

(** With the default cap, the delays after a first [connect] are 1 s,
    2 s, 4 s, 8 s and 16 s, and the sixth close schedules nothing. *)
Lemma default_backoff_schedule :
  map (fun N => scheduled_delay
                  (consecutive_closes (maxReconnectAttempts_of None) N (connect initial)))
      [1; 2; 3; 4; 5; 6]%nat
  = [Some 1000; Some 2000; Some 4000; Some 8000; Some 16000; None].
Proof. vm_compute. reflexivity. Qed.

(** With the default cap, the third close in a row after a first
    [connect] schedules its retry after 4000 ms. *)
Lemma reconnect_backoff_schedule_witness :
  awaiting 0 (connect initial) /\
  scheduled_delay (consecutive_closes (maxReconnectAttempts_of None) 3 (connect initial))
    = Some 4000 /\
  reconnectAttemptsRef (consecutive_closes (maxReconnectAttempts_of None) 3 (connect initial))
    = 2.
Proof.
  assert (Hready : awaiting 0 (connect initial)).
  { exists 0%nat, createWebSocket. cbn. repeat split; try reflexivity. discriminate. }
  split; [exact Hready |].
  refine (proj1 (reconnect_backoff_schedule (maxReconnectAttempts_of None)
                   (connect initial) Hready) 3%nat _).
  cbn. lia.
Defined.

(** ** Intentional close *)

(** [disconnect] cancels the retry it knows about.  If that is the only
    one pending, nothing is left. *)
Lemma disconnect_cancels_tracked (h : Hook) :
  tracked h ->
  suppressed (disconnect h) /\ reconnectAttemptsRef (disconnect h) = 0 /\
  reconnectTimerRef (disconnect h) = None /\ wsRef (disconnect h) = None /\
  nextSocket (disconnect h) = nextSocket h.
Proof.
  intros Htracked. destruct h as [conn ref att tref int socks ns touts nt].
  unfold tracked in Htracked. cbn in Htracked.
  assert (Hcleared : match tref with Some tid => delete tid touts | None => touts end = ∅).
  { apply map_eq. intros tid. rewrite lookup_empty.
    destruct (match tref with Some tid => delete tid touts | None => touts end !! tid)
      eqn:E; [exfalso | reflexivity].
    destruct tref as [tid' | ].
    - apply lookup_delete_Some in E as [Hne E].
      specialize (Htracked tid (ex_intro _ _ E)). congruence.
    - specialize (Htracked tid (ex_intro _ _ E)). congruence. }
  unfold disconnect, suppressed. destruct tref, ref; cbn in *; rewrite ?Hcleared; easy.
Qed.

(** The retry loop on its own keeps every pending timeout tracked. *)
Lemma backing_off_tracked a h : backing_off a h -> tracked h.
Proof.
  intros (id & ws & tid & _ & _ & _ & Htref & Hpend & _) tid' [d Hd].
  rewrite Hpend in Hd. apply lookup_singleton_Some in Hd as [<- _]. exact Htref.
Qed.

Lemma awaiting_tracked a h : awaiting a h -> tracked h.
Proof.
  intros (id & ws & _ & _ & _ & _ & _ & _ & Hpend) tid [d Hd].
  rewrite Hpend, lookup_empty in Hd. discriminate.
Qed.

Section Quiet.
Variable maxReconnectAttempts : Z.

(** Once reconnection is off, only [connect] can turn it back on: no
    other event creates a socket or schedules a timeout. *)
Lemma suppressed_step (h : Hook) (e : Event) :
  is_connect e = false -> suppressed h ->
  suppressed (step maxReconnectAttempts h e) /\
  nextSocket (step maxReconnectAttempts h e) = nextSocket h.
Proof.
  intros He [Hint Hpend].
  destruct h as [conn ref att tref int socks ns touts nt]. cbn in Hint, Hpend. subst.
  destruct e; try discriminate; unfold suppressed; cbn.
  - unfold opened; cbn. destruct (socks !! id) as [ws | ]; [| easy].
    destruct (readyState ws); easy.
  - unfold closed; cbn. destruct (socks !! id) as [ws | ]; [| easy].
    destruct (readyState ws), (onclose ws); easy.
  - unfold timeout_fired; cbn. now rewrite lookup_empty.
  - unfold disconnect; cbn. destruct tref, ref; cbn; rewrite ?delete_empty; easy.
  - unfold unmount, disconnect; cbn. destruct tref, ref; cbn; rewrite ?delete_empty; easy.
  - unfold sendMessage, send_frame. destruct (current_is_open _); [| easy].
    cbn. destruct ref; easy.
  - unfold sendAudio, send_frame. destruct (current_is_open _); [| easy].
    cbn. destruct ref; easy.
Qed.

Lemma suppressed_run (events : list Event) : forall h,
  forallb (fun e => negb (is_connect e)) events = true -> suppressed h ->
  suppressed (run maxReconnectAttempts events h) /\
  nextSocket (run maxReconnectAttempts events h) = nextSocket h.
Proof.
  induction events as [ | e rest IH]; intros h Hev Hs; [easy |].
  cbn in Hev. apply andb_true_iff in Hev as [He Hrest].
  apply negb_true_iff in He.
  destruct (suppressed_step h e He Hs) as [Hs' Hn].
  destruct (IH _ Hrest Hs') as [Hs'' Hn'].
  unfold run in *. cbn [fold_left]. split; [exact Hs'' | congruence].
Qed.

End Quiet.

(** Claim C3, on the trace that breaks it.  [connect] does not cancel a
    pending retry and the close handler overwrites [reconnectTimerRef]:
    after [connect], a failed socket, a second [connect] and a second
    failed socket, two retries are pending and the ref records the
    second.  [disconnect] cancels that one, resets the counter and sets
    the flag, and the first retry is still pending.  When it fires it
    opens a third socket and clears the intentional-close flag. *)
Theorem orphaned_retry_survives_disconnect :
  let max := maxReconnectAttempts_of None in
  let h := run max [Connect; Closed 0; Connect; Closed 1; Disconnect] initial in
  intentionalCloseRef h = true /\ reconnectTimerRef h = None /\ wsRef h = None /\
  reconnectAttemptsRef h = 0 /\
  timeouts h = {[1%nat := 1000]} /\ nextSocket h = 2%nat /\
  let h' := step max h (TimeoutFired 1) in
  wsRef h' = Some 2%nat /\ sockets h' !! 2%nat = Some createWebSocket /\
  nextSocket h' = 3%nat /\
  intentionalCloseRef h' = false /\ reconnectAttemptsRef h' = 1.
Proof. vm_compute. repeat split; reflexivity. Qed.

(** ** Sending *)

Lemma not_open_guard (h : Hook) : not_open h -> current_is_open h = false.
Proof.
  unfold current_is_open. intros [-> | (id & -> & Hws)]; [reflexivity |].
  destruct (sockets h !! id) as [ws | ]; [| reflexivity].
  specialize (Hws ws eq_refl). now destruct (readyState ws).
Qed.

Lemma not_open_guard_v1 (h : TransportV1.Hook) :
  TransportV1.not_open h -> TransportV1.current_is_open h = false.
Proof.
  unfold TransportV1.current_is_open. intros [-> | (id & -> & Hws)]; [reflexivity |].
  destruct (TransportV1.sockets h !! id) as [ws | ]; [| reflexivity].
  specialize (Hws ws eq_refl). now destruct (readyState ws).
Qed.

(** Claim C10.  In both versions of the hook, when the socket is absent
    or not OPEN, [sendMessage], [sendAudio] and the five commands built
    on [sendMessage] return the hook exactly as it was: nothing is sent,
    nothing is queued, nothing is raised. *)
Theorem send_dropped_unless_open :
  (forall h : Hook, not_open h ->
     (forall message, sendMessage message h = h) /\
     (forall audioData, sendAudio audioData h = h) /\
     (forall text speaker, sendTranscript text speaker h = h) /\
     endSession h = h /\ pauseSession h = h /\ resumeSession h = h /\
     triggerSafetyCheck h = h) /\
  (forall h : TransportV1.Hook, TransportV1.not_open h ->
     (forall message, TransportV1.sendMessage message h = h) /\
     (forall audioData, TransportV1.sendAudio audioData h = h) /\
     (forall text speaker, TransportV1.sendTranscript text speaker h = h) /\
     TransportV1.endSession h = h /\ TransportV1.pauseSession h = h /\
     TransportV1.resumeSession h = h /\ TransportV1.triggerSafetyCheck h = h).
Proof.
  split; intros h Hclosed.
  - apply not_open_guard in Hclosed.
    unfold sendTranscript, endSession, pauseSession, resumeSession, triggerSafetyCheck,
      sendMessage, sendAudio, send_frame.
    rewrite Hclosed. easy.
  - apply not_open_guard_v1 in Hclosed.
    unfold TransportV1.sendTranscript, TransportV1.endSession, TransportV1.pauseSession,
      TransportV1.resumeSession, TransportV1.triggerSafetyCheck,
      TransportV1.sendMessage, TransportV1.sendAudio, TransportV1.send_frame.
    rewrite Hclosed. easy.
Qed.

(** A socket that is still connecting takes no frame, and neither does a
    hook that never connected. *)
Lemma send_dropped_unless_open_witness :
  (not_open (connect initial) /\
   sendAudio [x00; x01] (connect initial) = connect initial /\
   pauseSession (connect initial) = connect initial) /\
  (TransportV1.not_open (TransportV1.mkHook false None ∅ 0) /\
   TransportV1.sendMessage [("type", "end")]%string (TransportV1.mkHook false None ∅ 0)
     = TransportV1.mkHook false None ∅ 0).
Proof.
  assert (H2 : not_open (connect initial)).
  { right. exists 0%nat. split; [reflexivity |].
    intros ws Hws. vm_compute in Hws. injection Hws as <-. discriminate. }
  assert (H1 : TransportV1.not_open (TransportV1.mkHook false None ∅ 0)).
  { left. reflexivity. }
  destruct send_dropped_unless_open as [Hv2 Hv1].
  split.
  - split; [exact H2 |]. split; apply (Hv2 (connect initial) H2).
  - split; [exact H1 |]. apply (Hv1 _ H1).
Defined.

End TransportFacts.

(* ===================================================================== *)
(** * Properties of the playback accumulator *)
(* ===================================================================== *)

Module PlayerFacts.
Import Js Player.

Lemma clearTimeout_pending playing chunks ref now tid due next flushed :
  clearTimeout tid (mkPlayer playing chunks ref now [(tid, due)] next flushed) =
  mkPlayer playing chunks ref now [] next flushed.
Proof.
  unfold clearTimeout, set_timeouts. cbn. now rewrite Nat.eqb_refl.
Qed.

Lemma playAudioChunk_rearms playing chunks now tid due next flushed data :
  playAudioChunk data (mkPlayer playing chunks (Some tid) now [(tid, due)] next flushed) =
  mkPlayer playing (chunks ++ [data]) (Some next) now
           [(next, now + QUIET_INTERVAL)] (S next) flushed.
Proof.
  unfold playAudioChunk, set_chunksRef.
  cbn [flushTimerRef isPlaying chunksRef clock timeouts nextTimeout decoded].
  rewrite clearTimeout_pending. reflexivity.
Qed.

Lemma playAudioChunk_arms playing chunks now next flushed data :
  playAudioChunk data (mkPlayer playing chunks None now [] next flushed) =
  mkPlayer playing (chunks ++ [data]) (Some next) now
           [(next, now + QUIET_INTERVAL)] (S next) flushed.
Proof. reflexivity. Qed.

Lemma flush_callback_plays playing chunk chunks ref now pending next flushed :
  flush_callback (mkPlayer playing (chunk :: chunks) ref now pending next flushed) =
  mkPlayer true [] None now pending next (flushed ++ [(now, concat (chunk :: chunks))]).
Proof. reflexivity. Qed.

Lemma fire_pending is_due playing chunk chunks ref now tid due next flushed :
  fire is_due [(tid, due)]
       (mkPlayer playing (chunk :: chunks) ref now [(tid, due)] next flushed) =
  if is_due due
  then mkPlayer true [] None due [] next (flushed ++ [(due, concat (chunk :: chunks))])
  else mkPlayer playing (chunk :: chunks) ref now [(tid, due)] next flushed.
Proof.
  cbn [fire]. destruct (is_due due); [| reflexivity].
  rewrite clearTimeout_pending. reflexivity.
Qed.

Lemma arrive_within_interval playing chunk current last tid flushed t data :
  last <= t -> t < last + QUIET_INTERVAL ->
  arrive (accumulating playing (chunk :: current) last tid flushed) (t, data) =
  accumulating playing ((chunk :: current) ++ [data]) t (S tid) flushed.
Proof.
  intros Hle Hlt. unfold arrive, advance, accumulating. cbn [fst snd timeouts].
  rewrite fire_pending.
  destruct (Z.leb_spec (last + QUIET_INTERVAL) t) as [H | H]; [lia |].
  unfold set_clock. cbn [isPlaying chunksRef flushTimerRef clock timeouts nextTimeout decoded].
  rewrite Z.max_r by lia. apply playAudioChunk_rearms.
Qed.

Lemma arrive_after_interval playing chunk current last tid flushed t data :
  last + QUIET_INTERVAL <= t ->
  arrive (accumulating playing (chunk :: current) last tid flushed) (t, data) =
  accumulating true [data] t (S tid)
    (flushed ++ [(last + QUIET_INTERVAL, concat (chunk :: current))]).
Proof.
  intros Hle. unfold arrive, advance, accumulating. cbn [fst snd timeouts].
  rewrite fire_pending.
  destruct (Z.leb_spec (last + QUIET_INTERVAL) t) as [H | H]; [| lia].
  unfold set_clock. cbn [isPlaying chunksRef flushTimerRef clock timeouts nextTimeout decoded].
  rewrite Z.max_r by lia. apply playAudioChunk_arms.
Qed.

Lemma quiesce_accumulating playing chunk current last tid flushed :
  quiesce (accumulating playing (chunk :: current) last tid flushed) =
  mkPlayer true [] None (last + QUIET_INTERVAL) [] (S tid)
    (flushed ++ [(last + QUIET_INTERVAL, concat (chunk :: current))]).
Proof.
  unfold quiesce, accumulating. cbn [timeouts]. apply fire_pending.
Qed.

Lemma first_arrival t data :
  0 <= t -> arrive initial (t, data) = accumulating false [data] t 1 [].
Proof.
  intros Ht. unfold arrive, advance, initial. cbn [fst snd timeouts fire].
  unfold set_clock. cbn [isPlaying chunksRef flushTimerRef clock timeouts nextTimeout decoded].
  rewrite Z.max_r by lia. apply playAudioChunk_arms.
Qed.

Lemma run_accumulating arrivals : forall playing chunk current last tid flushed,
  chronological last arrivals ->
  let p := run arrivals (accumulating playing (chunk :: current) last tid flushed) in
  decoded p = flushed ++ debounce_from (chunk :: current) last arrivals /\
  chunksRef p = [] /\ timeouts p = [] /\ flushTimerRef p = None.
Proof.
  induction arrivals as [ | [t data] rest IH];
    intros playing chunk current last tid flushed Hchron.
  - unfold run. cbn [fold_left]. rewrite quiesce_accumulating. cbn. easy.
  - destruct Hchron as [Hle Hrest].
    unfold run. cbn [fold_left debounce_from].
    destruct (Z.leb_spec (last + QUIET_INTERVAL) t) as [H | H].
    + rewrite arrive_after_interval by exact H.
      specialize (IH true data [] t (S tid)
                    (flushed ++ [(last + QUIET_INTERVAL, concat (chunk :: current))])
                    Hrest).
      cbv zeta in IH. unfold run in IH.
      rewrite <- app_assoc in IH. exact IH.
    + rewrite arrive_within_interval by lia.
      exact (IH playing chunk (current ++ [data]) t (S tid) flushed Hrest).
Qed.

(** The hook refines the debounce of the specification. *)
Lemma run_refines_debounce (arrivals : list (Z * ArrayBuffer)) :
  chronological 0 arrivals ->
  decoded (run arrivals initial) = debounce arrivals /\
  chunksRef (run arrivals initial) = [] /\
  timeouts (run arrivals initial) = [].
Proof.
  intros Hchron.
  destruct arrivals as [ | [t data] rest]; [easy |].
  destruct Hchron as [Ht Hrest].
  unfold run. cbn [fold_left]. rewrite first_arrival by exact Ht.
  pose proof (run_accumulating rest false data [] t 1%nat [] Hrest) as H.
  cbv zeta in H. unfold run in H. cbn [app] in H. cbn [debounce]. tauto.
Qed.

(** Claim C5.  For fragments arriving in chronological order, the
    buffers handed to the decoder, and the times at which they are, are
    those of a trailing-edge debounce with a quiet interval of 500 ms:
    the fragments are cut wherever 500 ms pass without an arrival, and
    each piece is flushed, concatenated in arrival order, 500 ms after
    its last fragment.  Every flush empties the buffer, and at the end
    nothing is buffered or pending.  Two fragments 100 ms apart make one
    flush; two fragments 600 ms apart make two. *)
Theorem playback_debounce (arrivals : list (Z * ArrayBuffer)) :
  chronological 0 arrivals ->
  decoded (run arrivals initial) = debounce arrivals /\
  chunksRef (run arrivals initial) = [] /\
  timeouts (run arrivals initial) = [] /\
  (forall p, chunksRef (playAccumulated p) = [] /\ chunksRef (flush_callback p) = []) /\
  (forall t a b, 0 <= t ->
     decoded (run [(t, a); (t + 100, b)] initial) = [(t + 600, a ++ b)] /\
     decoded (run [(t, a); (t + 600, b)] initial) = [(t + 500, a); (t + 1100, b)]).
Proof.
  intros Hchron.
  destruct (run_refines_debounce arrivals Hchron) as (Hd & Hc & Ht).
  repeat split; try assumption.
  - unfold playAccumulated. now destruct (chunksRef p).
  - unfold flush_callback, playAccumulated. cbn. now destruct (chunksRef p).
  - destruct (run_refines_debounce [(t, a); (t + 100, b)]) as [-> _].
    { cbn. lia. }
    cbn. destruct (Z.leb_spec (t + QUIET_INTERVAL) (t + 100)) as [H' | H'];
      [unfold QUIET_INTERVAL in H'; lia |].
    cbn. rewrite app_nil_r. unfold QUIET_INTERVAL. do 2 f_equal. lia.
  - destruct (run_refines_debounce [(t, a); (t + 600, b)]) as [-> _].
    { cbn. lia. }
    cbn. destruct (Z.leb_spec (t + QUIET_INTERVAL) (t + 600)) as [H' | H'];
      [| unfold QUIET_INTERVAL in H'; lia].
    cbn. rewrite !app_nil_r. unfold QUIET_INTERVAL. do 3 f_equal. lia.
Qed.

(** Three fragments at 0, 100 and 700 ms: the first two are played
    together at 600 ms, the third at 1200 ms. *)
Lemma playback_debounce_witness :
  let arrivals := [(0, [x01]); (100, [x02; x03]); (700, [x04])] in
  chronological 0 arrivals /\
  decoded (run arrivals initial) = debounce arrivals /\
  debounce arrivals = [(600, [x01; x02; x03]); (1200, [x04])].
Proof.
  cbv zeta.
  assert (Hchron : chronological 0 [(0, [x01]); (100, [x02; x03]); (700, [x04])])
    by (cbn; lia).
  split; [exact Hchron |]. split; [| reflexivity].
  exact (proj1 (playback_debounce _ Hchron)).
Defined.

End PlayerFacts.

(* ===================================================================== *)
(** * Properties of the session mirror *)
(* ===================================================================== *)

Module PageFacts.
Import Js Page.
Local Open Scope string_scope.

(** ** State changes *)

Lemma sessionState_state_change c now old_state new_state timestamp p :
  sessionState (handleWebSocketMessage c now
                  (StateChangeMessage old_state new_state timestamp) p) = new_state.
Proof.
  cbn. destruct (String.eqb new_state "PAUSED"), (String.eqb new_state "LISTENING"),
    (String.eqb new_state "INTERRUPTING"); reflexivity.
Qed.

Lemma last_cons_default {A} (l : list A) : forall x d,
  List.last (x :: l) d = List.last l x.
Proof.
  induction l as [ | y l IH]; intros x d; [reflexivity |].
  change (List.last (x :: y :: l) d) with (List.last (y :: l) d).
  rewrite (IH y d), (IH y x). reflexivity.
Qed.

Lemma last_recognized_last (states : list string) (default : string) :
  recognized (List.last states default) = true ->
  last_recognized default states = List.last states default.
Proof.
  destruct states as [ | s rest] using rev_ind; [reflexivity |].
  unfold last_recognized. rewrite fold_left_app, last_last. cbn.
  now intros ->.
Qed.

Lemma mirror_is_last (c : Closure) (now : Z) (changes : list (string * string)) :
  forall p,
  sessionState (run (state_change_events c now changes) p) =
  List.last (map snd changes) (sessionState p).
Proof.
  induction changes as [ | [old_state new_state] rest IH]; intros p.
  - reflexivity.
  - unfold run in *. cbn [state_change_events map fold_left step fst snd].
    unfold state_change_events in IH. rewrite IH, sessionState_state_change.
    symmetry. apply last_cons_default.
Qed.

(** Claim C1, as the code has it.  After any sequence of [state_change]
    events the mirrored state is the [new_state] of the last event,
    whatever its value: the handler stores the value without looking at
    it.  So the mirrored state is the last recognized [new_state] whenever
    the last event carries a recognized value. *)
Theorem mirror_follows_last_state_change (c : Closure) (now : Z)
    (changes : list (string * string)) (p : PageState) :
  sessionState (run (state_change_events c now changes) p) =
    List.last (map snd changes) (sessionState p) /\
  (recognized (List.last (map snd changes) (sessionState p)) = true ->
   sessionState (run (state_change_events c now changes) p) =
     last_recognized (sessionState p) (map snd changes)).
Proof.
  split; [apply mirror_is_last |].
  intros Hrec. rewrite mirror_is_last. symmetry. now apply last_recognized_last.
Qed.

(** An unrecognized value between two recognized ones is mirrored and
    then replaced. *)
Lemma mirror_follows_last_state_change_witness :
  let changes := [("IDLE", "LISTENING"); ("LISTENING", "BOGUS"); ("BOGUS", "PAUSED")] in
  recognized (List.last (map snd changes) (sessionState initial)) = true /\
  sessionState (run (state_change_events (mkClosure None 0) 0 changes) initial) =
    last_recognized (sessionState initial) (map snd changes).
Proof.
  cbv zeta. split.
  - reflexivity.
  - apply (mirror_follows_last_state_change (mkClosure None 0) 0
             [("IDLE", "LISTENING"); ("LISTENING", "BOGUS"); ("BOGUS", "PAUSED")] initial).
    reflexivity.
Defined.

(** An unrecognized [new_state] replaces the last valid one. *)
Lemma unrecognized_state_is_mirrored :
  let changes := [("IDLE", "LISTENING"); ("LISTENING", "BOGUS")] in
  sessionState (run (state_change_events (mkClosure None 0) 0 changes) initial) <>
  last_recognized (sessionState initial) (map snd changes).
Proof. cbn. discriminate. Qed.

(** ** Completion *)

(** Claim C4, as the code has it.  In a session, the [consult_ended]
    event leaves the page in state COMPLETED, showing a summary built
    from the event with placeholder billing, the session id and socket
    untouched.  A successful end-consult call leaves it in state IDLE,
    showing the response, with the session id cleared and the socket
    disconnected.  Each path shows a summary.  When the event comes first
    and the call succeeds afterwards, the call's result replaces the
    event's. *)
Theorem completion_paths (p : PageState) (c : Closure) (now : Z)
    (soap : SOAPNote) (timestamp : string)
    (env : Recorder.Environment) (response : EndConsultResponse) :
  truthy (sessionId p) = true ->
  Recorder.all_complete env (Recorder.held (recorder p)) ->
  let by_event := handleWebSocketMessage c now (ConsultEndedMessage soap timestamp) p in
  let by_rest := handleEndConsult env (Some response) p in
  observable by_event = ("COMPLETED", Some (fabricated_summary c soap)) /\
  sessionId by_event = sessionId p /\ ws by_event = ws p /\
  observable by_rest = ("IDLE", Some response) /\
  sessionId by_rest = None /\ ws by_rest = Transport.disconnect (ws p) /\
  observable (handleEndConsult env (Some response) by_event) = ("IDLE", Some response).
Proof.
  intros Hsession Henv. cbv zeta.
  destruct (RecorderFacts.stopRecording_returns env (recorder p) Henv) as [r' Hr'].
  unfold handleEndConsult. cbn. rewrite Hsession, Hr'. cbn. easy.
Qed.

Lemma completion_paths_witness :
  let c := mkClosure (Some "S1") 125 in
  let response := mkEndConsultResponse "S1" empty_note (mkBillingInfo "INV-1" 150 "paid") 2 in
  truthy (sessionId in_session) = true /\
  Recorder.all_complete Recorder.no_throw (Recorder.held (recorder in_session)) /\
  observable (handleWebSocketMessage c 0 (ConsultEndedMessage empty_note "") in_session)
    = ("COMPLETED", Some (fabricated_summary c empty_note)) /\
  observable (handleEndConsult Recorder.no_throw (Some response) in_session)
    = ("IDLE", Some response).
Proof.
  cbv zeta. split; [reflexivity |]. split; [intros s _; reflexivity |].
  pose proof (completion_paths in_session (mkClosure (Some "S1") 125) 0 empty_note ""
                Recorder.no_throw
                (mkEndConsultResponse "S1" empty_note (mkBillingInfo "INV-1" 150 "paid") 2)
                eq_refl (fun s _ => eq_refl)) as H.
  cbv zeta in H. split; apply H.
Defined.

(** Even when the REST response is the very summary the event path
    builds, the two paths end in different session states. *)
Lemma terminal_states_differ :
  let c := mkClosure (Some "S1") 0 in
  observable (handleWebSocketMessage c 0 (ConsultEndedMessage empty_note "") in_session) <>
  observable (handleEndConsult Recorder.no_throw
                (Some (fabricated_summary c empty_note)) in_session).
Proof. cbn. intros H. discriminate H. Qed.

(** ** Elapsed time *)

Lemma timer_running_listening p :
  timer_running p = true ->
  truthy (sessionId p) = true /\ sessionState p = "LISTENING" /\ isPaused p = false.
Proof.
  unfold timer_running. rewrite !andb_true_iff, negb_true_iff, String.eqb_eq. tauto.
Qed.

Lemma ticks_idle (n : nat) p :
  timer_running p = false -> Nat.iter n tick p = p.
Proof.
  intros H. induction n as [ | n IH]; [reflexivity |].
  rewrite Nat.iter_succ, IH. unfold tick. now rewrite H.
Qed.

Lemma ticks_running (n : nat) p :
  timer_running p = true ->
  elapsedSeconds (Nat.iter n tick p) = elapsedSeconds p + Z.of_nat n /\
  timer_running (Nat.iter n tick p) = true.
Proof.
  intros H. induction n as [ | n [IHe IHr]]; [split; [cbn; lia | exact H] |].
  rewrite Nat.iter_succ. remember (Nat.iter n tick p) as q.
  unfold tick. rewrite IHr. split; [cbn; lia | exact IHr].
Qed.

Lemma message_keeps_elapsed c now message p :
  elapsedSeconds (handleWebSocketMessage c now message p) = elapsedSeconds p.
Proof.
  destruct message; cbn; try reflexivity.
  - destruct (String.eqb new_state "PAUSED"), (String.eqb new_state "LISTENING"),
      (String.eqb new_state "INTERRUPTING"); reflexivity.
  - destruct (medications intent); reflexivity.
Qed.

Lemma state_change_timer c now old_state new_state timestamp p :
  timer_running (handleWebSocketMessage c now
                   (StateChangeMessage old_state new_state timestamp) p) =
  truthy (sessionId p) && String.eqb new_state "LISTENING".
Proof.
  unfold timer_running. cbn.
  destruct (String.eqb new_state "LISTENING") eqn:E.
  - apply String.eqb_eq in E. subst. cbn. now rewrite andb_true_r.
  - destruct (String.eqb new_state "PAUSED"), (String.eqb new_state "INTERRUPTING");
      cbn; rewrite E; cbn; now rewrite ?andb_false_r.
Qed.

Lemma message_keeps_sessionId c now message p :
  sessionId (handleWebSocketMessage c now message p) = sessionId p.
Proof.
  destruct message; cbn; try reflexivity.
  - destruct (String.eqb new_state "PAUSED"), (String.eqb new_state "LISTENING"),
      (String.eqb new_state "INTERRUPTING"); reflexivity.
  - destruct (medications intent); reflexivity.
Qed.

Lemma run_app (events1 events2 : list Event) (p : PageState) :
  run (events1 ++ events2) p = run events2 (run events1 p).
Proof. unfold run. apply fold_left_app. Qed.

Lemma run_ticks (n : nat) : forall p, run (repeat Tick n) p = Nat.iter n tick p.
Proof.
  induction n as [ | n IH]; intros p; [reflexivity |].
  change (run (repeat Tick (S n)) p) with (run (repeat Tick n) (tick p)).
  rewrite IH. symmetry. apply Nat.iter_succ_r.
Qed.

(** Listening, a pause, listening again: the pause adds nothing. *)
Lemma pause_adds_nothing c now (k m n : nat) p :
  timer_running p = true ->
  elapsedSeconds
    (run (repeat Tick k ++
          [Message c now (StateChangeMessage "LISTENING" "PAUSED" "")] ++
          repeat Tick m ++
          [Message c now (StateChangeMessage "PAUSED" "LISTENING" "")] ++
          repeat Tick n) p)
  = elapsedSeconds p + Z.of_nat k + Z.of_nat n.
Proof.
  intros Hrun.
  rewrite !run_app, !run_ticks.
  destruct (ticks_running k p Hrun) as [Hk Hrunk].
  set (p1 := Nat.iter k tick p) in *.
  change (run [Message c now (StateChangeMessage "LISTENING" "PAUSED" "")] p1)
    with (handleWebSocketMessage c now (StateChangeMessage "LISTENING" "PAUSED" "") p1).
  set (p2 := handleWebSocketMessage c now (StateChangeMessage "LISTENING" "PAUSED" "") p1).
  assert (Hidle : timer_running p2 = false).
  { unfold p2. rewrite state_change_timer. apply andb_false_r. }
  rewrite (ticks_idle m p2 Hidle).
  change (run [Message c now (StateChangeMessage "PAUSED" "LISTENING" "")] p2)
    with (handleWebSocketMessage c now (StateChangeMessage "PAUSED" "LISTENING" "") p2).
  set (p3 := handleWebSocketMessage c now (StateChangeMessage "PAUSED" "LISTENING" "") p2).
  assert (Hsession : truthy (sessionId p1) = true)
    by now apply timer_running_listening.
  assert (Hagain : timer_running p3 = true).
  { unfold p3. rewrite state_change_timer. unfold p2.
    rewrite message_keeps_sessionId, Hsession. reflexivity. }
  destruct (ticks_running n p3 Hagain) as [Hn _].
  rewrite Hn. unfold p3, p2. rewrite !message_keeps_elapsed, Hk. reflexivity.
Qed.

(** Claim C6.  A tick adds one second exactly when the timer effect has
    an interval, which requires the mirrored state to be LISTENING and
    the paused flag to be off; no message changes the counter.  After a
    [state_change] away from LISTENING no number of ticks moves the
    counter; after a [state_change] back to LISTENING in a session, [n]
    ticks add exactly [n] to the value the counter had.  A pause of any
    length between two listening periods adds nothing. *)
Theorem elapsed_accrues_only_while_listening (p : PageState) :
  (elapsedSeconds (tick p) =
     if timer_running p then elapsedSeconds p + 1 else elapsedSeconds p) /\
  (timer_running p = true -> sessionState p = "LISTENING" /\ isPaused p = false) /\
  (forall c now message,
     elapsedSeconds (handleWebSocketMessage c now message p) = elapsedSeconds p) /\
  (forall c now old_state new_state timestamp (n : nat),
     new_state <> "LISTENING" ->
     elapsedSeconds
       (Nat.iter n tick
          (handleWebSocketMessage c now
             (StateChangeMessage old_state new_state timestamp) p)) = elapsedSeconds p) /\
  (forall c now old_state timestamp (n : nat),
     truthy (sessionId p) = true ->
     elapsedSeconds
       (Nat.iter n tick
          (handleWebSocketMessage c now
             (StateChangeMessage old_state "LISTENING" timestamp) p))
     = elapsedSeconds p + Z.of_nat n) /\
  (forall c now (k m n : nat),
     timer_running p = true ->
     elapsedSeconds
       (run (repeat Tick k ++
             [Message c now (StateChangeMessage "LISTENING" "PAUSED" "")] ++
             repeat Tick m ++
             [Message c now (StateChangeMessage "PAUSED" "LISTENING" "")] ++
             repeat Tick n) p)
     = elapsedSeconds p + Z.of_nat k + Z.of_nat n).
Proof.
  repeat split.
  - unfold tick. now destruct (timer_running p).
  - now apply timer_running_listening.
  - now apply timer_running_listening.
  - intros. apply message_keeps_elapsed.
  - intros c now old_state new_state timestamp n Hne.
    rewrite ticks_idle, message_keeps_elapsed; [reflexivity |].
    rewrite state_change_timer. apply String.eqb_neq in Hne. rewrite Hne.
    apply andb_false_r.
  - intros c now old_state timestamp n Hsession.
    destruct (ticks_running n
                (handleWebSocketMessage c now
                   (StateChangeMessage old_state "LISTENING" timestamp) p)) as [He _].
    + rewrite state_change_timer, Hsession. reflexivity.
    + rewrite He, message_keeps_elapsed. reflexivity.
  - intros c now k m n Hrun. now apply pause_adds_nothing.
Qed.

(** Three seconds of listening, a pause of ten, two more of listening:
    five seconds on the counter. *)
Lemma elapsed_accrues_only_while_listening_witness :
  let c := mkClosure (Some "S1") 0 in
  timer_running in_session = true /\
  elapsedSeconds
    (run (repeat Tick 3 ++
          [Message c 0 (StateChangeMessage "LISTENING" "PAUSED" "")] ++
          repeat Tick 10 ++
          [Message c 0 (StateChangeMessage "PAUSED" "LISTENING" "")] ++
          repeat Tick 2) in_session) = 5 /\
  elapsedSeconds
    (Nat.iter 7 tick
       (handleWebSocketMessage c 0 (StateChangeMessage "LISTENING" "PROCESSING" "")
          in_session)) = 0.
Proof.
  cbv zeta. split; [reflexivity |]. split.
  - apply (elapsed_accrues_only_while_listening in_session). reflexivity.
  - apply (elapsed_accrues_only_while_listening in_session). discriminate.
Defined.

End PageFacts.

(* ===================================================================== *)
(** * Properties of the capture hook *)
(* ===================================================================== *)

Module CaptureFacts.
Import Js Recorder Capture RoundingFacts RecorderFacts.

(** ** Resampling at arbitrary rates *)

Lemma Qeq_bool_false (x y : Q) : ~ (x == y)%Q -> Qeq_bool x y = false.
Proof.
  intros H. destruct (Qeq_bool x y) eqn:E; [| reflexivity].
  apply Qeq_bool_iff in E. contradiction.
Qed.

Lemma fdiv_positive (a b : Q) : (0 < b)%Q -> fdiv (Fin a) (Fin b) = binary64 (a / b).
Proof.
  intros Hb. unfold fdiv, div.
  assert (Hsign : Qsign b = Gt) by (unfold Qsign; now rewrite <- Qgt_alt).
  now rewrite Hsign.
Qed.

(** The ratio of two rates, as the code computes it. *)
Lemma ratio_bounds (s d : Q) :
  (0 < s)%Q -> (0 < d)%Q -> (2 ^ (-10) <= s / d)%Q -> (s / d <= 2 ^ 20)%Q ->
  exists r, fdiv (Fin s) (Fin d) = Fin r /\ (2 ^ (-11) <= r)%Q /\ (r <= 2 ^ 21)%Q.
Proof.
  intros Hs Hd Hlo Hhi. rewrite (fdiv_positive s d Hd).
  assert (H10 : (0 < 2 ^ (-10))%Q) by apply pow2_pos.
  destruct (binary64_near (s / d) 21) as (x & -> & _ & Xlo & Xhi).
  - lra.
  - apply Qle_trans with (2 ^ (-10))%Q; [apply pow2_le; lia | exact Hlo].
  - apply Qle_lt_trans with (2 ^ 20)%Q; [exact Hhi | apply pow2_lt; lia].
  - lia.
  - exists x. split; [reflexivity |].
    change (2 ^ (-53))%Q with (1 # 9007199254740992) in Xlo, Xhi.
    change (2 ^ (-10))%Q with (1 # 1024) in *. change (2 ^ (-11))%Q with (1 # 2048).
    change (2 ^ 20)%Q with 1048576%Q in *. change (2 ^ 21)%Q with 2097152%Q.
    split; lra.
Qed.

(** Below the rounded quotient, the scaled index stays clear of the
    length. *)
Lemma scaled_index_below (L i : Z) (r x1 : Q) :
  1 <= L < 2 ^ 32 -> (2 ^ (-11) <= r)%Q ->
  (x1 * r <= inject_Z L + inject_Z L * 2 ^ (-53))%Q ->
  0 <= i -> (inject_Z i + 1 <= x1 + (1 # 2))%Q ->
  (0 <= inject_Z i * r)%Q /\ (inject_Z i * r <= inject_Z L - 2 ^ (-13))%Q.
Proof.
  intros HL Hr Hx1 Hi0 Hi.
  change (2 ^ (-11))%Q with (1 # 2048) in Hr.
  change (2 ^ (-53))%Q with (1 # 9007199254740992) in Hx1.
  change (2 ^ (-13))%Q with (1 # 8192).
  assert (Hi0' : (0 <= inject_Z i)%Q)
    by (change 0%Q with (inject_Z 0); now rewrite <- Zle_Qle).
  assert (HLq : (inject_Z L < 4294967296)%Q).
  { change 4294967296%Q with (inject_Z (2 ^ 32)). rewrite <- Zlt_Qlt. lia. }
  assert (Hprod : (0 <= (x1 - (1 # 2) - inject_Z i) * r)%Q)
    by (apply Qmult_le_0_compat; lra).
  split; [apply Qmult_le_0_compat; lra |]. nra.
Qed.

Lemma Qfloor_nonneg (q : Q) : (0 <= q)%Q -> 0 <= Qfloor q.
Proof. intros H. rewrite <- (Qfloor_Z 0). now apply Qfloor_resp_le. Qed.

Lemma Qfloor_below (q : Q) (z : Z) : (q < inject_Z z)%Q -> Qfloor q < z.
Proof.
  intros H. rewrite Zlt_Qlt. eapply Qle_lt_trans; [apply Qfloor_le | exact H].
Qed.

(** A value between 0 and 1 rounds to a double between 0 and 1. *)
Lemma binary64_unit (q : Q) :
  (0 <= q)%Q -> (q <= 1)%Q ->
  exists x, binary64 q = Fin x /\ Qred x = x /\ (0 <= x)%Q /\ (x <= 1)%Q.
Proof.
  intros H0 H1.
  destruct (round_to_grid 53 (-1074) 1024 q (-52) 0 (2 ^ 52)) as (r & Hr & Rlo & Rhi).
  - lia.
  - rewrite Qabs_pos by exact H0. change (2 ^ (-52 + 53))%Q with 2%Q. lra.
  - change (inject_Z 0 * 2 ^ (-52))%Q with (0 * 2 ^ (-52))%Q. lra.
  - assert (E : (inject_Z (2 ^ 52) * 2 ^ (-52) == 1)%Q) by reflexivity. lra.
  - pose proof (pow2_pos 1024). change (inject_Z 0 * 2 ^ (-52))%Q with (0 * 2 ^ (-52))%Q. lra.
  - assert (E : (inject_Z (2 ^ 52) * 2 ^ (-52) == 1)%Q) by reflexivity.
    pose proof (pow2_le 0 1024 ltac:(lia)) as P. change (2 ^ 0)%Q with 1%Q in P.
    pose proof (pow2_lt 0 1 ltac:(lia)) as P1. change (2 ^ 0)%Q with 1%Q in P1.
    assert (P2 : (2 ^ 1 <= 2 ^ 1024)%Q) by (apply pow2_le; lia). lra.
  - exists (Qred r). unfold binary64. rewrite Hr.
    assert (E : (inject_Z (2 ^ 52) * 2 ^ (-52) == 1)%Q) by reflexivity.
    change (inject_Z 0 * 2 ^ (-52))%Q with (0 * 2 ^ (-52))%Q in Rlo.
    split; [reflexivity |]. split; [apply Qred_Qred |]. rewrite Qred_correct. lra.
Qed.

(** One iteration of the loop, for a position that stays clear of the
    end of the buffer: both reads are inside the buffer and both weights
    lie in the unit interval. *)
Lemma interpolate_in_bounds (buffer : Float32Array) (r : Q) (i : Z) :
  let L := Z.of_nat (length buffer) in
  L < 2 ^ 32 ->
  (0 <= inject_Z i * r)%Q -> (inject_Z i * r <= inject_Z L - 2 ^ (-13))%Q ->
  exists (low high : nat) (w f : Q),
    (low < length buffer)%nat /\ (low <= high)%nat /\ (high <= low + 1)%nat /\
    (high < length buffer)%nat /\
    (0 <= w)%Q /\ (w <= 1)%Q /\ (0 <= f)%Q /\ (f <= 1)%Q /\
    binary64 (1 + - f) = Fin w /\ (exists t, binary64 t = Fin f) /\
    interpolate buffer (Fin r) i =
      fround (fadd (fmul (nth low buffer NaN) (Fin w)) (fmul (nth high buffer NaN) (Fin f))).
Proof.
  intros L HL Hx0 HxL.
  assert (HLq : (inject_Z L < 2 ^ 32)%Q).
  { rewrite (pow2_inject 32) by lia. now rewrite <- Zlt_Qlt. }
  assert (E13 : (inject_Z (L * 2 ^ 13 - 1) * 2 ^ (-13) == inject_Z L - 2 ^ (-13))%Q).
  { replace (L * 2 ^ 13 - 1) with (L * 2 ^ 13 + -1) by lia.
    rewrite inject_Z_plus, inject_Z_mult.
    change (2 ^ (-13))%Q with (1 # 8192). change (inject_Z (2 ^ 13)) with 8192%Q.
    change (inject_Z (-1)) with (-1)%Q. field. }
  pose proof (pow2_pos (-13)) as P13.
  (* the position *)
  destruct (round_to_grid 53 (-1074) 1024 (inject_Z i * r) (-13) 0 (L * 2 ^ 13 - 1))
    as (x & Hx & Xlo & Xhi).
  { lia. }
  { rewrite Qabs_pos by exact Hx0.
    apply Qle_lt_trans with (inject_Z L); [lra |].
    apply Qlt_trans with (2 ^ 32)%Q; [exact HLq | apply pow2_lt; lia]. }
  { change (inject_Z 0 * 2 ^ (-13))%Q with (0 * 2 ^ (-13))%Q. lra. }
  { rewrite E13. exact HxL. }
  { pose proof (pow2_pos 1024). change (inject_Z 0 * 2 ^ (-13))%Q with (0 * 2 ^ (-13))%Q. lra. }
  { rewrite E13. pose proof (pow2_le 32 1024 ltac:(lia)). lra. }
  assert (Esrc : fmul (Fin (inject_Z i)) (Fin r) = Fin (Qred x)) by exact Hx.
  rewrite E13 in Xhi.
  change (inject_Z 0 * 2 ^ (-13))%Q with (0 * 2 ^ (-13))%Q in Xlo.
  assert (Xlo' : (0 <= Qred x)%Q) by (rewrite Qred_correct; lra).
  assert (Xhi' : (Qred x < inject_Z L)%Q) by (rewrite Qred_correct; lra).
  (* the two indices *)
  set (low := Qfloor (Qred x)).
  assert (Hlow : 0 <= low < L).
  { split; [now apply Qfloor_nonneg | now apply Qfloor_below]. }
  assert (Elow : Math_floor (Fin (Qred x)) = Fin (inject_Z low)) by reflexivity.
  (* the fraction and its complement *)
  assert (Hfrac : (0 <= Qred x + - inject_Z low)%Q /\ (Qred x + - inject_Z low <= 1)%Q).
  { pose proof (Qfloor_le (Qred x)) as F1. pose proof (Qlt_floor (Qred x)) as F2.
    fold low in F1, F2. rewrite inject_Z_plus in F2. change (inject_Z 1) with 1%Q in F2.
    lra. }
  destruct (binary64_unit _ (proj1 Hfrac) (proj2 Hfrac)) as (f & Hf & Hfred & Hf0 & Hf1).
  assert (Efrac : fsub (Fin (Qred x)) (Fin (inject_Z low)) = Fin f) by exact Hf.
  destruct (binary64_unit (1 + - f)) as (w & Hw & Hwred & Hw0 & Hw1); [lra | lra |].
  assert (Ew : fsub (Fin 1) (Fin f) = Fin w) by exact Hw.
  unfold interpolate. cbv zeta. fold L.
  rewrite Esrc, Elow, Efrac, Ew. rewrite fadd_one by lia. rewrite Math_min_Z.
  rewrite !get_Z by (fold L; lia).
  exists (Z.to_nat low), (Z.to_nat (Z.min (low + 1) (L - 1))), w, f.
  unfold L in *. repeat (split; [first [lia | assumption | eexists; exact Hf] |]).
  reflexivity.
Qed.

(** The resampler in the usual range of rates: the output is built from
    positions [i * ratio] that stay clear of the end of the buffer. *)
Lemma downsample_positions (buffer : Float32Array) (srcRate dstRate : Q) :
  (0 < srcRate)%Q -> (0 < dstRate)%Q -> ~ (srcRate == dstRate)%Q ->
  (2 ^ (-10) <= srcRate / dstRate)%Q -> (srcRate / dstRate <= 2 ^ 20)%Q ->
  Z.of_nat (length buffer) < 2 ^ 32 ->
  exists (r : Q) (n : nat),
    downsampleFloat32 buffer srcRate dstRate =
      Normal (map (fun i => interpolate buffer (Fin r) (Z.of_nat i)) (seq 0 n)) /\
    forall i : nat, (i < n)%nat ->
      (0 <= inject_Z (Z.of_nat i) * r)%Q /\
      (inject_Z (Z.of_nat i) * r <= inject_Z (Z.of_nat (length buffer)) - 2 ^ (-13))%Q.
Proof.
  intros Hs Hd Hne Hlo Hhi HL.
  unfold downsampleFloat32. rewrite (Qeq_bool_false _ _ Hne).
  destruct (ratio_bounds srcRate dstRate Hs Hd Hlo Hhi) as (r & -> & Hr1 & Hr2).
  cbv zeta. exists r.
  set (L := Z.of_nat (length buffer)) in *.
  assert (Hrpos : (0 < r)%Q) by (pose proof (pow2_pos (-11)); lra).
  rewrite (fdiv_positive _ r Hrpos).
  destruct (Z.eq_dec L 0) as [HL0 | HL0].
  - (* an empty buffer *)
    assert (Ez : (inject_Z L / r == 0)%Q) by (rewrite HL0; field; lra).
    unfold binary64. rewrite (round_to_zero 53 (-1074) 1024 _ Ez).
    exists 0%nat. split; [reflexivity |]. intros i Hi. lia.
  - assert (HL1 : 1 <= L) by (unfold L in *; lia).
    assert (HLq : (1 <= inject_Z L)%Q /\ (inject_Z L < 2 ^ 32)%Q).
    { split; [change 1%Q with (inject_Z 1); rewrite <- Zle_Qle; lia |].
      rewrite (pow2_inject 32) by lia. now rewrite <- Zlt_Qlt. }
    set (q1 := (inject_Z L / r)%Q).
    assert (Eq1 : (q1 * r == inject_Z L)%Q) by (unfold q1; field; lra).
    assert (Hq1lo : (2 ^ (-21) <= q1)%Q).
    { unfold q1. apply Qle_shift_div_l; [exact Hrpos |].
      change (2 ^ (-21))%Q with (1 # 2097152). change (2 ^ 21)%Q with 2097152%Q in Hr2.
      nra. }
    assert (Hq1hi : (q1 < 2 ^ 44)%Q).
    { unfold q1. apply Qlt_shift_div_r; [exact Hrpos |].
      change (2 ^ 44)%Q with 17592186044416%Q. change (2 ^ (-11))%Q with (1 # 2048) in Hr1.
      change (2 ^ 32)%Q with 4294967296%Q in HLq. nra. }
    destruct (binary64_near q1 44) as (x1 & -> & _ & X1lo & X1hi).
    { pose proof (pow2_pos (-21)). lra. }
    { apply Qle_trans with (2 ^ (-21))%Q; [apply pow2_le; lia | exact Hq1lo]. }
    { exact Hq1hi. }
    { lia. }
    assert (Hx1r : (x1 * r <= inject_Z L + inject_Z L * 2 ^ (-53))%Q).
    { apply Qle_trans with ((q1 + q1 * 2 ^ (-53)) * r)%Q.
      - apply Qmult_le_compat_r; lra.
      - rewrite <- Eq1. apply Qle_lteq. right. ring. }
    unfold Math_round. set (n := Qfloor (x1 + (1 # 2))).
    assert (Hx1pos : (0 <= x1)%Q).
    { change (2 ^ (-53))%Q with (1 # 9007199254740992) in X1lo.
      pose proof (pow2_pos (-21)). lra. }
    assert (Hn : 0 <= n < 2 ^ 53).
    { split; [apply Qfloor_nonneg; lra |]. apply Qfloor_below.
      change (inject_Z (2 ^ 53)) with 9007199254740992%Q.
      change (2 ^ (-53))%Q with (1 # 9007199254740992) in X1hi.
      change (2 ^ 44)%Q with 17592186044416%Q in Hq1hi. lra. }
    rewrite (new_Float32Array_Z n Hn).
    exists (Z.to_nat n). split; [reflexivity |].
    intros i Hi.
    assert (Hi' : (inject_Z (Z.of_nat i) + 1 <= x1 + (1 # 2))%Q).
    { assert (H : (inject_Z (Z.of_nat i + 1) <= inject_Z n)%Q)
        by (rewrite <- Zle_Qle; lia).
      rewrite inject_Z_plus in H. change (inject_Z 1) with 1%Q in H.
      pose proof (Qfloor_le (x1 + (1 # 2))) as F. fold n in F. lra. }
    apply (scaled_index_below L (Z.of_nat i) r x1); try assumption; lia.
Qed.

(** An element of a list built by [map] over [seq]. *)
Lemma nth_map_seq (g : nat -> number) (n i : nat) :
  (i < n)%nat -> nth i (map g (seq 0 n)) NaN = g i.
Proof.
  intros Hi. rewrite (nth_indep _ NaN (g O)) by (now rewrite length_map, length_seq).
  rewrite (map_nth g). now rewrite seq_nth.
Qed.

(** Property X1.  For positive rates that differ and whose ratio lies
    between 1/1024 and 2^20, and a buffer of fewer than 2^32 samples, the
    resampler returns normally, and every output sample is the rounded
    combination [fround (a * w + b * f)] of two adjacent source samples
    [a] and [b] that both lie inside the input buffer, with weights [w]
    and [f] that are doubles of the unit interval: no read falls outside
    the buffer, in the double arithmetic of the code. *)
Theorem downsampleFloat32_reads_in_bounds (buffer : Float32Array) (srcRate dstRate : Q) :
  (0 < srcRate)%Q -> (0 < dstRate)%Q -> ~ (srcRate == dstRate)%Q ->
  (2 ^ (-10) <= srcRate / dstRate)%Q -> (srcRate / dstRate <= 2 ^ 20)%Q ->
  Z.of_nat (length buffer) < 2 ^ 32 ->
  exists out,
    downsampleFloat32 buffer srcRate dstRate = Normal out /\
    forall i : nat, (i < length out)%nat ->
      exists (low high : nat) (w f : Q),
        (low < length buffer)%nat /\ (low <= high)%nat /\ (high <= low + 1)%nat /\
        (high < length buffer)%nat /\
        (0 <= w)%Q /\ (w <= 1)%Q /\ (0 <= f)%Q /\ (f <= 1)%Q /\
        nth i out NaN =
          fround (fadd (fmul (nth low buffer NaN) (Fin w))
                       (fmul (nth high buffer NaN) (Fin f))).
Proof.
  intros Hs Hd Hne Hlo Hhi HL.
  destruct (downsample_positions buffer srcRate dstRate Hs Hd Hne Hlo Hhi HL)
    as (r & n & -> & Hpos).
  eexists. split; [reflexivity |].
  intros i Hi. rewrite length_map, length_seq in Hi.
  rewrite (nth_map_seq (fun i => interpolate buffer (Fin r) (Z.of_nat i)) n i Hi).
  destruct (Hpos i Hi) as [I0 I1].
  destruct (interpolate_in_bounds buffer r (Z.of_nat i) HL I0 I1)
    as (low & high & w & f & H1 & H2 & H3 & H4 & H5 & H6 & H7 & H8 & _ & _ & E).
  exists low, high, w, f. easy.
Qed.

(** Six samples at 44100 Hz, resampled to 16000 Hz. *)
Lemma downsampleFloat32_reads_in_bounds_witness :
  let buffer := [Fin (1 # 2); Fin (1 # 4); Fin (-1); Fin 1; Fin 0; Fin (3 # 4)] in
  (0 < 44100)%Q /\ (0 < 16000)%Q /\ ~ (44100 == 16000)%Q /\
  (2 ^ (-10) <= 44100 / 16000)%Q /\ (44100 / 16000 <= 2 ^ 20)%Q /\
  Z.of_nat (length buffer) < 2 ^ 32 /\
  exists out,
    downsampleFloat32 buffer 44100 16000 = Normal out /\
    forall i : nat, (i < length out)%nat ->
      exists (low high : nat) (w f : Q),
        (low < 6)%nat /\ (low <= high)%nat /\ (high <= low + 1)%nat /\ (high < 6)%nat /\
        (0 <= w)%Q /\ (w <= 1)%Q /\ (0 <= f)%Q /\ (f <= 1)%Q /\
        nth i out NaN =
          fround (fadd (fmul (nth low buffer NaN) (Fin w))
                       (fmul (nth high buffer NaN) (Fin f))).
Proof.
  cbv zeta.
  assert (H1 : (0 < 44100)%Q) by reflexivity.
  assert (H2 : (0 < 16000)%Q) by reflexivity.
  assert (H3 : ~ (44100 == 16000)%Q) by discriminate.
  assert (H4 : (2 ^ (-10) <= 44100 / 16000)%Q) by discriminate.
  assert (H5 : (44100 / 16000 <= 2 ^ 20)%Q) by discriminate.
  assert (H6 : Z.of_nat (length [Fin (1 # 2); Fin (1 # 4); Fin (-1); Fin 1; Fin 0;
                                 Fin (3 # 4)]) < 2 ^ 32) by reflexivity.
  repeat (split; [assumption |]).
  exact (downsampleFloat32_reads_in_bounds _ _ _ H1 H2 H3 H4 H5 H6).
Defined.

(** ** The range of the resampled signal *)

(** The two weights add up to 1, within one rounding. *)
Lemma weights_sum (f w : Q) :
  (0 <= f)%Q -> (f <= 1)%Q -> binary64 (1 + - f) = Fin w ->
  (w + f <= 1 + 2 ^ (-53))%Q.
Proof.
  intros Hf0 Hf1 Hw.
  change (2 ^ (-53))%Q with (1 # 9007199254740992).
  destruct (round_to_value _ _ _ _ _ Hw)
    as [_ [Hz | (m & e & _ & _ & _ & _ & _ & Hhi & Ee)]]; [lra |].
  destruct (Qeq_dec (1 + - f) 0) as [Hq | Hq].
  { unfold binary64 in Hw. rewrite (round_to_zero _ _ _ _ Hq) in Hw.
    injection Hw as <-. lra. }
  assert (Habs : (Qabs (1 + - f) == 1 + - f)%Q) by (apply Qabs_pos; lra).
  assert (Hfl : floor_log2 (Qabs (1 + - f)) < 1).
  { apply floor_log2_lt; [now apply Qabs_pos_nonzero |].
    rewrite Habs. change (2 ^ 1)%Q with 2%Q. lra. }
  assert (He : e <= -52) by lia.
  pose proof (pow2_le e (-52) He) as P.
  change (2 ^ (-52))%Q with (1 # 4503599627370496) in P. lra.
Qed.

(** Rounding to a float brings a value that exceeds the unit interval
    by one unit in the last place of a double back into it. *)
Lemma binary32_unit (q : Q) :
  (- (4503599627370497 # 4503599627370496) <= q)%Q ->
  (q <= 4503599627370497 # 4503599627370496)%Q ->
  exists x, binary32 q = Fin x /\ (-1 <= x)%Q /\ (x <= 1)%Q.
Proof.
  intros Hlo Hhi.
  assert (Hone : round_to 24 (-149) 128 1 = Fin 1) by (vm_compute; reflexivity).
  destruct (Qlt_le_dec 1 q) as [Hbig | Hle1].
  - (* just above 1 *)
    destruct (round_to_grid 24 (-149) 128 q (-23) (2 ^ 23) (2 ^ 23 + 1))
      as (r & Hr & _ & _).
    + lia.
    + rewrite Qabs_pos by lra. change (2 ^ (-23 + 24))%Q with 2%Q. lra.
    + assert (E : (inject_Z (2 ^ 23) * 2 ^ (-23) == 1)%Q) by reflexivity. lra.
    + assert (E : (inject_Z (2 ^ 23 + 1) * 2 ^ (-23) == 8388609 # 8388608)%Q)
        by reflexivity.
      lra.
    + assert (E : (inject_Z (2 ^ 23) * 2 ^ (-23) == 1)%Q) by reflexivity.
      pose proof (pow2_pos 128). lra.
    + assert (E : (inject_Z (2 ^ 23 + 1) * 2 ^ (-23) == 8388609 # 8388608)%Q)
        by reflexivity.
      pose proof (pow2_le 1 128 ltac:(lia)) as P. change (2 ^ 1)%Q with 2%Q in P. lra.
    + exists (Qred r). split; [exact Hr |].
      destruct (round_to_value _ _ _ _ _ Hr)
        as [_ [Hz | (m & e & Ex & _ & _ & _ & Elo & Ehi & Ee)]]; [lra |].
      assert (Hfl : floor_log2 (Qabs q) = 0).
      { apply floor_log2_unique; rewrite Qabs_pos by lra.
        - change (2 ^ 0)%Q with 1%Q. lra.
        - change (2 ^ (0 + 1))%Q with 2%Q. lra. }
      rewrite Hfl in Ee. change (Z.max (-149) (0 - (24 - 1))) with (-23) in Ee. subst e.
      change (2 ^ (-23))%Q with (1 # 8388608) in Ex, Elo, Ehi.
      assert (Hm : (inject_Z m < inject_Z 8388609)%Q).
      { change (inject_Z 8388609) with 8388609%Q. lra. }
      rewrite <- Zlt_Qlt in Hm.
      assert (Hm' : (inject_Z m <= inject_Z 8388608)%Q) by (rewrite <- Zle_Qle; lia).
      change (inject_Z 8388608) with 8388608%Q in Hm'. lra.
  - destruct (Qlt_le_dec q (-1)) as [Hsmall | Hge1].
    + (* just below -1 *)
      destruct (round_to_grid 24 (-149) 128 q (-23) (- (2 ^ 23 + 1)) (- 2 ^ 23))
        as (r & Hr & _ & _).
      * lia.
      * rewrite Qabs_neg by lra. change (2 ^ (-23 + 24))%Q with 2%Q. lra.
      * assert (E : (inject_Z (- (2 ^ 23 + 1)) * 2 ^ (-23) == - (8388609 # 8388608))%Q)
          by reflexivity.
        lra.
      * assert (E : (inject_Z (- 2 ^ 23) * 2 ^ (-23) == -1)%Q) by reflexivity. lra.
      * assert (E : (inject_Z (- (2 ^ 23 + 1)) * 2 ^ (-23) == - (8388609 # 8388608))%Q)
          by reflexivity.
        pose proof (pow2_le 1 128 ltac:(lia)) as P. change (2 ^ 1)%Q with 2%Q in P. lra.
      * assert (E : (inject_Z (- 2 ^ 23) * 2 ^ (-23) == -1)%Q) by reflexivity.
        pose proof (pow2_pos 128). lra.
      * exists (Qred r). split; [exact Hr |].
        destruct (round_to_value _ _ _ _ _ Hr)
          as [_ [Hz | (m & e & Ex & _ & _ & _ & Elo & Ehi & Ee)]]; [lra |].
        assert (Hfl : floor_log2 (Qabs q) = 0).
        { apply floor_log2_unique; rewrite Qabs_neg by lra.
          - change (2 ^ 0)%Q with 1%Q. lra.
          - change (2 ^ (0 + 1))%Q with 2%Q. lra. }
        rewrite Hfl in Ee. change (Z.max (-149) (0 - (24 - 1))) with (-23) in Ee. subst e.
        change (2 ^ (-23))%Q with (1 # 8388608) in Ex, Elo, Ehi.
        assert (Hm : (inject_Z (-8388609) < inject_Z m)%Q).
        { change (inject_Z (-8388609)) with (-8388609)%Q. lra. }
        rewrite <- Zlt_Qlt in Hm.
        assert (Hm' : (inject_Z (-8388608) <= inject_Z m)%Q) by (rewrite <- Zle_Qle; lia).
        change (inject_Z (-8388608)) with (-8388608)%Q in Hm'. lra.
    + destruct (round_to_below 24 (-149) 128 q 1 ltac:(lia) Hge1 Hle1 Hone)
        as (x & Hx & _ & X1 & X2).
      exists x. split; [exact Hx |]. lra.
Qed.

(** One output sample: the rounded combination of two samples of the
    unit interval stays in the unit interval. *)
Lemma combination_unit (a b : number) (w f : Q) :
  within (-1) 1 a -> within (-1) 1 b ->
  (0 <= w)%Q -> (0 <= f)%Q -> (f <= 1)%Q ->
  binary64 (1 + - f) = Fin w -> (exists t, binary64 t = Fin f) ->
  within (-1) 1 (fround (fadd (fmul a (Fin w)) (fmul b (Fin f)))).
Proof.
  intros Ha Hb Hw0 Hf0 Hf1 Hw [t Hf].
  destruct a as [ | | qa]; try contradiction.
  destruct b as [ | | qb]; try contradiction.
  cbn in Ha, Hb. destruct Ha as [A1 A2], Hb as [B1 B2].
  pose proof (weights_sum f w Hf0 Hf1 Hw) as Hsum.
  change (2 ^ (-53))%Q with (1 # 9007199254740992) in Hsum.
  assert (Fw : round_to 53 (-1074) 1024 w = Fin w)
    by (apply (round_to_idempotent 53 (-1074) 1024 (1 + - f) w); [lia | exact Hw]).
  assert (Ff : round_to 53 (-1074) 1024 f = Fin f)
    by (apply (round_to_idempotent 53 (-1074) 1024 t f); [lia | exact Hf]).
  destruct (round_to_below 53 (-1074) 1024 (qa * w) w) as (x1 & E1 & _ & L1 & U1);
    [lia | nra | nra | exact Fw |].
  destruct (round_to_below 53 (-1074) 1024 (qb * f) f) as (x2 & E2 & _ & L2 & U2);
    [lia | nra | nra | exact Ff |].
  assert (E1' : fmul (Fin qa) (Fin w) = Fin x1) by exact E1.
  assert (E2' : fmul (Fin qb) (Fin f) = Fin x2) by exact E2.
  rewrite E1', E2'.
  assert (Fc : round_to 53 (-1074) 1024 (4503599627370497 # 4503599627370496)
               = Fin (4503599627370497 # 4503599627370496)) by (vm_compute; reflexivity).
  destruct (round_to_below 53 (-1074) 1024 (x1 + x2)
              (4503599627370497 # 4503599627370496)) as (x3 & E3 & _ & L3 & U3);
    [lia | lra | lra | exact Fc |].
  assert (E3' : fadd (Fin x1) (Fin x2) = Fin x3) by exact E3.
  rewrite E3'.
  destruct (binary32_unit x3 L3 U3) as (x4 & E4 & L4 & U4).
  assert (E4' : fround (Fin x3) = Fin x4) by exact E4.
  rewrite E4'. cbn. split; assumption.
Qed.

(** Property X2.  Interpolation never overshoots the range of audio
    samples, rounding included: for positive rates whose ratio lies
    between 1/1024 and 2^20 and a buffer of fewer than 2^32 samples, if
    every input sample is finite and lies in [-1, 1], the resampler
    returns normally and every output sample is finite and lies in
    [-1, 1]. *)
Theorem downsampleFloat32_stays_within (buffer : Float32Array) (srcRate dstRate : Q) :
  (0 < srcRate)%Q -> (0 < dstRate)%Q ->
  (2 ^ (-10) <= srcRate / dstRate)%Q -> (srcRate / dstRate <= 2 ^ 20)%Q ->
  Z.of_nat (length buffer) < 2 ^ 32 ->
  Forall (within (-1) 1) buffer ->
  exists out,
    downsampleFloat32 buffer srcRate dstRate = Normal out /\
    Forall (within (-1) 1) out.
Proof.
  intros Hs Hd Hlo Hhi HL Hin.
  destruct (Qeq_dec srcRate dstRate) as [Heq | Hne].
  { exists buffer. split; [| exact Hin].
    unfold downsampleFloat32. apply Qeq_bool_iff in Heq. now rewrite Heq. }
  destruct (downsample_positions buffer srcRate dstRate Hs Hd Hne Hlo Hhi HL)
    as (r & n & -> & Hpos).
  eexists. split; [reflexivity |].
  apply List.Forall_forall. intros y Hy.
  apply List.in_map_iff in Hy. destruct Hy as (i & <- & Hi).
  apply List.in_seq in Hi.
  destruct (Hpos i ltac:(lia)) as [I0 I1].
  destruct (interpolate_in_bounds buffer r (Z.of_nat i) HL I0 I1)
    as (low & high & w & f & H1 & _ & _ & H4 & H5 & _ & H7 & H8 & Hw & Hf & ->).
  rewrite List.Forall_forall in Hin.
  apply combination_unit; try assumption; apply Hin; now apply List.nth_In.
Qed.

(** Four samples at 48000 Hz, resampled to 32000 Hz. *)
Lemma downsampleFloat32_stays_within_witness :
  let buffer := [Fin (1 # 2); Fin (-1); Fin 1; Fin 0] in
  (0 < 48000)%Q /\ (0 < 32000)%Q /\
  (2 ^ (-10) <= 48000 / 32000)%Q /\ (48000 / 32000 <= 2 ^ 20)%Q /\
  Z.of_nat (length buffer) < 2 ^ 32 /\
  Forall (within (-1) 1) buffer /\
  exists out,
    downsampleFloat32 buffer 48000 32000 = Normal out /\
    Forall (within (-1) 1) out.
Proof.
  cbv zeta.
  assert (Hs : (0 < 48000)%Q) by reflexivity.
  assert (Hd : (0 < 32000)%Q) by reflexivity.
  assert (H4 : (2 ^ (-10) <= 48000 / 32000)%Q) by discriminate.
  assert (H5 : (48000 / 32000 <= 2 ^ 20)%Q) by discriminate.
  assert (H6 : Z.of_nat (length [Fin (1 # 2); Fin (-1); Fin 1; Fin 0]) < 2 ^ 32)
    by reflexivity.
  assert (Hin : Forall (within (-1) 1) [Fin (1 # 2); Fin (-1); Fin 1; Fin 0]).
  { repeat constructor; discriminate. }
  repeat (split; [assumption |]).
  exact (downsampleFloat32_stays_within _ 48000 32000 Hs Hd H4 H5 H6 Hin).
Defined.

(** ** Quantisation *)

(** The quantiser preserves the order of two samples. *)
Lemma quantise_monotone (x y : number) :
  le x y -> ToInt16 (scale (clamp x)) <= ToInt16 (scale (clamp y)).
Proof.
  intros Hle.
  assert (Hx : x <> NaN) by (intros ->; exact Hle).
  assert (Hy : y <> NaN) by (intros ->; destruct x as [ | [ | ] | ]; exact Hle).
  destruct (clamp_value x Hx) as (c1 & -> & Hc1lo & Hc1hi & Hc1).
  destruct (clamp_value y Hy) as (c2 & -> & Hc2lo & Hc2hi & Hc2).
  destruct (scale_value c1 Hc1lo Hc1hi) as (v1 & -> & Hn1 & Hp1 & -> & _).
  destruct (scale_value c2 Hc2lo Hc2hi) as (v2 & -> & Hn2 & Hp2 & -> & _).
  apply truncate_monotone.
  assert (Hc : (c1 <= c2)%Q).
  { destruct x as [ | [ | ] | q1], y as [ | [ | ] | q2]; cbn in Hle;
      try contradiction; try lra. }
  lra.
Qed.

(** Property X3.  The quantiser preserves order and saturates: if each
    sample of one buffer is at most the corresponding sample of another
    (neither being NaN), the same holds of the quantised buffers; a
    sample at or above 1 (or plus infinity) is stored as 32767, one at or
    below -1 (or minus infinity) as -32768, zero and NaN as 0. *)
Theorem float32ToInt16_monotone_saturating :
  (forall xs ys : Float32Array,
     Forall2 le xs ys -> Forall2 Z.le (float32ToInt16 xs) (float32ToInt16 ys)) /\
  (forall q : Q, (1 <= q)%Q -> float32ToInt16 [Fin q] = [32767]) /\
  (forall q : Q, (q <= -1)%Q -> float32ToInt16 [Fin q] = [-32768]) /\
  float32ToInt16 [Inf false; Inf true; Fin 0; NaN] = [32767; -32768; 0; 0].
Proof.
  split; [| split; [| split]].
  - intros xs ys H. unfold float32ToInt16.
    induction H as [ | x y xs ys Hxy _ IH]; cbn [map]; constructor.
    + now apply quantise_monotone.
    + exact IH.
  - intros q Hq. unfold float32ToInt16. cbn [map]. f_equal.
    destruct (clamp_value (Fin q)) as (c & -> & Hclo & Hchi & A & B & C);
      [discriminate |].
    destruct (scale_value c Hclo Hchi) as (v & -> & Hn & Hp & -> & _).
    specialize (B Hq). specialize (Hp ltac:(lra)).
    apply truncate_integer. change (inject_Z 32767) with 32767%Q. lra.
  - intros q Hq. unfold float32ToInt16. cbn [map]. f_equal.
    destruct (clamp_value (Fin q)) as (c & -> & Hclo & Hchi & A & B & C);
      [discriminate |].
    destruct (scale_value c Hclo Hchi) as (v & -> & Hn & Hp & -> & _).
    specialize (A Hq). specialize (Hn ltac:(lra)).
    apply truncate_integer. change (inject_Z (-32768)) with (-32768)%Q. lra.
  - reflexivity.
Qed.

Lemma float32ToInt16_monotone_saturating_witness :
  Forall2 le [Fin (-(1 # 2)); Fin (1 # 3)] [Fin (1 # 4); Inf false] /\
  Forall2 Z.le (float32ToInt16 [Fin (-(1 # 2)); Fin (1 # 3)])
               (float32ToInt16 [Fin (1 # 4); Inf false]) /\
  (1 <= 3 # 2)%Q /\ float32ToInt16 [Fin (3 # 2)] = [32767].
Proof.
  assert (H : Forall2 le [Fin (-(1 # 2)); Fin (1 # 3)] [Fin (1 # 4); Inf false]).
  { repeat constructor. discriminate. }
  assert (Hq : (1 <= 3 # 2)%Q) by discriminate.
  split; [exact H |].
  split; [exact (proj1 float32ToInt16_monotone_saturating _ _ H) |].
  split; [exact Hq |].
  exact (proj1 (proj2 float32ToInt16_monotone_saturating) _ Hq).
Defined.

(** ** The chunk handler *)

Lemma float32ToInt16_length (float32 : Float32Array) :
  length (float32ToInt16 float32) = length float32.
Proof. unfold float32ToInt16. apply length_map. Qed.

Lemma float32ToInt16_nth (float32 : Float32Array) (i : nat) :
  (i < length float32)%nat ->
  nth i (float32ToInt16 float32) 0 = ToInt16 (scale (clamp (nth i float32 NaN))).
Proof.
  intros Hi. unfold float32ToInt16.
  rewrite (nth_indep _ 0 (ToInt16 (scale (clamp NaN)))) by (now rewrite length_map).
  apply (map_nth (fun x => ToInt16 (scale (clamp x)))).
Qed.

(** The resampler at a whole ratio [k]: the source rate is [k] times the
    target rate. *)
Lemma downsample_whole_ratio (buffer : Float32Array) (k d : Z) :
  1 < k < 2 ^ 53 -> 0 < d -> Z.of_nat (length buffer) < 2 ^ 50 ->
  exists out,
    downsampleFloat32 buffer (inject_Z (k * d)) (inject_Z d) = Normal out /\
    Z.of_nat (length out) = (2 * Z.of_nat (length buffer) + k) / (2 * k).
Proof.
  intros Hk Hd HL. unfold downsampleFloat32.
  assert (Hdq : (0 < inject_Z d)%Q) by (change 0%Q with (inject_Z 0); now rewrite <- Zlt_Qlt).
  assert (Hne : ~ (inject_Z (k * d) == inject_Z d)%Q).
  { rewrite inject_Z_injective. nia. }
  rewrite (Qeq_bool_false _ _ Hne). cbv zeta.
  rewrite (fdiv_positive _ _ Hdq).
  assert (Ek : (inject_Z (k * d) / inject_Z d == inject_Z k)%Q)
    by (rewrite inject_Z_mult; field; lra).
  rewrite (binary64_comp _ _ Ek), binary64_Z by lia.
  rewrite round_quotient by lia.
  set (n := (2 * Z.of_nat (length buffer) + k) / (2 * k)).
  assert (Hn : 0 <= n < 2 ^ 53).
  { unfold n. split; [apply Z.div_pos; lia |].
    apply Z.div_lt_upper_bound; nia. }
  rewrite (new_Float32Array_Z n Hn). eexists. split; [reflexivity |].
  rewrite length_map, length_seq. lia.
Qed.

(** A negative target rate: the computed length is negative. *)
Lemma downsample_negative_rate (buffer : Float32Array) (k d : Z) :
  1 <= k < 2 ^ 53 -> 0 < d -> k <= Z.of_nat (length buffer) < 2 ^ 53 ->
  downsampleFloat32 buffer (inject_Z (k * d)) (inject_Z (- d)) = RangeError.
Proof.
  intros Hk Hd HL. unfold downsampleFloat32.
  set (L := Z.of_nat (length buffer)) in *.
  assert (Hne : ~ (inject_Z (k * d) == inject_Z (- d))%Q).
  { rewrite inject_Z_injective. nia. }
  rewrite (Qeq_bool_false _ _ Hne). cbv zeta.
  assert (Hdq : (0 < inject_Z d)%Q) by (change 0%Q with (inject_Z 0); now rewrite <- Zlt_Qlt).
  assert (Hkq : (1 <= inject_Z k)%Q) by (change 1%Q with (inject_Z 1); rewrite <- Zle_Qle; lia).
  assert (Hratio : fdiv (Fin (inject_Z (k * d))) (Fin (inject_Z (- d)))
                   = Fin (inject_Z (- k))).
  { unfold fdiv, div.
    assert (Hsign : Qsign (inject_Z (- d)) = Lt).
    { unfold Qsign. rewrite <- Qlt_alt. rewrite inject_Z_opp. lra. }
    rewrite Hsign. unfold round64.
    assert (E : (inject_Z (k * d) / inject_Z (- d) == inject_Z (- k))%Q).
    { rewrite inject_Z_mult, !inject_Z_opp. field. lra. }
    rewrite (binary64_comp _ _ E). apply binary64_Z. lia. }
  rewrite Hratio.
  assert (Hsign : Qsign (inject_Z (- k)) = Lt).
  { unfold Qsign. rewrite <- Qlt_alt. rewrite inject_Z_opp. lra. }
  unfold fdiv, div. rewrite Hsign. unfold round64, binary64.
  set (q := (inject_Z L / inject_Z (- k))%Q).
  assert (HLq : (inject_Z k <= inject_Z L)%Q /\ (inject_Z L < 2 ^ 53)%Q).
  { split; [rewrite <- Zle_Qle; lia |].
    rewrite (pow2_inject 53) by lia. rewrite <- Zlt_Qlt. lia. }
  assert (Hq : (- inject_Z L <= q)%Q /\ (q <= -1)%Q).
  { assert (E : (q == - (inject_Z L / inject_Z k))%Q)
      by (unfold q; rewrite inject_Z_opp; field; lra).
    rewrite E. split.
    - apply Qopp_le_compat. apply Qle_shift_div_r; [lra | nra].
    - assert (H1 : (1 <= inject_Z L / inject_Z k)%Q)
        by (apply Qle_shift_div_l; lra).
      lra. }
  destruct (round_to_grid 53 (-1074) 1024 q 0 (- L) (-1)) as (r & -> & _ & Rhi).
  - lia.
  - change (2 ^ (0 + 53))%Q with (2 ^ 53)%Q. apply Qabs_Qlt_condition. split; lra.
  - change (2 ^ 0)%Q with 1%Q. rewrite inject_Z_opp. lra.
  - change (inject_Z (-1) * 2 ^ 0)%Q with (-1 * 1)%Q. lra.
  - change (2 ^ 0)%Q with 1%Q. rewrite inject_Z_opp.
    pose proof (pow2_lt 53 1024 ltac:(lia)). lra.
  - change (inject_Z (-1) * 2 ^ 0)%Q with (-1 * 1)%Q. pose proof (pow2_pos 1024). lra.
  - change (inject_Z (-1) * 2 ^ 0)%Q with (-1 * 1)%Q in Rhi.
    unfold Math_round, new_Float32Array, truncate. cbn [Qnum Qden inject_Z].
    rewrite Z.quot_1_r.
    assert (Hn : Qfloor (Qred r + (1 # 2)) < 0).
    { apply Qfloor_below. change (inject_Z 0) with 0%Q. rewrite Qred_correct. lra. }
    replace (Qfloor (Qred r + (1 # 2)) <? 0) with true by (symmetry; apply Z.ltb_lt; lia).
    reflexivity.
Qed.

(** Property X4.  Without a callback the handler returns at once and
    delivers nothing.  With one, it throws when the resampler throws,
    and otherwise delivers the quantised resampling of the input: as many
    16-bit samples as the resampler returns, each of them the resampled
    value clamped to [-1, 1], scaled by 32768 if negative and by 32767
    otherwise, and truncated.  When the context rate is [k] times the
    target rate for an integer [k], the chunk holds [L / k] samples,
    rounded half up; for equal rates it holds [L].  A target rate of
    zero gives an empty chunk; a context rate of zero makes the handler
    throw a [RangeError] for every buffer that is not empty, and so does
    a negative target rate whenever the buffer has at least as many
    samples as the ratio of the rates. *)
Theorem onaudioprocess_chunk (inputData : Float32Array) :
  let L := Z.of_nat (length inputData) in
  (forall contextRate sampleRate : Q,
     onaudioprocess false inputData contextRate sampleRate = Normal None /\
     match downsampleFloat32 inputData contextRate sampleRate with
     | RangeError => onaudioprocess true inputData contextRate sampleRate = RangeError
     | Normal downsampled =>
         exists pcm,
           onaudioprocess true inputData contextRate sampleRate = Normal (Some pcm) /\
           length pcm = length downsampled /\
           forall i : nat, (i < length downsampled)%nat ->
             let y := nth i pcm 0 in
             -32768 <= y <= 32767 /\
             match nth i downsampled NaN with
             | NaN => y = 0
             | Inf true => y = -32768
             | Inf false => y = 32767
             | Fin q =>
                 ((q <= -1)%Q -> y = -32768) /\
                 ((-1 <= q)%Q -> (q < 0)%Q -> y = truncate (q * 32768)) /\
                 ((0 <= q)%Q -> (q <= 1)%Q -> y = truncate (q * 32767)) /\
                 ((1 <= q)%Q -> y = 32767)
             end
     end) /\
  (forall k d : Z, 1 < k < 2 ^ 53 -> 0 < d -> L < 2 ^ 50 ->
     exists pcm,
       onaudioprocess true inputData (inject_Z (k * d)) (inject_Z d) = Normal (Some pcm) /\
       Z.of_nat (length pcm) = (2 * L + k) / (2 * k)) /\
  (forall s : Q,
     exists pcm,
       onaudioprocess true inputData s s = Normal (Some pcm) /\
       length pcm = length inputData) /\
  (forall s : Q, ~ (s == 0)%Q ->
     onaudioprocess true inputData s 0 = Normal (Some [])) /\
  (forall d : Q, ~ (d == 0)%Q -> 0 < L ->
     onaudioprocess true inputData 0 d = RangeError) /\
  (forall k d : Z, 1 <= k < 2 ^ 53 -> 0 < d -> k <= L < 2 ^ 53 ->
     onaudioprocess true inputData (inject_Z (k * d)) (inject_Z (- d)) = RangeError).
Proof.
  intros L. split; [| split; [| split; [| split; [| split]]]].
  6:{ intros k d Hk Hd HL. unfold onaudioprocess.
      now rewrite (downsample_negative_rate inputData k d Hk Hd HL). }
  - intros contextRate sampleRate. split; [reflexivity |].
    unfold onaudioprocess.
    destruct (downsampleFloat32 inputData contextRate sampleRate) as [d | ];
      [| reflexivity].
    eexists. split; [reflexivity |]. split; [apply float32ToInt16_length |].
    intros i Hi. cbv zeta. rewrite (float32ToInt16_nth d i Hi).
    apply quantised_sample.
  - intros k d Hk Hd HL.
    destruct (downsample_whole_ratio inputData k d Hk Hd HL) as (out & Hout & Hlen).
    unfold onaudioprocess. rewrite Hout. eexists. split; [reflexivity |].
    now rewrite float32ToInt16_length.
  - intros s. unfold onaudioprocess, downsampleFloat32. rewrite Qeq_bool_refl.
    eexists. split; [reflexivity |]. apply float32ToInt16_length.
  - intros s Hs. unfold onaudioprocess, downsampleFloat32.
    rewrite (Qeq_bool_false _ _ Hs). cbv zeta.
    assert (Hratio : exists sign, fdiv (Fin s) (Fin 0) = Inf sign).
    { unfold fdiv, div. change (Qsign 0) with Eq. unfold Qsign.
      destruct (s ?= 0)%Q eqn:E; [| now exists true | now exists false].
      rewrite <- Qeq_alt in E. contradiction. }
    destruct Hratio as [sign ->]. reflexivity.
  - intros d Hd HL. unfold onaudioprocess, downsampleFloat32.
    assert (Hne : ~ (0 == d)%Q) by (intros E; apply Hd; now symmetry).
    rewrite (Qeq_bool_false _ _ Hne). cbv zeta.
    assert (Hratio : fdiv (Fin 0) (Fin d) = Fin 0).
    { unfold fdiv, div, Qsign.
      destruct (d ?= 0)%Q eqn:E; [rewrite <- Qeq_alt in E; contradiction | |];
        apply round_to_zero; field; exact Hd. }
    rewrite Hratio.
    assert (Hlen : fdiv (Fin (inject_Z L)) (Fin 0) = Inf false).
    { unfold fdiv, div. change (Qsign 0) with Eq. unfold Qsign.
      assert (E : (inject_Z L ?= 0)%Q = Gt).
      { rewrite <- Qgt_alt. change 0%Q with (inject_Z 0). rewrite <- Zlt_Qlt. exact HL. }
      now rewrite E. }
    fold L. rewrite Hlen. reflexivity.
Qed.

(** A chunk of six samples at 48000 Hz, delivered at 16000 Hz. *)
Lemma onaudioprocess_chunk_witness :
  let inputData := [Fin (1 # 2); Fin (1 # 4); Fin (-1); Fin 1; Fin 0; Fin (3 # 4)] in
  1 < 3 < 2 ^ 53 /\ 0 < 16000 /\ Z.of_nat (length inputData) < 2 ^ 50 /\
  exists pcm,
    onaudioprocess true inputData (inject_Z (3 * 16000)) (inject_Z 16000)
      = Normal (Some pcm) /\
    Z.of_nat (length pcm) = 2.
Proof.
  cbv zeta.
  assert (H1 : 1 < 3 < 2 ^ 53) by lia.
  assert (H2 : 0 < 16000) by lia.
  assert (H3 : Z.of_nat (length [Fin (1 # 2); Fin (1 # 4); Fin (-1); Fin 1; Fin 0;
                                 Fin (3 # 4)]) < 2 ^ 50) by reflexivity.
  split; [exact H1 |]. split; [exact H2 |]. split; [exact H3 |].
  exact (proj1 (proj2 (onaudioprocess_chunk _)) 3 16000 H1 H2 H3).
Defined.

(** ** Start and stop *)

(** What a start whose permission request has settled leaves behind, on
    a hook that held nothing. *)
Lemma startRecording_outcome (setup : Setup -> CallResult) (tracks : nat) (h : Hook) :
  cleared (recorder h) ->
  let h' := getUserMedia_settled setup tracks (startRecording h) in
  released (recorder h') = released (recorder h) /\
  pending h' = pending h /\
  match setup GetUserMedia with
  | Throws => recorder h' = recorder h /\ error h' <> None
  | Completes =>
      streamRef (recorder h') = Some tracks /\
      (audioCtxRef (recorder h') = true <-> setup NewAudioContext = Completes) /\
      (isRecording (recorder h') = true <-> forall s, setup s = Completes) /\
      (error h' = None <-> forall s, setup s = Completes)
  end.
Proof.
  intros (Hp & Hs & Hc & Hst & Hrec). destruct h as [[rec p s c st rel] err pend].
  cbn in Hp, Hs, Hc, Hst, Hrec. subst.
  unfold getUserMedia_settled, startRecording, start_failed. cbn.
  destruct (setup GetUserMedia) eqn:E1; cbn; [| easy].
  destruct (setup NewAudioContext) eqn:E2; cbn.
  2:{ repeat split; try easy; intros H; try discriminate;
      specialize (H NewAudioContext); congruence. }
  destruct (setup CreateMediaStreamSource) eqn:E3; cbn.
  2:{ repeat split; try easy; intros H; try discriminate;
      specialize (H CreateMediaStreamSource); congruence. }
  destruct (setup CreateScriptProcessor) eqn:E4; cbn.
  2:{ repeat split; try easy; intros H; try discriminate;
      specialize (H CreateScriptProcessor); congruence. }
  destruct (setup ConnectSource) eqn:E5; cbn.
  2:{ repeat split; try easy; intros H; try discriminate;
      specialize (H ConnectSource); congruence. }
  destruct (setup ConnectProcessor) eqn:E6; cbn.
  2:{ repeat split; try easy; intros H; try discriminate;
      specialize (H ConnectProcessor); congruence. }
  repeat split; try easy; intros _ [ | | | | | ]; assumption.
Qed.

Lemma stop_clears (env : Environment) (h : Hook) :
  all_complete env (held (recorder h)) ->
  cleared (recorder (stopRecording env h)) /\
  released (recorder (stopRecording env h)) =
    released (recorder h) ++ held (recorder h) /\
  error (stopRecording env h) = error h.
Proof.
  intros Hall. unfold stopRecording.
  destruct (stopRecording_outcome env (recorder h))
    as [[_ ->] | [Hnot _]]; [| contradiction].
  cbn. unfold cleared. cbn. easy.
Qed.

Lemma held_after_full_start (setup : Setup -> CallResult) (tracks : nat) (h : Hook) :
  cleared (recorder h) -> (forall s, setup s = Completes) ->
  let h' := getUserMedia_settled setup tracks (startRecording h) in
  held (recorder h') =
    [ProcessorStage; SourceStage; ContextStage] ++ map TrackStage (seq 0 tracks) /\
  isRecording (recorder h') = true /\
  error h' = None.
Proof.
  intros (Hp & Hs & Hc & Hst & Hrec) Hall. destruct h as [[rec p s c st rel] err pend].
  cbn in Hp, Hs, Hc, Hst, Hrec. subst.
  cbv zeta. unfold getUserMedia_settled, startRecording. cbn. rewrite !Hall. cbn. easy.
Qed.

(** A second start that settles on a recording hook leaves it
    recording. *)
Lemma settled_again (setup : Setup -> CallResult) (tracks : nat) (h : Hook) :
  (forall s, setup s = Completes) ->
  isRecording (recorder (getUserMedia_settled setup tracks h))
    = match pending h with O => isRecording (recorder h) | S _ => true end /\
  released (recorder (getUserMedia_settled setup tracks h)) = released (recorder h).
Proof.
  intros Hall. destruct h as [[rec p s c st rel] err [ | pend]]; [easy |].
  unfold getUserMedia_settled. cbn. rewrite !Hall. cbn. easy.
Qed.

(** Property X5.  A call of [startRecording] first suspends at the
    permission request: until the request settles the hook has acquired
    nothing and its flag is unchanged.  When the request settles on a
    hook that holds nothing: if it was refused, nothing is acquired and
    the error state is set; if every setup call succeeds, the hook holds
    the processor, the source, the context and the stream's tracks, is
    recording, and has no error.  Whatever the start acquired, complete
    or not, a following stop whose teardown calls do not throw releases
    exactly that, clears every ref and resets the flag.  Hence two
    toggles bring the hook back to holding nothing, provided the request
    of the first has settled before the second; two toggles before it
    settles both start, and the hook ends up recording. *)
Theorem startRecording_then_stop (setup : Setup -> CallResult) (tracks : nat)
    (env : Environment) (h : Hook) :
  cleared (recorder h) ->
  all_complete env
    (held (recorder (getUserMedia_settled setup tracks (startRecording h)))) ->
  let started := getUserMedia_settled setup tracks (startRecording h) in
  let stopped := stopRecording env started in
  (recorder (startRecording h) = recorder h /\
   pending (startRecording h) = S (pending h)) /\
  (setup GetUserMedia = Throws ->
     recorder started = recorder h /\
     error started = Some "Failed to access microphone"%string) /\
  ((forall s, setup s = Completes) ->
     held (recorder started) =
       [ProcessorStage; SourceStage; ContextStage] ++ map TrackStage (seq 0 tracks) /\
     isRecording (recorder started) = true /\ error started = None /\
     run setup tracks env [ToggleRecording; Settled; ToggleRecording] h = stopped /\
     let twice :=
       run setup tracks env [ToggleRecording; ToggleRecording; Settled; Settled] h in
     isRecording (recorder twice) = true /\
     released (recorder twice) = released (recorder h)) /\
  cleared (recorder stopped) /\
  released (recorder stopped) = released (recorder h) ++ held (recorder started).
Proof.
  intros Hclear Henv. cbv zeta.
  destruct (stop_clears env _ Henv) as (Hc & Hr & _).
  pose proof (startRecording_outcome setup tracks h Hclear) as Hout. cbv zeta in Hout.
  destruct Hout as (Hrel & Hpend & Hout).
  split; [split; reflexivity |]. split; [| split; [| split]].
  - intros Hdenied. split.
    + rewrite Hdenied in Hout. apply Hout.
    + unfold getUserMedia_settled, startRecording. cbn. rewrite Hdenied. reflexivity.
  - intros Hall.
    destruct (held_after_full_start setup tracks h Hclear Hall) as (Hheld & Hrec & Herr).
    split; [exact Hheld |]. split; [exact Hrec |]. split; [exact Herr |].
    assert (Hoff : isRecording (recorder h) = false) by apply Hclear.
    assert (Hfirst : step setup tracks env h ToggleRecording = startRecording h).
    { cbn. now rewrite Hoff. }
    split.
    + unfold run. cbn [fold_left]. rewrite Hfirst. cbn [step].
      now rewrite Hrec.
    + unfold run. cbn [fold_left]. rewrite Hfirst.
      assert (Hsecond : step setup tracks env (startRecording h) ToggleRecording
                        = startRecording (startRecording h)).
      { cbn. now rewrite Hoff. }
      rewrite Hsecond. cbn [step].
      set (once := getUserMedia_settled setup tracks (startRecording (startRecording h))).
      assert (Honce : released (recorder once) = released (recorder h) /\
                      pending once = S (pending h)).
      { unfold once. destruct (settled_again setup tracks
                                 (startRecording (startRecording h)) Hall) as [_ ->].
        split; [reflexivity |].
        destruct h as [[rec p s c st rel] err pend].
        unfold getUserMedia_settled, startRecording. cbn. rewrite !Hall. reflexivity. }
      destruct Honce as [Hrel1 Hpend1].
      destruct (settled_again setup tracks once Hall) as [-> ->].
      rewrite Hpend1. split; [reflexivity | exact Hrel1].
  - exact Hc.
  - rewrite Hr, Hrel. reflexivity.
Qed.

Lemma startRecording_then_stop_witness :
  let started := getUserMedia_settled no_setup_throws 1 (startRecording initial) in
  cleared (recorder initial) /\
  all_complete no_throw (held (recorder started)) /\
  held (recorder started) =
    [ProcessorStage; SourceStage; ContextStage; TrackStage 0] /\
  released (recorder (stopRecording no_throw started)) =
    [ProcessorStage; SourceStage; ContextStage; TrackStage 0].
Proof.
  cbv zeta.
  assert (Hc : cleared (recorder initial)) by (unfold cleared; cbn; easy).
  assert (He : all_complete no_throw
                 (held (recorder (getUserMedia_settled no_setup_throws 1
                                    (startRecording initial)))))
    by (intros s _; reflexivity).
  pose proof (startRecording_then_stop no_setup_throws 1 no_throw initial Hc He) as H.
  cbv zeta in H. destruct H as (_ & _ & Hfull & _ & Hrel).
  split; [exact Hc |]. split; [exact He |].
  split; [exact (proj1 (Hfull (fun _ => eq_refl))) | exact Hrel].
Defined.

(** Property X6.  Stopping is idempotent: once a stop has returned, a
    second stop makes no teardown call and changes nothing, whatever the
    calls would do; the same holds for a recorder that holds nothing and
    is not recording. *)
Theorem stopRecording_twice (env env' : Environment) (r : Recorder) :
  (all_complete env (held r) ->
   exists r', Recorder.stopRecording env r = Returned r' /\
              Recorder.stopRecording env' r' = Returned r') /\
  (cleared r -> Recorder.stopRecording env' r = Returned r).
Proof.
  assert (Hidle : forall q, cleared q -> Recorder.stopRecording env' q = Returned q).
  { intros [rec p s c st rel] (Hp & Hs & Hc & Hst & Hrec). cbn in *. subst. reflexivity. }
  split; [| apply Hidle].
  intros Hall.
  destruct (stopRecording_outcome env r) as [[_ ->] | [Hnot _]];
    [| contradiction].
  eexists. split; [reflexivity |]. apply Hidle. unfold cleared. cbn. easy.
Qed.

Lemma stopRecording_twice_witness :
  all_complete no_throw (held recording) /\
  exists r', Recorder.stopRecording no_throw recording = Returned r' /\
             Recorder.stopRecording throwing_processor r' = Returned r'.
Proof.
  assert (H : all_complete no_throw (held recording)) by (intros s _; reflexivity).
  split; [exact H |].
  exact (proj1 (stopRecording_twice no_throw throwing_processor recording) H).
Defined.

End CaptureFacts.

Module ChannelFacts.
Import Js Transport Channel.

(** ** One live socket *)

Lemma well_formed_initial : single_live initial /\ allocated initial.
Proof.
  split.
  - intros id ws H. cbn in H. rewrite lookup_empty in H. discriminate.
  - intros id _. apply lookup_empty.
Qed.

Lemma close_not_live (ws : WebSocket) :
  readyState (close ws) <> CONNECTING /\ readyState (close ws) <> OPEN.
Proof. unfold close. destruct (readyState ws) eqn:E; cbn; rewrite ?E; easy. Qed.

Lemma connect_well_formed (h : Hook) :
  single_live h /\ allocated h -> single_live (connect h) /\ allocated (connect h).
Proof.
  intros [Hlive Halloc]. unfold connect.
  destruct (current_is_open h); [easy |].
  destruct h as [conn ref att tref int socks ns touts nt].
  unfold single_live, allocated in *. cbn in *.
  destruct ref as [id0 | ]; cbn.
  - split.
    + intros id ws Hws Hstate.
      destruct (decide (id = ns)) as [-> | Hne]; [reflexivity |].
      rewrite lookup_insert_ne in Hws by congruence.
      destruct (decide (id = id0)) as [-> | Hne0].
      * rewrite lookup_alter_eq, lookup_alter_eq in Hws.
        destruct (socks !! id0) as [ws0 | ]; [| discriminate].
        cbn in Hws. injection Hws as <-.
        pose proof (close_not_live (detach_onclose ws0)). intuition congruence.
      * rewrite !lookup_alter_ne in Hws by congruence.
        specialize (Hlive id ws Hws Hstate). congruence.
    + intros id Hid. rewrite lookup_insert_ne by lia.
      destruct (decide (id = id0)) as [-> | Hne0].
      * rewrite !lookup_alter_eq. rewrite (Halloc id0) by lia. reflexivity.
      * rewrite !lookup_alter_ne by congruence. apply Halloc. lia.
  - split.
    + intros id ws Hws Hstate.
      destruct (decide (id = ns)) as [-> | Hne]; [reflexivity |].
      rewrite lookup_insert_ne in Hws by congruence.
      specialize (Hlive id ws Hws Hstate). discriminate.
    + intros id Hid. rewrite lookup_insert_ne by lia. apply Halloc. lia.
Qed.

Lemma disconnect_well_formed (h : Hook) :
  single_live h /\ allocated h -> single_live (disconnect h) /\ allocated (disconnect h).
Proof.
  intros [Hlive Halloc].
  destruct h as [conn ref att tref int socks ns touts nt].
  unfold single_live, allocated, disconnect in *. cbn in *.
  assert (Hgoal :
    (forall id ws,
       match ref with Some id0 => alter close id0 socks | None => socks end !! id = Some ws ->
       readyState ws = CONNECTING \/ readyState ws = OPEN -> False) /\
    (forall id, (ns <= id)%nat ->
       match ref with Some id0 => alter close id0 socks | None => socks end !! id = None)).
  { destruct ref as [id0 | ].
    - split.
      + intros id ws Hws Hstate. destruct (decide (id = id0)) as [-> | Hne0].
        * rewrite lookup_alter_eq in Hws.
          destruct (socks !! id0) as [ws0 | ]; [| discriminate].
          cbn in Hws. injection Hws as <-.
          pose proof (close_not_live ws0). intuition congruence.
        * rewrite lookup_alter_ne in Hws by congruence.
          specialize (Hlive id ws Hws Hstate). congruence.
      + intros id Hid. destruct (decide (id = id0)) as [-> | Hne0].
        * rewrite lookup_alter_eq, (Halloc id0) by lia. reflexivity.
        * rewrite lookup_alter_ne by congruence. now apply Halloc.
    - split.
      + intros id ws Hws Hstate. specialize (Hlive id ws Hws Hstate). discriminate.
      + exact Halloc. }
  destruct Hgoal as [G1 G2].
  destruct tref, ref; cbn; split; try exact G2;
    intros id ws Hws Hstate; exfalso; eapply G1; eassumption.
Qed.

Section Steps.
Variable maxReconnectAttempts : Z.

Lemma onclose_handler_sockets (h : Hook) :
  sockets (onclose_handler maxReconnectAttempts h) = sockets h /\
  wsRef (onclose_handler maxReconnectAttempts h) = wsRef h /\
  nextSocket (onclose_handler maxReconnectAttempts h) = nextSocket h.
Proof.
  unfold onclose_handler. cbn.
  destruct (negb (intentionalCloseRef h) && (reconnectAttemptsRef h <? maxReconnectAttempts));
    easy.
Qed.

Lemma step_well_formed (h : Hook) (e : Event) :
  single_live h /\ allocated h ->
  single_live (step maxReconnectAttempts h e) /\
  allocated (step maxReconnectAttempts h e).
Proof.
  intros [Hlive Halloc]. destruct e as [id | id | tid | | | | message | audioData].
  - (* open event *)
    cbn. unfold opened. destruct (sockets h !! id) as [ws | ] eqn:Hws; [| easy].
    destruct (readyState ws) eqn:Hstate; try easy.
    pose proof (Hlive id ws Hws (or_introl Hstate)) as Hcur.
    unfold single_live, allocated in *. cbn. split.
    + intros id' ws' Hws' Hstate'.
      destruct (decide (id' = id)) as [-> | Hne]; [exact Hcur |].
      rewrite lookup_insert_ne in Hws' by congruence. eauto.
    + intros id' Hid'. destruct (decide (id' = id)) as [-> | Hne].
      * rewrite (Halloc id Hid') in Hws. discriminate.
      * rewrite lookup_insert_ne by congruence. now apply Halloc.
  - (* close event *)
    cbn. unfold closed. destruct (sockets h !! id) as [ws | ] eqn:Hws; [| easy].
    assert (Hclosed :
      single_live (set_sockets (<[id := set_readyState CLOSED ws]> (sockets h)) h) /\
      allocated (set_sockets (<[id := set_readyState CLOSED ws]> (sockets h)) h)).
    { unfold single_live, allocated in *. cbn. split.
      - intros id' ws' Hws' Hstate'.
        destruct (decide (id' = id)) as [-> | Hne].
        + rewrite lookup_insert_eq in Hws'. injection Hws' as <-.
          cbn in Hstate'. intuition discriminate.
        + rewrite lookup_insert_ne in Hws' by congruence. eauto.
      - intros id' Hid'. destruct (decide (id' = id)) as [-> | Hne].
        + rewrite (Halloc id Hid') in Hws. discriminate.
        + rewrite lookup_insert_ne by congruence. now apply Halloc. }
    destruct (readyState ws); [| | | easy];
      (destruct (onclose ws); [| exact Hclosed]);
      destruct Hclosed as [L A];
      destruct (onclose_handler_sockets
                  (set_sockets (<[id := set_readyState CLOSED ws]> (sockets h)) h))
        as (Es & Er & En);
      unfold single_live, allocated; rewrite Es, Er, En; split; assumption.
  - (* a timeout fires *)
    cbn. unfold timeout_fired. destruct (timeouts h !! tid); [| easy].
    unfold reconnect_callback. apply connect_well_formed.
    destruct h. split; assumption.
  - now apply connect_well_formed.
  - now apply disconnect_well_formed.
  - cbn. unfold unmount. apply disconnect_well_formed.
    destruct h as [conn ref att tref int socks ns touts nt].
    destruct tref; split; assumption.
  - cbn. unfold sendMessage, send_frame.
    destruct (current_is_open h); [| easy]. destruct (wsRef h) as [id | ] eqn:Href; [| easy].
    unfold single_live, allocated in *. cbn. rewrite Href. split.
    + intros id' ws' Hws' Hstate'. destruct (decide (id' = id)) as [-> | Hne];
        [reflexivity |].
      rewrite lookup_alter_ne in Hws' by congruence. rewrite <- Href. eauto.
    + intros id' Hid'. destruct (decide (id' = id)) as [-> | Hne].
      * rewrite lookup_alter_eq, (Halloc id Hid'). reflexivity.
      * rewrite lookup_alter_ne by congruence. now apply Halloc.
  - cbn. unfold sendAudio, send_frame.
    destruct (current_is_open h); [| easy]. destruct (wsRef h) as [id | ] eqn:Href; [| easy].
    unfold single_live, allocated in *. cbn. rewrite Href. split.
    + intros id' ws' Hws' Hstate'. destruct (decide (id' = id)) as [-> | Hne];
        [reflexivity |].
      rewrite lookup_alter_ne in Hws' by congruence. rewrite <- Href. eauto.
    + intros id' Hid'. destruct (decide (id' = id)) as [-> | Hne].
      * rewrite lookup_alter_eq, (Halloc id Hid'). reflexivity.
      * rewrite lookup_alter_ne by congruence. now apply Halloc.
Qed.

Lemma run_well_formed (events : list Event) : forall h,
  single_live h /\ allocated h ->
  single_live (run maxReconnectAttempts events h) /\
  allocated (run maxReconnectAttempts events h).
Proof.
  induction events as [ | e rest IH]; intros h Hh; [exact Hh |].
  unfold run in *. cbn [fold_left]. apply IH. now apply step_well_formed.
Qed.

(** Property X7.  After any sequence of calls and events on a fresh hook,
    every socket that is connecting or open is the one held in [wsRef]:
    at most one channel is live at any time, and every socket the hook
    replaced or dropped is closing or closed.  Two live sockets are
    therefore the same socket. *)
Theorem one_live_channel (events : list Event) :
  let h := run maxReconnectAttempts events initial in
  single_live h /\
  (forall id1 id2 ws1 ws2,
     sockets h !! id1 = Some ws1 -> sockets h !! id2 = Some ws2 ->
     readyState ws1 = CONNECTING \/ readyState ws1 = OPEN ->
     readyState ws2 = CONNECTING \/ readyState ws2 = OPEN ->
     id1 = id2) /\
  (wsRef h = None ->
   forall id ws, sockets h !! id = Some ws ->
     readyState ws = CLOSING \/ readyState ws = CLOSED).
Proof.
  cbv zeta.
  destruct (run_well_formed events initial well_formed_initial) as [Hlive _].
  split; [exact Hlive |]. split.
  - intros id1 id2 ws1 ws2 H1 H2 S1 S2.
    pose proof (Hlive id1 ws1 H1 S1) as E1. pose proof (Hlive id2 ws2 H2 S2) as E2.
    congruence.
  - intros Hnone id ws Hws.
    destruct (readyState ws) eqn:E; auto;
      [pose proof (Hlive id ws Hws (or_introl E)) | pose proof (Hlive id ws Hws (or_intror E))];
      congruence.
Qed.

End Steps.

(** A manual reconnect while socket 0 is closing: socket 1 is the only
    live one and it is the one the hook holds. *)
Lemma one_live_channel_witness :
  let h := run 5 [Connect; Opened 0; Disconnect; Connect] initial in
  sockets h !! 1%nat = Some createWebSocket /\
  (readyState createWebSocket = CONNECTING \/ readyState createWebSocket = OPEN) /\
  wsRef h = Some 1%nat.
Proof.
  cbv zeta.
  assert (H1 : sockets (run 5 [Connect; Opened 0; Disconnect; Connect] initial) !! 1%nat
               = Some createWebSocket) by (vm_compute; reflexivity).
  assert (H2 : readyState createWebSocket = CONNECTING \/ readyState createWebSocket = OPEN)
    by (left; reflexivity).
  split; [exact H1 |]. split; [exact H2 |].
  exact (proj1 (one_live_channel 5 [Connect; Opened 0; Disconnect; Connect])
           1%nat createWebSocket H1 H2).
Defined.

(** ** Replacing a socket *)

(** Property X8.  When [connect] replaces a socket that is not open (on
    any hook reached from a fresh one), the replaced socket has lost its
    close handler: its close event, whenever it comes, marks it closed
    and changes nothing else, so it schedules no retry and does not touch
    the connected flag.  When the held socket is open, [connect] does
    nothing at all. *)
Theorem replaced_socket_is_silent (maxReconnectAttempts : Z) (events : list Event)
    (id : nat) (ws : WebSocket) :
  let h := run maxReconnectAttempts events initial in
  (current_is_open h = true -> connect h = h) /\
  (wsRef h = Some id -> sockets h !! id = Some ws -> current_is_open h = false ->
   let h' := closed maxReconnectAttempts id (connect h) in
   timeouts h' = timeouts (connect h) /\
   reconnectTimerRef h' = reconnectTimerRef (connect h) /\
   reconnectAttemptsRef h' = reconnectAttemptsRef (connect h) /\
   isConnected h' = isConnected (connect h) /\
   wsRef h' = wsRef (connect h) /\
   nextSocket h' = nextSocket (connect h) /\
   (forall id', id' <> id -> sockets h' !! id' = sockets (connect h) !! id')).
Proof.
  cbv zeta. split.
  { intros Hopen. unfold connect. now rewrite Hopen. }
  intros Href Hws Hnot.
  destruct (run_well_formed maxReconnectAttempts events initial well_formed_initial)
    as [_ Halloc].
  set (h := run maxReconnectAttempts events initial) in *.
  assert (Hid : id <> nextSocket h).
  { intros ->. rewrite (Halloc (nextSocket h)) in Hws by lia. discriminate. }
  assert (Hlook : sockets (connect h) !! id = Some (close (detach_onclose ws))).
  { unfold connect. rewrite Hnot, Href. cbn.
    rewrite lookup_insert_ne by congruence.
    rewrite !lookup_alter_eq, Hws. reflexivity. }
  unfold closed. rewrite Hlook.
  assert (Hoff : onclose (close (detach_onclose ws)) = false).
  { unfold close, detach_onclose. cbn. now destruct (readyState ws). }
  rewrite Hoff.
  destruct (readyState (close (detach_onclose ws))); cbn;
    repeat split; try reflexivity;
    intros id' Hne; now rewrite lookup_insert_ne by congruence.
Qed.

Lemma replaced_socket_is_silent_witness :
  let h := run 5 [Connect] initial in
  wsRef h = Some 0%nat /\ sockets h !! 0%nat = Some createWebSocket /\
  current_is_open h = false /\
  timeouts (closed 5 0 (connect h)) = timeouts (connect h) /\
  reconnectTimerRef (closed 5 0 (connect h)) = reconnectTimerRef (connect h).
Proof.
  cbv zeta.
  assert (H1 : wsRef (run 5 [Connect] initial) = Some 0%nat) by reflexivity.
  assert (H2 : sockets (run 5 [Connect] initial) !! 0%nat = Some createWebSocket)
    by (vm_compute; reflexivity).
  assert (H3 : current_is_open (run 5 [Connect] initial) = false)
    by (vm_compute; reflexivity).
  split; [exact H1 |]. split; [exact H2 |]. split; [exact H3 |].
  pose proof (proj2 (replaced_socket_is_silent 5 [Connect] 0%nat createWebSocket)
                H1 H2 H3) as H.
  cbv zeta in H. split; apply H.
Defined.

(** ** Teardown *)

(** Property X9.  The unmount cleanup is exactly [disconnect], and
    [disconnect] is idempotent: a second call changes nothing. *)
Theorem unmount_is_disconnect (h : Hook) :
  unmount h = disconnect h /\ disconnect (disconnect h) = disconnect h.
Proof.
  destruct h as [conn ref att tref int socks ns touts nt].
  unfold unmount, disconnect. cbn. split.
  - destruct tref as [tid | ], ref; cbn; unfold clearTimeout, set_timeouts; cbn;
      rewrite ?delete_delete_eq; try reflexivity.
  - destruct tref as [tid | ], ref; cbn; reflexivity.
Qed.

(** ** Sending on an open socket *)

Lemma send_frame_open (frame : Frame) (h : Hook) (id : nat) (ws : WebSocket) :
  wsRef h = Some id -> sockets h !! id = Some ws -> readyState ws = OPEN ->
  send_frame frame h = set_sockets (<[id := send frame ws]> (sockets h)) h.
Proof.
  intros Href Hws Hstate. unfold send_frame, current_is_open.
  rewrite Href, Hws, Hstate. f_equal.
  apply map_eq. intros id'. destruct (decide (id' = id)) as [-> | Hne].
  - now rewrite lookup_alter_eq, lookup_insert_eq, Hws.
  - now rewrite lookup_alter_ne, lookup_insert_ne by congruence.
Qed.

Lemma step_send_event (maxReconnectAttempts : Z) (frame : Frame) (h : Hook) :
  step maxReconnectAttempts h (send_event frame) = send_frame frame h.
Proof. destruct frame; reflexivity. Qed.

(** A run of sends on an open socket. *)
Lemma sends_on_open (maxReconnectAttempts : Z) (frames : list Frame) :
  forall (h : Hook) (id : nat) (ws : WebSocket),
  wsRef h = Some id -> sockets h !! id = Some ws -> readyState ws = OPEN ->
  run maxReconnectAttempts (map send_event frames) h =
    set_sockets
      (<[id := mkWebSocket OPEN (onclose ws) (sent ws ++ frames)]> (sockets h)) h.
Proof.
  induction frames as [ | frame rest IH]; intros h id ws Href Hws Hstate.
  - cbn. rewrite app_nil_r. rewrite <- Hstate.
    destruct ws as [st oc se]. cbn. rewrite insert_id by exact Hws. now destruct h.
  - unfold run in *. cbn [map fold_left]. rewrite step_send_event.
    rewrite (send_frame_open frame h id ws Href Hws Hstate).
    rewrite (IH _ id (send frame ws)).
    + cbn. rewrite insert_insert_eq, <- app_assoc. reflexivity.
    + exact Href.
    + cbn. apply lookup_insert_eq.
    + exact Hstate.
Qed.

(** Property X10.  While the held socket is open, every [sendMessage] and
    [sendAudio] call hands its frame to that socket, in call order: the
    socket's sent frames grow by exactly the frames passed, text for
    messages and raw binary for audio, and nothing else in the hook (no
    other socket, no ref, no timer) changes. *)
Theorem sends_are_fifo (maxReconnectAttempts : Z) (frames : list Frame) :
  forall (h : Hook) (id : nat) (ws : WebSocket),
  wsRef h = Some id -> sockets h !! id = Some ws -> readyState ws = OPEN ->
  run maxReconnectAttempts (map send_event frames) h =
    set_sockets
      (<[id := mkWebSocket OPEN (onclose ws) (sent ws ++ frames)]> (sockets h)) h.
Proof. exact (sends_on_open maxReconnectAttempts frames). Qed.

Lemma sends_are_fifo_witness :
  let h := run 5 [Connect; Opened 0] initial in
  let frames := [Text [("type", "pause")]%string; Binary [x01; x02];
                 Text [("type", "resume")]%string] in
  wsRef h = Some 0%nat /\
  sockets h !! 0%nat = Some (mkWebSocket OPEN true []) /\
  run 5 (map send_event frames) h =
    set_sockets (<[0%nat := mkWebSocket OPEN true ([] ++ frames)]> (sockets h)) h.
Proof.
  cbv zeta.
  assert (H1 : wsRef (run 5 [Connect; Opened 0] initial) = Some 0%nat) by reflexivity.
  assert (H2 : sockets (run 5 [Connect; Opened 0] initial) !! 0%nat
               = Some (mkWebSocket OPEN true [])) by (vm_compute; reflexivity).
  split; [exact H1 |]. split; [exact H2 |].
  exact (sends_are_fifo 5 _ _ 0%nat (mkWebSocket OPEN true []) H1 H2 eq_refl).
Defined.

(** ** Recovery *)

(** Property X11.  A successful reconnection starts the backoff over:
    when a pending retry fires and the socket it creates opens, the hook
    is connected with the attempt counter at 0.  If that socket then
    closes unintentionally, nothing but sends having happened since it
    opened, the next retry is scheduled after the base delay again,
    whatever the delay of the retry that succeeded.  Other events in
    between can change this: when a socket given up by [disconnect]
    closes after the reconnection and the retry of that close fires, the
    counter is at 1 again and the next close waits twice the base
    delay. *)
Theorem backoff_restarts_after_open (maxReconnectAttempts a : Z) (h : Hook)
    (frames : list Frame) :
  0 < maxReconnectAttempts -> backing_off a h ->
  let reconnected := current_opened (retry_fired h) in
  let used := run maxReconnectAttempts (map send_event frames) reconnected in
  isConnected reconnected = true /\
  reconnectAttemptsRef reconnected = 0 /\
  scheduled_delay (current_closed maxReconnectAttempts used)
    = Some RECONNECT_BASE_DELAY /\
  isConnected (current_closed maxReconnectAttempts used) = false /\
  scheduled_delay
    (run 5 [Connect; Opened 0; Disconnect; Connect; Closed 1; TimeoutFired 1;
            Opened 2; Closed 0; TimeoutFired 2; Closed 2] initial)
    = Some (2 * RECONNECT_BASE_DELAY).
Proof.
  intros Hmax Hback. cbv zeta.
  pose proof (TransportFacts.retry_reconnects a h Hback) as Hwait.
  destruct Hwait as (id & ws & Href & Hws & Hstate & Hhandler & Hint & Hatt & Hpend).
  assert (Hconn : readyState ws = CONNECTING).
  { destruct Hback as (id0 & ws0 & tid & Href0 & Hws0 & Hst0 & Htref & Hp0 & _).
    revert Href Hws. unfold retry_fired, timeout_fired.
    rewrite Htref, Hp0, lookup_singleton_eq.
    unfold reconnect_callback, connect, current_is_open. cbn.
    rewrite Href0. cbn. rewrite Hws0, Hst0. cbn.
    intros [= <-]. rewrite lookup_insert_eq. intros [= <-]. reflexivity. }
  set (reconnected := current_opened (retry_fired h)).
  assert (Hopened : wsRef reconnected = Some id /\
                    sockets reconnected !! id = Some (set_readyState OPEN ws) /\
                    intentionalCloseRef reconnected = false /\
                    reconnectAttemptsRef reconnected = 0 /\
                    timeouts reconnected = ∅ /\
                    isConnected reconnected = true).
  { unfold reconnected, current_opened, opened. rewrite Href, Hws, Hconn. cbn.
    rewrite lookup_insert_eq. repeat split; assumption. }
  destruct Hopened as (Href1 & Hws1 & Hint1 & Hatt1 & Hpend1 & Hup).
  split; [exact Hup |]. split; [exact Hatt1 |].
  rewrite (sends_on_open maxReconnectAttempts frames reconnected id _ Href1 Hws1 eq_refl).
  set (used := set_sockets _ reconnected).
  assert (Hready : awaiting 0 used).
  { exists id, (mkWebSocket OPEN (onclose (set_readyState OPEN ws))
                  (sent (set_readyState OPEN ws) ++ frames)).
    unfold used. cbn. rewrite lookup_insert_eq.
    repeat split; try assumption; try reflexivity. discriminate. }
  pose proof (TransportFacts.close_schedules_retry maxReconnectAttempts 0 _ Hready Hmax)
    as Hagain.
  destruct (TransportFacts.backing_off_delay 0 _ Hagain) as [Hdelay _].
  split; [| split].
  - rewrite Hdelay. reflexivity.
  - destruct Hready as (id1 & ws1 & Hr1 & Hw1 & Hst1 & Hh1 & Hi1 & Ha1 & Hp1).
    unfold current_closed, closed. rewrite Hr1, Hw1.
    destruct (readyState ws1); [| | | congruence]; rewrite Hh1;
      unfold onclose_handler; cbn;
      destruct (negb _ && _); reflexivity.
  - vm_compute. reflexivity.
Qed.

(** After three failures in a row (the pending delay is 4000 ms), a
    success followed by two sends brings the delay back to 1000 ms. *)
Lemma backoff_restarts_after_open_witness :
  let h := consecutive_closes 5 3 (connect initial) in
  let frames := [Text [("type", "resume")]%string; Binary [x01; x02]] in
  0 < 5 /\ backing_off 2 h /\
  scheduled_delay
    (current_closed 5 (run 5 (map send_event frames) (current_opened (retry_fired h))))
    = Some 1000.
Proof.
  cbv zeta.
  assert (Hmax : 0 < 5) by lia.
  assert (Hback : backing_off 2 (consecutive_closes 5 3 (connect initial))).
  { exists 2%nat, (mkWebSocket CLOSED true []), 3%nat. vm_compute.
    repeat split; reflexivity. }
  split; [exact Hmax |]. split; [exact Hback |].
  exact (proj1 (proj2 (proj2 (backoff_restarts_after_open 5 2 _ _ Hmax Hback)))).
Defined.

End ChannelFacts.

Module AccumulatorFacts.
Import Js Player Accumulator.

(** ** Nothing lost, nothing repeated *)

Lemma bytes_debounce_from (arrivals : list (Z * ArrayBuffer)) :
  forall current last,
  bytes (debounce_from current last arrivals) = concat current ++ bytes arrivals.
Proof.
  unfold bytes.
  induction arrivals as [ | [t data] rest IH]; intros current last.
  - cbn. reflexivity.
  - cbn [debounce_from]. destruct (last + QUIET_INTERVAL <=? t).
    + cbn [map snd concat]. rewrite IH. cbn. now rewrite app_nil_r.
    + rewrite IH. cbn [map snd concat]. rewrite concat_app. cbn.
      now rewrite app_nil_r, <- app_assoc.
Qed.

Lemma length_debounce_from (arrivals : list (Z * ArrayBuffer)) :
  forall current last,
  (1 <= length (debounce_from current last arrivals) <= S (length arrivals))%nat.
Proof.
  induction arrivals as [ | [t data] rest IH]; intros current last.
  - cbn. lia.
  - cbn [debounce_from]. destruct (last + QUIET_INTERVAL <=? t).
    + specialize (IH [data] t). cbn [length]. lia.
    + specialize (IH (current ++ [data]) t). cbn [length]. lia.
Qed.

(** Property X12.  For fragments arriving in chronological order, the
    bytes handed to the decoder over all flushes are exactly the bytes
    that arrived, in arrival order: no fragment is lost, repeated or
    reordered.  There are at most as many flushes as fragments, and at
    least one if any fragment arrived. *)
Theorem playback_conserves_bytes (arrivals : list (Z * ArrayBuffer)) :
  chronological 0 arrivals ->
  bytes (decoded (run arrivals initial)) = bytes arrivals /\
  (length (decoded (run arrivals initial)) <= length arrivals)%nat /\
  (arrivals <> [] -> (1 <= length (decoded (run arrivals initial)))%nat).
Proof.
  intros Hchron.
  destruct (PlayerFacts.run_refines_debounce arrivals Hchron) as [-> _].
  destruct arrivals as [ | [t data] rest]; [cbn; easy |].
  cbn [debounce].
  pose proof (length_debounce_from rest [data] t) as Hlen.
  split; [| split].
  - rewrite bytes_debounce_from. unfold bytes. cbn. now rewrite app_nil_r.
  - cbn [length]. lia.
  - intros _. lia.
Qed.

Lemma playback_conserves_bytes_witness :
  let arrivals := [(0, [x01]); (100, [x02; x03]); (700, [x04])] in
  chronological 0 arrivals /\
  bytes (decoded (run arrivals initial)) = bytes arrivals.
Proof.
  cbv zeta.
  assert (Hchron : chronological 0 [(0, [x01]); (100, [x02; x03]); (700, [x04])])
    by (cbn; lia).
  split; [exact Hchron |].
  exact (proj1 (playback_conserves_bytes _ Hchron)).
Defined.

(** ** Flushes are apart *)

Lemma spaced_debounce_from (arrivals : list (Z * ArrayBuffer)) :
  forall current last,
  chronological last arrivals ->
  spaced QUIET_INTERVAL (map fst (debounce_from current last arrivals)) /\
  exists flushes, map fst (debounce_from current last arrivals)
                  = flushes /\
    match flushes with
    | [] => False
    | first :: _ => last + QUIET_INTERVAL <= first
    end.
Proof.
  induction arrivals as [ | [t data] rest IH]; intros current last Hchron.
  - cbn. split; [exact I |]. exists [last + QUIET_INTERVAL]. split; [reflexivity |]. lia.
  - destruct Hchron as [Hle Hrest]. cbn [debounce_from].
    destruct (Z.leb_spec (last + QUIET_INTERVAL) t) as [H | H].
    + destruct (IH [data] t Hrest) as (Hsp & flushes & Hfl & Hfirst).
      cbn [map fst]. rewrite Hfl in *. split.
      * destruct flushes as [ | first more]; [contradiction |].
        cbn [spaced]. split; [unfold QUIET_INTERVAL in *; lia | exact Hsp].
      * exists (last + QUIET_INTERVAL :: flushes). split; [reflexivity |]. lia.
    + destruct (IH (current ++ [data]) t Hrest) as (Hsp & flushes & Hfl & Hfirst).
      split; [exact Hsp |]. exists flushes. split; [exact Hfl |].
      destruct flushes; [contradiction | lia].
Qed.

(** Property X13.  For fragments arriving in chronological order, two
    consecutive flushes are at least one quiet interval (500 ms) apart,
    and no flush comes earlier than 500 ms after the first fragment. *)
Theorem flushes_are_spaced (arrivals : list (Z * ArrayBuffer)) :
  chronological 0 arrivals ->
  spaced QUIET_INTERVAL (map fst (decoded (run arrivals initial))) /\
  (forall t data rest, arrivals = (t, data) :: rest ->
     Forall (fun flush => t + QUIET_INTERVAL <= flush)
            (map fst (decoded (run arrivals initial)))).
Proof.
  intros Hchron.
  destruct (PlayerFacts.run_refines_debounce arrivals Hchron) as [-> _].
  destruct arrivals as [ | [t data] rest]; [cbn; split; [exact I | intros; discriminate] |].
  destruct Hchron as [Ht Hrest]. cbn [debounce].
  destruct (spaced_debounce_from rest [data] t Hrest) as (Hsp & flushes & Hfl & Hfirst).
  split; [exact Hsp |].
  intros t' data' rest' [= <- <- <-]. rewrite Hfl in *.
  destruct flushes as [ | first more]; [contradiction |].
  constructor; [exact Hfirst |].
  clear Hfl. revert first Hfirst Hsp. induction more as [ | next more IH];
    intros first Hfirst Hsp; constructor.
  - cbn in Hsp. unfold QUIET_INTERVAL in *. lia.
  - cbn in Hsp. destruct Hsp as [Hstep Hsp].
    assert (Hnext : t + QUIET_INTERVAL <= next) by (unfold QUIET_INTERVAL in *; lia).
    exact (IH next Hnext Hsp).
Qed.

Lemma flushes_are_spaced_witness :
  let arrivals := [(0, [x01]); (100, [x02; x03]); (700, [x04])] in
  chronological 0 arrivals /\
  spaced QUIET_INTERVAL (map fst (decoded (run arrivals initial))).
Proof.
  cbv zeta.
  assert (Hchron : chronological 0 [(0, [x01]); (100, [x02; x03]); (700, [x04])])
    by (cbn; lia).
  split; [exact Hchron |].
  exact (proj1 (flushes_are_spaced _ Hchron)).
Defined.

(** ** Explicit stop *)

Lemma after_accumulating (arrivals : list (Z * ArrayBuffer)) :
  forall playing chunk current last tid flushed,
  chronological last arrivals ->
  exists playing' chunk' current' last' tid' flushed',
    after arrivals (accumulating playing (chunk :: current) last tid flushed) =
      accumulating playing' (chunk' :: current') last' tid' flushed'.
Proof.
  unfold after.
  induction arrivals as [ | [t data] rest IH];
    intros playing chunk current last tid flushed Hchron.
  - cbn. now exists playing, chunk, current, last, tid, flushed.
  - destruct Hchron as [Hle Hrest]. cbn [fold_left].
    destruct (Z.leb_spec (last + QUIET_INTERVAL) t) as [H | H].
    + rewrite PlayerFacts.arrive_after_interval by exact H. now apply IH.
    + rewrite PlayerFacts.arrive_within_interval by lia. now apply (IH _ chunk).
Qed.

Lemma arrive_idle playing now next flushed t data :
  now <= t ->
  arrive (mkPlayer playing [] None now [] next flushed) (t, data) =
  accumulating playing [data] t next flushed.
Proof.
  intros Ht. unfold arrive, advance. cbn [fst snd Player.timeouts fire].
  unfold set_clock.
  cbn [isPlaying chunksRef flushTimerRef clock Player.timeouts nextTimeout decoded].
  rewrite Z.max_r by lia. apply PlayerFacts.playAudioChunk_arms.
Qed.

(** From a player with nothing buffered and nothing pending, the
    flushes are those of the debounce. *)
Lemma run_idle (arrivals : list (Z * ArrayBuffer)) playing now next flushed :
  chronological now arrivals ->
  decoded (run arrivals (mkPlayer playing [] None now [] next flushed)) =
    flushed ++ debounce arrivals.
Proof.
  intros Hchron. destruct arrivals as [ | [t data] rest].
  - cbn. now rewrite app_nil_r.
  - destruct Hchron as [Ht Hrest]. unfold run. cbn [fold_left].
    rewrite arrive_idle by exact Ht.
    pose proof (PlayerFacts.run_accumulating rest playing data [] t next flushed Hrest)
      as H.
    cbv zeta in H. unfold run in H. cbn [debounce]. apply H.
Qed.

Lemma stopPlayback_accumulating playing current last tid flushed :
  stopPlayback (accumulating playing current last tid flushed) =
  mkPlayer false [] None last [] (S tid) flushed.
Proof.
  unfold stopPlayback, accumulating, set_chunksRef.
  cbn [isPlaying chunksRef flushTimerRef clock Player.timeouts nextTimeout decoded].
  rewrite PlayerFacts.clearTimeout_pending. reflexivity.
Qed.

(** Property X14.  [stopPlayback], at any point of a chronological
    stream, discards the buffered fragments and cancels the pending
    flush: nothing is buffered or pending afterwards, the playing flag is
    off, what was already flushed stays flushed, and the discarded
    fragments are never played.  Fragments that arrive after the stop are
    flushed as by a fresh player. *)
Theorem stopPlayback_discards (arrivals later : list (Z * ArrayBuffer)) :
  chronological 0 arrivals ->
  chronological (clock (after arrivals initial)) later ->
  let stopped := stopPlayback (after arrivals initial) in
  chunksRef stopped = [] /\ Player.timeouts stopped = [] /\
  flushTimerRef stopped = None /\ isPlaying stopped = false /\
  decoded stopped = decoded (after arrivals initial) /\
  decoded (quiesce stopped) = decoded (after arrivals initial) /\
  decoded (run later stopped) = decoded (after arrivals initial) ++ debounce later.
Proof.
  intros Hchron Hlater. cbv zeta.
  assert (Hshape :
    exists playing now next flushed,
      stopPlayback (after arrivals initial) = mkPlayer playing [] None now [] next flushed /\
      playing = false /\
      now = clock (after arrivals initial) /\
      flushed = decoded (after arrivals initial)).
  { destruct arrivals as [ | [t data] rest].
    - exists false, 0, 1%nat, []. cbn. easy.
    - destruct Hchron as [Ht Hrest]. unfold after. cbn [fold_left].
      rewrite PlayerFacts.first_arrival by exact Ht.
      destruct (after_accumulating rest false data [] t 1%nat [] Hrest)
        as (pl & c & cs & l & i & f & E).
      unfold after in E. rewrite E, stopPlayback_accumulating.
      exists false, l, (S i), f. easy. }
  destruct Hshape as (playing & now & next & flushed & -> & -> & -> & ->).
  cbn [chunksRef Player.timeouts flushTimerRef isPlaying decoded].
  repeat split.
  - apply (run_idle later). exact Hlater.
Qed.

Lemma stopPlayback_discards_witness :
  let arrivals := [(0, [x01]); (100, [x02])] in
  let later := [(300, [x03])] in
  chronological 0 arrivals /\
  chronological (clock (after arrivals initial)) later /\
  decoded (run later (stopPlayback (after arrivals initial))) =
    decoded (after arrivals initial) ++ debounce later /\
  decoded (after arrivals initial) ++ debounce later = [(800, [x03])].
Proof.
  cbv zeta.
  assert (H1 : chronological 0 [(0, [x01]); (100, [x02])]) by (cbn; lia).
  assert (H2 : chronological (clock (after [(0, [x01]); (100, [x02])] initial))
                 [(300, [x03])]) by (vm_compute; split; [discriminate | exact I]).
  split; [exact H1 |]. split; [exact H2 |].
  split; [| vm_compute; reflexivity].
  exact (proj2 (proj2 (proj2 (proj2 (proj2 (proj2
           (stopPlayback_discards _ _ H1 H2))))))).
Defined.

End AccumulatorFacts.

Module QueueFacts.
Import Js QueuePlayer.

(** What holds of the queue as long as [stopPlayback] is not called. *)
Lemma step_invariant (seen : list ArrayBuffer) (p : Player) (e : Event) :
  ((loops p <= 1)%nat /\ started p ++ audioQueueRef p = seen /\
   (isPlayingRef p = true <-> loops p = 1%nat) /\
   (loops p = 0%nat -> audioQueueRef p = [])) ->
  let p' := step p e in
  let seen' := seen ++ chunks [e] in
  (loops p' <= 1)%nat /\ started p' ++ audioQueueRef p' = seen' /\
  (isPlayingRef p' = true <-> loops p' = 1%nat) /\
  (loops p' = 0%nat -> audioQueueRef p' = []).
Proof.
  intros (Hle & Hseen & Href & Hidle). destruct p as [playing queue ref n st].
  cbn in *. destruct e as [data | ]; cbn.
  - unfold playAudioChunk. cbn. destruct ref.
    + cbn. assert (n = 1%nat) by (now apply Href). subst n.
      repeat split; try lia; try easy. now rewrite app_assoc, Hseen.
    + assert (n = 0%nat).
      { destruct n as [ | [ | ]]; [reflexivity | | lia].
        destruct Href as [_ H]. specialize (H eq_refl). discriminate. }
      subst n. rewrite (Hidle eq_refl) in *. cbn.
      rewrite app_nil_r in Hseen. subst seen.
      repeat split; try lia; try easy. now rewrite app_nil_r.
  - rewrite app_nil_r. unfold settled. cbn. destruct n as [ | [ | ]]; [| | lia].
    + cbn. easy.
    + unfold loop. cbn. destruct queue as [ | chunk rest]; cbn.
      * repeat split; try lia; try easy.
      * assert (ref = true) by (now apply Href). subst ref.
        repeat split; try lia; try easy. now rewrite <- app_assoc.
Qed.

Lemma run_invariant (events : list Event) : forall (seen : list ArrayBuffer) (p : Player),
  ((loops p <= 1)%nat /\ started p ++ audioQueueRef p = seen /\
   (isPlayingRef p = true <-> loops p = 1%nat) /\
   (loops p = 0%nat -> audioQueueRef p = [])) ->
  let p' := run events p in
  (loops p' <= 1)%nat /\ started p' ++ audioQueueRef p' = seen ++ chunks events /\
  (isPlayingRef p' = true <-> loops p' = 1%nat) /\
  (loops p' = 0%nat -> audioQueueRef p' = []).
Proof.
  induction events as [ | e rest IH]; intros seen p Hp.
  - cbn. now rewrite app_nil_r.
  - pose proof (step_invariant seen p e Hp) as Hstep. cbv zeta in Hstep.
    specialize (IH _ _ Hstep). cbv zeta in *. unfold run in *. cbn [fold_left].
    replace (seen ++ chunks (e :: rest)) with ((seen ++ chunks [e]) ++ chunks rest).
    + exact IH.
    + rewrite <- app_assoc. f_equal. destruct e; cbn; reflexivity.
Qed.

(** Property X15.  In the queueing player, as long as [stopPlayback] is
    not called, playback is strictly sequential and first-in first-out:
    at most one chunk is being decoded or played at any time, the chunks
    started so far followed by the chunks still queued are exactly the
    chunks received, in order, and when nothing is playing nothing is
    left in the queue. *)
Theorem queue_is_sequential (events : list Event) :
  let p := run events initial in
  (loops p <= 1)%nat /\
  started p ++ audioQueueRef p = chunks events /\
  (isPlayingRef p = true <-> loops p = 1%nat) /\
  (loops p = 0%nat -> started p = chunks events).
Proof.
  pose proof (run_invariant events [] initial) as H. cbv zeta in *.
  destruct H as (Hle & Hseen & Href & Hidle).
  { cbn. repeat split; try lia; try easy. }
  cbn [app] in Hseen.
  split; [exact Hle |]. split; [exact Hseen |]. split; [exact Href |].
  intros H0. rewrite (Hidle H0), app_nil_r in Hseen. exact Hseen.
Qed.

Lemma queue_is_sequential_witness :
  let events := [Chunk [x01]; Chunk [x02]; Settled; Chunk [x03]; Settled; Settled] in
  loops (run events initial) = 0%nat /\
  started (run events initial) = [[x01]; [x02]; [x03]].
Proof.
  cbv zeta.
  assert (H0 : loops (run [Chunk [x01]; Chunk [x02]; Settled; Chunk [x03]; Settled; Settled]
                        initial) = 0%nat) by reflexivity.
  split; [exact H0 |].
  exact (proj2 (proj2 (proj2 (queue_is_sequential _))) H0).
Defined.

End QueueFacts.

Module DispatcherFacts.
Import Js Page Dispatcher.
Local Open Scope string_scope.

(** ** Transcript *)

Lemma message_appends (c : Closure) (now : Z) (message : WebSocketMessage) (p : PageState) :
  exists added,
    transcriptEntries (handleWebSocketMessage c now message p)
      = (transcriptEntries p ++ added)%list /\
    (length added <= 1)%nat.
Proof.
  destruct message; cbn.
  - exists []. rewrite app_nil_r. split; [reflexivity | cbn; lia].
  - eexists [_]. split; [reflexivity | cbn; lia].
  - exists []. rewrite app_nil_r. split; [| cbn; lia].
    destruct (String.eqb new_state "PAUSED"), (String.eqb new_state "LISTENING"),
      (String.eqb new_state "INTERRUPTING"); reflexivity.
  - destruct (medications intent).
    + exists []. rewrite app_nil_r. split; [reflexivity | cbn; lia].
    + eexists [_]. split; [reflexivity | cbn; lia].
  - exists []. rewrite app_nil_r. split; [reflexivity | cbn; lia].
  - eexists [_]. split; [reflexivity | cbn; lia].
  - exists []. rewrite app_nil_r. split; [reflexivity | cbn; lia].
  - exists []. rewrite app_nil_r. split; [reflexivity | cbn; lia].
Qed.

Lemma step_appends (p : PageState) (e : Event) :
  is_start e = false ->
  exists added,
    transcriptEntries (step p e) = (transcriptEntries p ++ added)%list /\
    (length added <= messages [e])%nat.
Proof.
  intros He. destruct e as [c now message | | response | | e | env response];
    try discriminate.
  - destruct (message_appends c now message p) as (added & E & Hlen).
    exists added. split; [exact E | cbn; lia].
  - exists []. rewrite app_nil_r. split; [| cbn; lia].
    cbn. unfold tick. now destruct (timer_running p).
  - exists []. rewrite app_nil_r. split; [reflexivity | cbn; lia].
  - exists []. rewrite app_nil_r. split; [reflexivity | cbn; lia].
  - exists []. rewrite app_nil_r. split; [| cbn; lia].
    cbn. unfold handleEndConsult. destruct (truthy (sessionId p)); [| reflexivity].
    destruct (Recorder.stopRecording env (recorder p)); [| reflexivity].
    destruct response; reflexivity.
Qed.

Lemma messages_cons (e : Event) (rest : list Event) :
  messages (e :: rest) = (messages [e] + messages rest)%nat.
Proof. destruct e; reflexivity. Qed.

(** Property X16.  The transcript is append-only: over any sequence of
    events that starts no new consult, the entries present before are
    still there, in the same order and at the same positions, and at most
    one entry per message has been added after them.  A transcript
    message adds exactly one entry, tagged "doctor", carrying its
    text. *)
Theorem transcript_is_append_only (events : list Event) (p : PageState) :
  forallb (fun e => negb (is_start e)) events = true ->
  (exists added,
     transcriptEntries (run events p) = (transcriptEntries p ++ added)%list /\
     (length added <= messages events)%nat) /\
  (forall c now text timestamp,
     exists entry,
       transcriptEntries (handleWebSocketMessage c now (TranscriptMessage text timestamp) p)
         = (transcriptEntries p ++ [entry])%list /\
       entry_text entry = text /\ entry_speaker entry = "doctor" /\
       entry_timestamp entry = timestamp).
Proof.
  intros Hev. split.
  - revert p Hev. induction events as [ | e rest IH]; intros p Hev.
    + exists []. rewrite app_nil_r. split; [reflexivity | cbn; lia].
    + cbn in Hev. apply andb_true_iff in Hev as [He Hrest].
      apply negb_true_iff in He.
      destruct (step_appends p e He) as (a1 & E1 & L1).
      destruct (IH (step p e) Hrest) as (a2 & E2 & L2).
      exists (a1 ++ a2)%list. unfold run in *. cbn [fold_left].
      rewrite E2, E1, <- app_assoc. split; [reflexivity |].
      rewrite length_app, messages_cons. lia.
  - intros c now text timestamp. eexists. cbn. split; [reflexivity |]. easy.
Qed.

Lemma transcript_is_append_only_witness :
  let c := mkClosure (Some "S1") 0 in
  let events := [Message c 1 (TranscriptMessage "hello" "t1"); Tick;
                 Message c 2 (InterruptionStartMessage (Some "risk") "t2");
                 Message c 3 (InterruptionEndMessage "t3")] in
  forallb (fun e => negb (is_start e)) events = true /\
  exists added,
    transcriptEntries (run events in_session)
      = (transcriptEntries in_session ++ added)%list /\
    (length added <= messages events)%nat.
Proof.
  cbv zeta.
  assert (H : forallb (fun e => negb (is_start e))
                [Message (mkClosure (Some "S1") 0) 1 (TranscriptMessage "hello" "t1"); Tick;
                 Message (mkClosure (Some "S1") 0) 2
                   (InterruptionStartMessage (Some "risk") "t2");
                 Message (mkClosure (Some "S1") 0) 3 (InterruptionEndMessage "t3")] = true)
    by reflexivity.
  split; [exact H |].
  exact (proj1 (transcript_is_append_only _ in_session H)).
Defined.

(** ** Safety alerts *)






(** ** The interruption overlay *)

Lemma step_keeps_overlay p e :
  is_interruption_end e = false -> isInterrupting p = true ->
  isInterrupting (step p e) = true.
Proof.
  intros He H. destruct e as [c now message | | response | | e | env response]; cbn.
  - destruct message; cbn; try exact H; try reflexivity; try discriminate.
    + destruct (String.eqb new_state "PAUSED"), (String.eqb new_state "LISTENING"),
        (String.eqb new_state "INTERRUPTING"); cbn; try exact H; reflexivity.
    + destruct (medications intent); exact H.
  - unfold tick. destruct (timer_running p); exact H.
  - unfold handleStartConsult. destruct (truthy (selectedPatientId p)); [| exact H].
    destruct response; exact H.
  - exact H.
  - exact H.
  - unfold handleEndConsult. destruct (truthy (sessionId p)); [| exact H].
    destruct (Recorder.stopRecording env (recorder p)); [| exact H].
    destruct response; exact H.
Qed.

(** Property X18.  Once raised, the overlay is cleared by
    [interruption_end] and by nothing else: no other message, no state
    change, no tick, not even the end of the consult or the start of the
    next one lowers it.  [interruption_start] and a state change to
    INTERRUPTING raise it from any state; [interruption_start] also sets
    the overlay text (a default when the event carries none) and appends
    one system entry "[ALERT] ..." to the transcript; [interruption_end]
    changes the overlay flag only. *)
Theorem overlay_cleared_only_by_interruption_end (events : list Event) (p : PageState) :
  (forallb (fun e => negb (is_interruption_end e)) events = true ->
   isInterrupting p = true -> isInterrupting (run events p) = true) /\
  (forall c now text timestamp,
     let p' := handleWebSocketMessage c now (InterruptionStartMessage text timestamp) p in
     isInterrupting p' = true /\
     interruptionMessage p' = or_else text "Clinical alert detected!" /\
     exists entry,
       transcriptEntries p' = (transcriptEntries p ++ [entry])%list /\
       entry_speaker entry = "system" /\ entry_text entry = "[ALERT] " ++ template text) /\
  (forall c now old_state timestamp,
     isInterrupting (handleWebSocketMessage c now
                       (StateChangeMessage old_state "INTERRUPTING" timestamp) p) = true) /\
  (forall c now timestamp,
     handleWebSocketMessage c now (InterruptionEndMessage timestamp) p
       = setIsInterrupting false p).
Proof.
  split; [| split; [| split]].
  - revert p. induction events as [ | e rest IH]; intros p Hev H; [exact H |].
    cbn in Hev. apply andb_true_iff in Hev as [He Hrest]. apply negb_true_iff in He.
    unfold run in *. cbn [fold_left]. apply IH; [exact Hrest |].
    now apply step_keeps_overlay.
  - intros c now text timestamp. cbn. split; [reflexivity |]. split; [reflexivity |].
    eexists. split; [reflexivity |]. easy.
  - intros. reflexivity.
  - intros. reflexivity.
Qed.

Lemma overlay_cleared_only_by_interruption_end_witness :
  let c := mkClosure (Some "S1") 0 in
  let raised := handleWebSocketMessage c 0 (InterruptionStartMessage None "") in_session in
  let events := [Message c 1 (StateChangeMessage "INTERRUPTING" "LISTENING" ""); Tick;
                 EndConsult Recorder.no_throw None; StartConsult (Some "S2")] in
  forallb (fun e => negb (is_interruption_end e)) events = true /\
  isInterrupting raised = true /\
  isInterrupting (run events raised) = true.
Proof.
  cbv zeta.
  assert (H1 : forallb (fun e => negb (is_interruption_end e))
                 [Message (mkClosure (Some "S1") 0) 1
                    (StateChangeMessage "INTERRUPTING" "LISTENING" ""); Tick;
                  EndConsult Recorder.no_throw None; StartConsult (Some "S2")] = true)
    by reflexivity.
  assert (H2 : isInterrupting
                 (handleWebSocketMessage (mkClosure (Some "S1") 0) 0
                    (InterruptionStartMessage None "") in_session) = true) by reflexivity.
  split; [exact H1 |]. split; [exact H2 |].
  exact (proj1 (overlay_cleared_only_by_interruption_end _ _) H1 H2).
Defined.

(** ** Starting and ending a consult *)

(** Property X19.  A successful start (a patient selected, the REST call
    answered) opens a fresh session: the new id, state LISTENING, zero
    elapsed seconds, empty transcript and alert history, severity SAFE.
    It does not touch the paused flag, the overlay or the summary.
    Hence [n] seconds after the start the counter shows [n] if the paused
    flag left behind by the previous consult is off (and the id is not
    empty), and 0 otherwise: a consult that ended while paused leaves the
    next one with a stopped timer.  Without a selected patient, or when
    the call is rejected, nothing changes. *)
Theorem handleStartConsult_opens_session (id : string) (n : nat) (p : PageState) :
  (truthy (selectedPatientId p) = true ->
   let p' := handleStartConsult (Some id) p in
   sessionId p' = Some id /\ sessionState p' = "LISTENING" /\ elapsedSeconds p' = 0 /\
   transcriptEntries p' = [] /\ safetyAlerts p' = [] /\ currentSafetyLevel p' = SAFE /\
   isPaused p' = isPaused p /\ isInterrupting p' = isInterrupting p /\
   sessionSummary p' = sessionSummary p /\
   elapsedSeconds (Nat.iter n tick p') =
     if truthy (Some id) && negb (isPaused p) then Z.of_nat n else 0) /\
  (truthy (selectedPatientId p) = false -> handleStartConsult (Some id) p = p) /\
  handleStartConsult None p = p.
Proof.
  split; [| split].
  - intros Hsel. cbv zeta.
    assert (Hfields :
      forall p', p' = handleStartConsult (Some id) p ->
        sessionId p' = Some id /\ sessionState p' = "LISTENING" /\ elapsedSeconds p' = 0 /\
        transcriptEntries p' = [] /\ safetyAlerts p' = [] /\ currentSafetyLevel p' = SAFE /\
        isPaused p' = isPaused p /\ isInterrupting p' = isInterrupting p /\
        sessionSummary p' = sessionSummary p).
    { intros p' ->. unfold handleStartConsult. rewrite Hsel. cbn. repeat split. }
    remember (handleStartConsult (Some id) p) as p' eqn:Hp'.
    destruct (Hfields p' eq_refl) as (Hid & Hst & Hel & Htr & Hal & Hlv & Hpa & Hin & Hsu).
    repeat (split; [assumption |]).
    assert (Hrun : timer_running p' = truthy (Some id) && negb (isPaused p)).
    { unfold timer_running. rewrite Hid, Hst, Hpa. cbn [String.eqb].
      change ("LISTENING" =? "LISTENING")%string with true. now rewrite andb_true_r. }
    destruct (truthy (Some id) && negb (isPaused p)) eqn:Hcond.
    + destruct (PageFacts.ticks_running n p' Hrun) as [-> _]. lia.
    + now rewrite (PageFacts.ticks_idle n p' Hrun).
  - intros H. unfold handleStartConsult. now rewrite H.
  - unfold handleStartConsult. now destruct (truthy (selectedPatientId p)).
Qed.

Lemma handleStartConsult_opens_session_witness :
  let p := setIsPaused true
             (mkPageState None "IDLE" false 0 (Some "P001") [] [] SAFE false "" None None
                Transport.initial (Recorder.mkRecorder false false false false None [])) in
  truthy (selectedPatientId p) = true /\
  sessionState (handleStartConsult (Some "S2") p) = "LISTENING" /\
  elapsedSeconds (Nat.iter 3 tick (handleStartConsult (Some "S2") p)) = 0.
Proof.
  cbv zeta.
  pose proof (proj1 (handleStartConsult_opens_session "S2" 3
    (setIsPaused true
       (mkPageState None "IDLE" false 0 (Some "P001") [] [] SAFE false "" None None
          Transport.initial (Recorder.mkRecorder false false false false None []))))
    eq_refl) as H.
  cbv zeta in H. split; [reflexivity |]. split; [apply H |].
  destruct H as (_ & _ & _ & _ & _ & _ & _ & _ & _ & H). exact H.
Defined.

(** Property X20.  When ending a consult fails, the session stays: if
    there is no session nothing happens at all; if a teardown call of the
    recorder throws, or the REST call is rejected, the session id, the
    session state, the summary and the socket are unchanged.  The
    recorder is torn down before the REST call is made, so a rejected
    call leaves the session running with the recorder stopped. *)
Theorem handleEndConsult_failure_keeps_session (env : Recorder.Environment)
    (response : option EndConsultResponse) (p : PageState) :
  (truthy (sessionId p) = false -> handleEndConsult env response p = p) /\
  (response = None \/ ~ Recorder.all_complete env (Recorder.held (recorder p)) ->
   let p' := handleEndConsult env response p in
   sessionId p' = sessionId p /\ sessionState p' = sessionState p /\
   sessionSummary p' = sessionSummary p /\ ws p' = ws p /\
   elapsedSeconds p' = elapsedSeconds p /\
   (truthy (sessionId p) = true ->
    recorder p' = Recorder.state_of (Recorder.stopRecording env (recorder p)))).
Proof.
  unfold handleEndConsult. split.
  - intros ->. reflexivity.
  - intros Hfail. cbv zeta. destruct (truthy (sessionId p)); [| easy].
    destruct (RecorderFacts.stopRecording_outcome env (recorder p))
      as [[Hall ->] | [Hnot (r' & -> & _)]].
    + destruct Hfail as [-> | Hnot]; [| contradiction]. cbn. easy.
    + cbn. easy.
Qed.

Lemma handleEndConsult_failure_keeps_session_witness :
  (None : option EndConsultResponse) = None /\
  sessionId (handleEndConsult Recorder.no_throw None in_session) = sessionId in_session /\
  sessionState (handleEndConsult Recorder.no_throw None in_session) = "LISTENING".
Proof.
  split; [reflexivity |].
  pose proof (proj2 (handleEndConsult_failure_keeps_session Recorder.no_throw None in_session)
                (or_introl eq_refl)) as H.
  cbv zeta in H. split; apply H.
Defined.

(** ** Elapsed time over any run *)

Lemma step_elapsed p e :
  is_start e = false ->
  elapsedSeconds p <= elapsedSeconds (step p e) <= elapsedSeconds p + ticks [e].
Proof.
  intros He. destruct e as [c now message | | response | | e | env response];
    try discriminate; cbn.
  - rewrite PageFacts.message_keeps_elapsed. lia.
  - unfold tick. destruct (timer_running p); cbn; lia.
  - lia.
  - lia.
  - unfold handleEndConsult. destruct (truthy (sessionId p)); [| lia].
    destruct (Recorder.stopRecording env (recorder p)); [| cbn; lia].
    destruct response; cbn; lia.
Qed.

Lemma ticks_cons (e : Event) (rest : list Event) :
  ticks (e :: rest) = ticks [e] + ticks rest.
Proof. destruct e; cbn; lia. Qed.

(** Property X21.  Within a consult the elapsed-seconds counter never
    goes back and never runs ahead of the clock: over any sequence of
    events that starts no new consult it does not decrease, and it grows
    by at most the number of one-second ticks in the sequence. *)
Theorem elapsed_is_monotone (events : list Event) (p : PageState) :
  forallb (fun e => negb (is_start e)) events = true ->
  elapsedSeconds p <= elapsedSeconds (run events p) <= elapsedSeconds p + ticks events.
Proof.
  revert p. induction events as [ | e rest IH]; intros p Hev.
  - cbn. lia.
  - cbn in Hev. apply andb_true_iff in Hev as [He Hrest]. apply negb_true_iff in He.
    pose proof (step_elapsed p e He) as Hstep.
    specialize (IH (step p e) Hrest).
    unfold run in *. cbn [fold_left]. rewrite ticks_cons. lia.
Qed.

Lemma elapsed_is_monotone_witness :
  let c := mkClosure (Some "S1") 0 in
  let events := [Tick; Message c 0 (StateChangeMessage "LISTENING" "PAUSED" ""); Tick; Tick;
                 EndConsult Recorder.no_throw None] in
  forallb (fun e => negb (is_start e)) events = true /\
  elapsedSeconds in_session <= elapsedSeconds (run events in_session)
    <= elapsedSeconds in_session + ticks events.
Proof.
  cbv zeta.
  assert (H : forallb (fun e => negb (is_start e))
                [Tick;
                 Message (mkClosure (Some "S1") 0) 0
                   (StateChangeMessage "LISTENING" "PAUSED" "");
                 Tick; Tick; EndConsult Recorder.no_throw None] = true) by reflexivity.
  split; [exact H |].
  exact (elapsed_is_monotone _ in_session H).
Defined.

End DispatcherFacts.

(* ===================================================================== *)
(** * Properties of the first channel hook *)
(* ===================================================================== *)

Module ChannelV1Facts.
Import Js.
Import Transport(ReadyState, CONNECTING, OPEN, CLOSING, CLOSED, WebSocket, mkWebSocket,
                 readyState, onclose, sent, createWebSocket).
Import TransportV1 ChannelV1.

Lemma connect_pending (h : Hook) :
  current_is_open h = false ->
  connect h = mkHook (isConnected h) (Some (nextSocket h))
                (<[nextSocket h := createWebSocket]> (sockets h)) (S (nextSocket h)).
Proof. intros H. unfold connect. now rewrite H. Qed.

Lemma connect_stays_pending (h : Hook) :
  current_is_open h = false -> current_is_open (connect h) = false.
Proof.
  intros H. rewrite (connect_pending h H). unfold current_is_open. cbn.
  now rewrite lookup_insert_eq.
Qed.

Lemma connects_pending (n : nat) (h : Hook) :
  allocated h -> current_is_open h = false ->
  allocated (connects n h) /\ current_is_open (connects n h) = false /\
  nextSocket (connects n h) = (nextSocket h + n)%nat /\
  isConnected (connects n h) = isConnected h /\
  (forall id ws, sockets h !! id = Some ws -> sockets (connects n h) !! id = Some ws) /\
  (forall k, (k < n)%nat ->
     sockets (connects n h) !! (nextSocket h + k)%nat = Some createWebSocket).
Proof.
  intros Halloc Hclosed. induction n as [ | n (IHa & IHc & IHn & IHf & IHold & IHnew)].
  - unfold connects. cbn [Nat.iter nat_rect].
    split; [exact Halloc |]. split; [exact Hclosed |]. split; [lia |].
    split; [reflexivity |]. split; [auto |]. intros k Hk. lia.
  - unfold connects in *. rewrite Nat.iter_succ.
    remember (Nat.iter n connect h) as g eqn:Hg.
    rewrite (connect_pending g IHc).
    split; [| split; [| split; [| split; [| split]]]].
    + intros id Hid. cbn in *. rewrite lookup_insert_ne by lia. apply IHa. lia.
    + rewrite <- (connect_pending g IHc). now apply connect_stays_pending.
    + cbn. lia.
    + cbn. exact IHf.
    + intros id ws Hlookup. cbn.
      destruct (decide (id = nextSocket g)) as [-> | Hne].
      * specialize (IHold _ _ Hlookup). rewrite IHa in IHold by lia. discriminate.
      * rewrite lookup_insert_ne by congruence. now apply IHold.
    + intros k Hk. cbn.
      destruct (decide (k = n)) as [-> | Hne].
      * rewrite IHn. now rewrite lookup_insert_eq.
      * rewrite lookup_insert_ne by lia. apply IHnew. lia.
Qed.

(** Property X22.  The first version of the hook never cleans up: [n]
    calls of [connect] while no socket has opened yet create [n] sockets,
    every one of them still connecting with its handlers attached; no
    socket that existed before is closed or changed, and only the last
    one created is held in [wsRef].  (The second version closes the
    socket it replaces.) *)
Theorem connect_abandons_pending (n : nat) (h : Hook) :
  allocated h -> current_is_open h = false ->
  let h' := connects n h in
  (forall id ws, sockets h !! id = Some ws -> sockets h' !! id = Some ws) /\
  (forall k, (k < n)%nat ->
     sockets h' !! (nextSocket h + k)%nat = Some createWebSocket) /\
  nextSocket h' = (nextSocket h + n)%nat /\
  ((0 < n)%nat -> wsRef h' = Some (nextSocket h + n - 1)%nat) /\
  isConnected h' = isConnected h.
Proof.
  intros Halloc Hclosed. cbv zeta.
  destruct (connects_pending n h Halloc Hclosed) as (_ & _ & Hn & Hf & Hold & Hnew).
  repeat (split; [assumption |]). split; [| assumption].
  intros Hpos. destruct n as [ | n]; [lia |].
  destruct (connects_pending n h Halloc Hclosed) as (_ & Hc & Hn' & _).
  unfold connects in *. rewrite Nat.iter_succ.
  rewrite (connect_pending _ Hc). cbn [wsRef]. rewrite Hn'. f_equal. lia.
Qed.

Lemma connect_abandons_pending_witness :
  allocated initial /\ current_is_open initial = false /\
  sockets (connects 3 initial) !! 0%nat = Some createWebSocket /\
  sockets (connects 3 initial) !! 1%nat = Some createWebSocket /\
  wsRef (connects 3 initial) = Some 2%nat.
Proof.
  assert (Ha : allocated initial) by (intros id _; apply lookup_empty).
  assert (Hc : current_is_open initial = false) by reflexivity.
  destruct (connect_abandons_pending 3 initial Ha Hc) as (_ & Hnew & _ & Hlast & _).
  split; [exact Ha |]. split; [exact Hc |].
  split; [exact (Hnew 0%nat ltac:(lia)) |].
  split; [exact (Hnew 1%nat ltac:(lia)) |].
  exact (Hlast ltac:(lia)).
Defined.

End ChannelV1Facts.

(* ===================================================================== *)
(** * Properties of the interruption overlay *)
(* ===================================================================== *)

Module OverlayFacts.
Import Overlay.

Lemma active_settled (now : Z) : settled (mkOverlay true true None now).
Proof.
  split; [| split]; cbn.
  - easy.
  - intros due H. discriminate.
  - intros H. discriminate.
Qed.

Lemma hiding_settled (shown : bool) (now : Z) :
  settled (mkOverlay false shown (Some (now + HIDE_DELAY)) now).
Proof.
  split; [| split]; cbn.
  - intros H. discriminate.
  - intros due H. injection H as <-. unfold HIDE_DELAY. split; [reflexivity | lia].
  - intros _ _ H. discriminate.
Qed.

Lemma mount_settled (active : bool) (now : Z) : settled (mount active now).
Proof.
  destruct active; [apply active_settled | apply hiding_settled].
Qed.

Lemma render_settled (active : bool) (o : Overlay) : settled o -> settled (render active o).
Proof.
  intros Hs. unfold render.
  destruct (Bool.eqb active (isActive o)) eqn:Hsame; [exact Hs |].
  unfold effect, cleanup.
  destruct active, (isActive o) eqn:Ho; try discriminate; cbn.
  - apply active_settled.
  - apply hiding_settled.
Qed.

Lemma advance_settled (t : Z) (o : Overlay) : settled o -> settled (advance t o).
Proof.
  intros (Hact & Hpending & Hvisible). unfold advance, settled. cbn.
  destruct (timer o) as [due | ] eqn:Htimer.
  - destruct (Hpending due eq_refl) as (Hoff & Hlo & Hhi).
    destruct (due <=? Z.max (clock o) t) eqn:Hdue; cbn.
    + rewrite Hoff. repeat split; try discriminate.
    + apply Z.leb_gt in Hdue. rewrite Hoff, Htimer.
      split; [discriminate |]. split; [| intros _ _ H; discriminate].
      intros due' H. injection H as <-. unfold HIDE_DELAY in *. split; [reflexivity | lia].
  - cbn. rewrite Htimer. split; [exact Hact |]. split; [discriminate |].
    intros Hoff Hvis. exact (Hvisible Hoff Hvis).
Qed.

Lemma run_settled (events : list Event) : forall o, settled o -> settled (run events o).
Proof.
  induction events as [ | e rest IH]; intros o H; [exact H |].
  unfold run in *. cbn [fold_left]. apply IH.
  destruct e; [now apply render_settled | now apply advance_settled].
Qed.

(** Property X23.  After any sequence of renders and passages of time,
    the overlay is in the document whenever it is active; when it is
    inactive and still shown, its hide is pending and due within 300 ms.
    Hence once 300 ms have passed without a render it is shown exactly if
    it is active; and activating it again cancels a pending hide, so an
    overlay that is switched off and on again within the delay never
    leaves the document. *)
Theorem overlay_outlasts_by_delay (active : bool) (now : Z) (events : list Event) :
  let o := run events (mount active now) in
  settled o /\
  (isActive o = true -> shown o = true) /\
  (forall t, clock o + HIDE_DELAY <= t -> shown (advance t o) = isActive o) /\
  (shown o = true ->
   forall t, shown (advance t (render true o)) = true /\
             timer (advance t (render true o)) = None).
Proof.
  cbv zeta. pose proof (run_settled events _ (mount_settled active now)) as Hs.
  remember (run events (mount active now)) as o eqn:Ho. clear Ho.
  split; [exact Hs |]. destruct Hs as (Hact & Hpending & Hvisible).
  split; [intros H; now apply Hact |]. split.
  - intros t Ht. unfold shown, advance. cbn.
    destruct (timer o) as [due | ] eqn:Htimer.
    + destruct (Hpending due eq_refl) as (Hoff & Hlo & Hhi).
      replace (due <=? Z.max (clock o) t) with true by (symmetry; apply Z.leb_le; lia).
      cbn. now rewrite Hoff.
    + cbn. destruct (isActive o) eqn:Hon; [now apply Hact |].
      destruct (visible o) eqn:Hvis; [| reflexivity].
      now destruct (Hvisible eq_refl eq_refl).
  - intros Hshown t. unfold shown in *.
    assert (Hr : visible (render true o) = true /\ timer (render true o) = None).
    { unfold render. destruct (isActive o) eqn:Hon; cbn; [now apply Hact |].
      unfold effect, cleanup. rewrite Hon. cbn. easy. }
    destruct Hr as [Hv Ht]. unfold advance. cbn. rewrite Ht. cbn. easy.
Qed.

Lemma overlay_outlasts_by_delay_witness :
  let o := run [Render true; Advance 1000; Render false; Advance 1200] (mount false 0) in
  isActive o = false /\ shown o = true /\
  shown (advance (clock o + HIDE_DELAY) o) = false /\
  shown (advance 5000 (render true o)) = true.
Proof.
  cbv zeta.
  destruct (overlay_outlasts_by_delay false 0
              [Render true; Advance 1000; Render false; Advance 1200])
    as (_ & _ & Hhide & Hback).
  split; [reflexivity |]. split; [reflexivity |].
  split; [exact (Hhide _ (Z.le_refl _)) |].
  exact (proj1 (Hback eq_refl 5000)).
Defined.

End OverlayFacts.

(* ===================================================================== *)
(** * Properties of the socket URL *)
(* ===================================================================== *)

Module ApiFacts.
Import Api.
Local Open Scope string_scope.

Lemma append_assoc (a b c : string) : (a ++ b) ++ c = a ++ b ++ c.
Proof.
  induction a as [ | x a IH]; [reflexivity |].
  change (String x ((a ++ b) ++ c) = String x (a ++ b ++ c)). now rewrite IH.
Qed.

Lemma length_append (a b : string) :
  String.length (a ++ b) = (String.length a + String.length b)%nat.
Proof.
  induction a as [ | x a IH]; [reflexivity |].
  change (S (String.length (a ++ b)) = S (String.length a + String.length b)).
  now rewrite IH.
Qed.

Lemma strip_append (pattern : string) : forall x v,
  strip pattern x = None -> (String.length pattern <= String.length x)%nat ->
  strip pattern (x ++ v) = None.
Proof.
  induction pattern as [ | a pattern IH]; intros x v Hnone Hlen; [discriminate |].
  destruct x as [ | b x]; [cbn in Hlen; lia |].
  change (String b x ++ v) with (String b (x ++ v)).
  cbn in *. destruct (Ascii.eqb a b); [apply IH; [exact Hnone | lia] | reflexivity].
Qed.

Lemma includes_cons (pattern : string) (c : Ascii.ascii) (s : string) :
  includes pattern (String c s) =
    match strip pattern (String c s) with Some _ => true | None => includes pattern s end.
Proof. reflexivity. Qed.

Lemma replace_cons (pattern replacement : string) (c : Ascii.ascii) (s : string) :
  replace pattern replacement (String c s) =
    match strip pattern (String c s) with
    | Some rest => replacement ++ rest
    | None => String c (replace pattern replacement s)
    end.
Proof. reflexivity. Qed.

Lemma replace_absent (pattern replacement s : string) :
  includes pattern s = false -> replace pattern replacement s = s.
Proof.
  induction s as [ | c s IH]; intros H.
  - cbn in *. now destruct (strip pattern "").
  - rewrite includes_cons in H. rewrite replace_cons.
    destruct (strip pattern (String c s)); [discriminate |]. now rewrite IH.
Qed.

Lemma replace_first (pre rest : string) :
  includes "http" (pre ++ "htt") = false ->
  replace "http" "ws" (pre ++ "http" ++ rest) = pre ++ "ws" ++ rest.
Proof.
  induction pre as [ | c pre IH]; intros H; [reflexivity |].
  change (String c pre ++ "htt") with (String c (pre ++ "htt")) in H.
  change (String c pre ++ "http" ++ rest) with (String c (pre ++ "http" ++ rest)).
  change (String c pre ++ "ws" ++ rest) with (String c (pre ++ "ws" ++ rest)).
  rewrite includes_cons in H. rewrite replace_cons.
  destruct (strip "http" (String c (pre ++ "htt"))) eqn:Hstrip; [discriminate |].
  assert (Hnone : strip "http" (String c (pre ++ "http" ++ rest)) = None).
  { change (pre ++ "http" ++ rest) with (pre ++ "htt" ++ "p" ++ rest).
    rewrite <- append_assoc.
    change (String c ((pre ++ "htt") ++ "p" ++ rest))
      with (String c (pre ++ "htt") ++ "p" ++ rest).
    apply strip_append; [exact Hstrip |].
    cbn [String.length]. rewrite length_append. cbn. lia. }
  rewrite Hnone. now rewrite IH.
Qed.

(** Property X24.  The socket URL is the base URL with its first "http"
    replaced by "ws", followed by "/ws/consult/" and the session id as it
    is: a base URL that starts with "http" has that prefix replaced (so
    "http://" becomes "ws://" and "https://" becomes "wss://") and
    nothing after it is touched; when the first "http" comes later in the
    string it is that one which is replaced; a base URL without "http" is
    used unchanged.  With no environment setting the URL is
    "ws://localhost:8000/ws/consult/" followed by the session id. *)
Theorem createWebSocket_url_scheme (baseUrl sessionId : string) :
  (forall rest, baseUrl = "http" ++ rest ->
     createWebSocket_url baseUrl sessionId = "ws" ++ rest ++ "/ws/consult/" ++ sessionId) /\
  (forall pre rest, baseUrl = pre ++ "http" ++ rest ->
     includes "http" (pre ++ "htt") = false ->
     createWebSocket_url baseUrl sessionId
       = pre ++ "ws" ++ rest ++ "/ws/consult/" ++ sessionId) /\
  (includes "http" baseUrl = false ->
     createWebSocket_url baseUrl sessionId = baseUrl ++ "/ws/consult/" ++ sessionId) /\
  createWebSocket_url (API_BASE None) sessionId
    = "ws://localhost:8000/ws/consult/" ++ sessionId.
Proof.
  assert (Hgeneral : forall pre rest, baseUrl = pre ++ "http" ++ rest ->
            includes "http" (pre ++ "htt") = false ->
            createWebSocket_url baseUrl sessionId
              = pre ++ "ws" ++ rest ++ "/ws/consult/" ++ sessionId).
  { intros pre rest -> H. unfold createWebSocket_url. cbv zeta.
    rewrite (replace_first pre rest H). now rewrite !append_assoc. }
  split; [| split; [exact Hgeneral | split]].
  - intros rest H. exact (Hgeneral "" rest H eq_refl).
  - intros H. unfold createWebSocket_url. cbv zeta. now rewrite (replace_absent _ _ _ H).
  - reflexivity.
Qed.

Lemma createWebSocket_url_scheme_witness :
  createWebSocket_url "https://guardian.example/http-api" "S1"
    = "wss://guardian.example/http-api/ws/consult/S1" /\
  createWebSocket_url "//myhttp.example" "S1" = "//myws.example/ws/consult/S1".
Proof.
  split.
  - exact (proj1 (createWebSocket_url_scheme "https://guardian.example/http-api" "S1")
             "s://guardian.example/http-api" eq_refl).
  - exact (proj1 (proj2 (createWebSocket_url_scheme "//myhttp.example" "S1"))
             "//my" ".example" eq_refl eq_refl).
Defined.

End ApiFacts.

(* ===================================================================== *)
(** * Properties of the MediaRecorder capture hook *)
(* ===================================================================== *)

Module MediaCaptureFacts.
Import Js.
Import Recorder(CallResult, Completes, Throws).
Import MediaCapture.

Lemma stop_streams (h : Hook) :
  streams (stopRecording h) =
    match streamRef h with
    | Some id => alter (fun _ => false) id (streams h)
    | None => streams h
    end /\
  streamRef (stopRecording h) = None /\
  isRecording (stopRecording h) = false /\
  nextStream (stopRecording h) = nextStream h /\
  pending (stopRecording h) = pending h.
Proof.
  destruct h as [flag err rec [held | ] live states ns nr pend]; unfold stopRecording; cbn;
    (destruct rec as [id | ]; [destruct (states !! id) as [[ | | ] | ] |]); cbn; easy.
Qed.

(** A call of [startRecording] touches no stream. *)
Lemma call_streams (h : Hook) :
  streams (startRecording h) = streams h /\
  streamRef (startRecording h) = streamRef h /\
  nextStream (startRecording h) = nextStream h /\
  isRecording (startRecording h) = isRecording h /\
  pending (startRecording h) = S (pending h).
Proof. destruct h. unfold startRecording. cbn. easy. Qed.

(** What a settling permission request does to the streams. *)
Lemma settled_streams (env : Setup -> CallResult) (h : Hook) :
  (pending h = 0%nat /\ getUserMedia_settled env h = h) \/
  (pending (getUserMedia_settled env h) = Nat.pred (pending h) /\
   ((env GetUserMedia = Throws /\
     streams (getUserMedia_settled env h) = streams h /\
     streamRef (getUserMedia_settled env h) = streamRef h /\
     nextStream (getUserMedia_settled env h) = nextStream h /\
     isRecording (getUserMedia_settled env h) = isRecording h) \/
    (env GetUserMedia = Completes /\
     streams (getUserMedia_settled env h) = <[nextStream h := true]> (streams h) /\
     streamRef (getUserMedia_settled env h) = Some (nextStream h) /\
     nextStream (getUserMedia_settled env h) = S (nextStream h) /\
     isRecording (getUserMedia_settled env h) =
       match env NewMediaRecorder, env Start with
       | Completes, Completes => true
       | _, _ => isRecording h
       end))).
Proof.
  destruct h as [flag err rec held live states ns nr [ | pend]]; [left; easy | right].
  unfold getUserMedia_settled. cbn.
  destruct (env GetUserMedia), (env NewMediaRecorder), (env Start); cbn;
    (split; [reflexivity | first [right; easy | left; easy]]).
Qed.

(** A start whose permission request has settled. *)
Lemma start_streams (env : Setup -> CallResult) (h : Hook) :
  let h' := getUserMedia_settled env (startRecording h) in
  pending h' = pending h /\
  ((env GetUserMedia = Throws /\
    streams h' = streams h /\ streamRef h' = streamRef h /\
    nextStream h' = nextStream h /\ isRecording h' = isRecording h) \/
   (env GetUserMedia = Completes /\
    streams h' = <[nextStream h := true]> (streams h) /\
    streamRef h' = Some (nextStream h) /\
    nextStream h' = S (nextStream h) /\
    isRecording h' =
      match env NewMediaRecorder, env Start with
      | Completes, Completes => true
      | _, _ => isRecording h
      end)).
Proof.
  cbv zeta. destruct (call_streams h) as (Hs & Hr & Hn & Hi & Hp).
  destruct (settled_streams env (startRecording h)) as [[H0 _] | [Hpend H]];
    [congruence |].
  rewrite Hp in Hpend. split; [exact Hpend |].
  rewrite Hs, Hr, Hn, Hi in H. exact H.
Qed.

Lemma stop_idempotent (h : Hook) : stopRecording (stopRecording h) = stopRecording h.
Proof.
  destruct h as [flag err rec held live states ns nr pend]. unfold stopRecording. cbn.
  destruct rec as [id | ]; [destruct (states !! id) as [[ | | ] | ] eqn:Hstate |];
    destruct held; cbn; rewrite ?Hstate, ?lookup_insert_eq; reflexivity.
Qed.

Lemma stop_no_leak (h : Hook) :
  (forall id, streams h !! id = Some true -> streamRef h = Some id) ->
  forall id, streams (stopRecording h) !! id <> Some true.
Proof.
  intros Hheld id. destruct (stop_streams h) as (-> & _).
  destruct (streamRef h) as [held | ] eqn:Href.
  - destruct (decide (id = held)) as [-> | Hne].
    + rewrite lookup_alter_eq. destruct (streams h !! held); cbn; congruence.
    + rewrite lookup_alter_ne by congruence. intros H. apply Hheld in H. congruence.
  - intros H. apply Hheld in H. discriminate.
Qed.

Lemma stop_allocated (h : Hook) : allocated h -> allocated (stopRecording h).
Proof.
  intros Halloc id Hid. destruct (stop_streams h) as (Hs & _ & _ & Hn & _).
  rewrite Hn in Hid. rewrite Hs.
  destruct (streamRef h) as [held | ]; [| now apply Halloc].
  destruct (decide (id = held)) as [-> | Hne].
  - rewrite lookup_alter_eq, (Halloc held Hid). reflexivity.
  - rewrite lookup_alter_ne by congruence. now apply Halloc.
Qed.

Lemma stop_invariant (h : Hook) :
  allocated h /\ no_leak h -> allocated (stopRecording h) /\ no_leak (stopRecording h).
Proof.
  intros [Halloc (Hheld & Hflag & Hpend)]. split; [now apply stop_allocated |].
  split; [| split].
  - intros id H. now destruct (stop_no_leak h Hheld id).
  - destruct (stop_streams h) as (_ & -> & -> & _). split; [discriminate | congruence].
  - destruct (stop_streams h) as (_ & _ & _ & _ & ->). exact Hpend.
Qed.

Lemma start_invariant (env : Setup -> CallResult) (h : Hook) :
  env NewMediaRecorder = Completes -> env Start = Completes ->
  isRecording h = false ->
  allocated h /\ no_leak h ->
  allocated (getUserMedia_settled env (startRecording h)) /\
  no_leak (getUserMedia_settled env (startRecording h)).
Proof.
  intros Hctor Hstart Hoff [Halloc (Hheld & Hflag & Hpend)].
  assert (Hnone : streamRef h = None).
  { destruct (streamRef h) eqn:Href; [| reflexivity].
    assert (isRecording h = true) by (apply Hflag; discriminate). congruence. }
  pose proof (start_streams env h) as H. cbv zeta in H.
  destruct H as [Hp [(_ & Hs & Hr & Hn & Hi) | (_ & Hs & Hr & Hn & Hi)]].
  - split.
    + intros id Hid. rewrite Hn in Hid. rewrite Hs. now apply Halloc.
    + split; [| split].
      * intros id H. rewrite Hs in H. rewrite Hr. now apply Hheld.
      * rewrite Hi, Hr. exact Hflag.
      * congruence.
  - rewrite Hctor, Hstart in Hi. split.
    + intros id Hid. rewrite Hn in Hid. rewrite Hs.
      rewrite lookup_insert_ne by lia. apply Halloc. lia.
    + split; [| split].
      * intros id H. rewrite Hs in H. rewrite Hr.
        destruct (decide (id = nextStream h)) as [-> | Hne]; [reflexivity |].
        rewrite lookup_insert_ne in H by congruence. apply Hheld in H. congruence.
      * rewrite Hi, Hr. split; [discriminate | reflexivity].
      * congruence.
Qed.

(** Nothing is suspended: a settle event finds nothing to resume. *)
Lemma settled_idle (env : Setup -> CallResult) (h : Hook) :
  pending h = 0%nat -> getUserMedia_settled env h = h.
Proof.
  intros H. destruct (settled_streams env h) as [[_ E] | [Hp _]]; [exact E |].
  destruct h as [flag err rec held live states ns nr pend]. cbn in H. subst pend.
  reflexivity.
Qed.

Lemma run_serial_invariant (env : Setup -> CallResult) (events : list Event) :
  env NewMediaRecorder = Completes -> env Start = Completes ->
  forallb (fun e => negb (is_start e)) events = true ->
  forall h, allocated h /\ no_leak h ->
            allocated (run_serial env events h) /\ no_leak (run_serial env events h).
Proof.
  intros Hctor Hstart. induction events as [ | e rest IH]; intros Hev h Hinv; [exact Hinv |].
  cbn in Hev. apply andb_true_iff in Hev as [He Hrest].
  unfold run_serial in *. cbn [fold_left]. apply (IH Hrest).
  assert (Hidle : pending h = 0%nat) by apply Hinv.
  destruct e; [discriminate | | |].
  - cbn [step]. destruct (stop_invariant h Hinv) as [Ha Hn].
    rewrite (settled_idle env _ (proj2 (proj2 Hn))). now split.
  - cbn [step]. unfold toggleRecording. destruct (isRecording h) eqn:Hon.
    + destruct (stop_invariant h Hinv) as [Ha Hn].
      rewrite (settled_idle env _ (proj2 (proj2 Hn))). now split.
    + now apply start_invariant.
  - cbn [step]. rewrite !(settled_idle env h Hidle). exact Hinv.
Qed.

Lemma step_leaked (env : Setup -> CallResult) (id : nat) (h : Hook) (e : Event) :
  allocated h /\ leaked id h -> allocated (step env h e) /\ leaked id (step env h e).
Proof.
  intros [Halloc [Hlive Hfree]].
  assert (Hlow : (id < nextStream h)%nat).
  { destruct (Nat.lt_ge_cases id (nextStream h)) as [H | H]; [exact H |].
    rewrite (Halloc id H) in Hlive. discriminate. }
  assert (Hcall : allocated (startRecording h) /\ leaked id (startRecording h)).
  { destruct (call_streams h) as (Hs & Hr & Hn & _). split.
    - intros k Hk. rewrite Hn in Hk. rewrite Hs. now apply Halloc.
    - split; [now rewrite Hs | now rewrite Hr]. }
  assert (Hsettled : allocated (getUserMedia_settled env h) /\
                     leaked id (getUserMedia_settled env h)).
  { destruct (settled_streams env h)
      as [[_ ->] | [_ [(_ & Hs & Hr & Hn & _) | (_ & Hs & Hr & Hn & _)]]].
    - now split.
    - split; [intros k Hk; rewrite Hn in Hk; rewrite Hs; now apply Halloc |].
      split; [now rewrite Hs | now rewrite Hr].
    - split.
      + intros k Hk. rewrite Hn in Hk. rewrite Hs, lookup_insert_ne by lia.
        apply Halloc. lia.
      + split; [rewrite Hs, lookup_insert_ne by lia; exact Hlive |].
        rewrite Hr. intros H. injection H as H. lia. }
  assert (Hstop : allocated (stopRecording h) /\ leaked id (stopRecording h)).
  { split; [now apply stop_allocated |].
    destruct (stop_streams h) as (Hs & Hr & _). split; [| rewrite Hr; discriminate].
    rewrite Hs. destruct (streamRef h) as [held | ]; [| exact Hlive].
    rewrite lookup_alter_ne by congruence. exact Hlive. }
  destruct e; cbn [step]; [exact Hcall | exact Hstop | | exact Hsettled].
  unfold toggleRecording. destruct (isRecording h); assumption.
Qed.

Lemma run_leaked (env : Setup -> CallResult) (id : nat) (events : list Event) :
  forall h, allocated h /\ leaked id h ->
            allocated (run env events h) /\ leaked id (run env events h).
Proof.
  induction events as [ | e rest IH]; intros h H; [exact H |].
  unfold run in *. cbn [fold_left]. apply IH. now apply step_leaked.
Qed.

(** A second start on a hook that already holds a stream puts the
    stream out of reach. *)
Lemma second_start_leaks (env : Setup -> CallResult) (h : Hook) (id : nat) :
  env GetUserMedia = Completes ->
  allocated h -> streamRef h = Some id -> streams h !! id = Some true ->
  allocated (getUserMedia_settled env (startRecording h)) /\
  leaked id (getUserMedia_settled env (startRecording h)).
Proof.
  intros Hmedia Halloc Href Hlive.
  assert (Hlow : (id < nextStream h)%nat).
  { destruct (Nat.lt_ge_cases id (nextStream h)) as [H | H]; [exact H |].
    rewrite (Halloc id H) in Hlive. discriminate. }
  pose proof (start_streams env h) as H. cbv zeta in H.
  destruct H as [_ [(Hthrows & _) | (_ & Hs & Hr & Hn & _)]]; [congruence |].
  split.
  - intros k Hk. rewrite Hn in Hk. rewrite Hs, lookup_insert_ne by lia.
    apply Halloc. lia.
  - split.
    + rewrite Hs, lookup_insert_ne by lia. exact Hlive.
    + rewrite Hr. intros E. injection E as E. lia.
Qed.

(** Property X25.  As long as the recorder itself can be created and
    started (the permission request may still be refused), the hook used
    through [toggleRecording] and [stopRecording] never loses a stream,
    provided every permission request settles before the next call:
    after any such sequence of toggles and stops, every stream with live
    tracks is the one held in [streamRef], the recording flag is on
    exactly when a stream is held, and after a stop no stream at all has
    live tracks.  The proviso is needed: two toggles before the first
    request settles both start, the second stream replaces the first in
    [streamRef], and the first stays live and out of reach whatever is
    called later. *)
Theorem toggle_holds_one_stream (env : Setup -> CallResult) (events : list Event) :
  env NewMediaRecorder = Completes -> env Start = Completes ->
  forallb (fun e => negb (is_start e)) events = true ->
  let h := run_serial env events initial in
  no_leak h /\
  (forall id1 id2, streams h !! id1 = Some true -> streams h !! id2 = Some true ->
     id1 = id2) /\
  (forall id, streams (stopRecording h) !! id <> Some true) /\
  stopRecording (stopRecording h) = stopRecording h /\
  (env GetUserMedia = Completes ->
   forall later : list Event,
     leaked 0%nat
       (run env (ToggleRecording :: ToggleRecording :: Settled :: Settled :: later)
          initial)).
Proof.
  intros Hctor Hstart Hev. cbv zeta.
  assert (Hinit : allocated initial /\ no_leak initial).
  { split; [intros id _; apply lookup_empty |].
    split; [intros id H; cbn in H; rewrite lookup_empty in H; discriminate |].
    cbn. split; [split; [discriminate | congruence] | reflexivity]. }
  split; [| split; [| split; [| split]]].
  1-4: destruct (run_serial_invariant env events Hctor Hstart Hev initial Hinit)
    as [Halloc (Hheld & Hflag & Hpend)];
    remember (run_serial env events initial) as h eqn:Hh; clear Hh.
  - split; [| split]; assumption.
  - intros id1 id2 H1 H2. apply Hheld in H1, H2. congruence.
  - now apply stop_no_leak.
  - apply stop_idempotent.
  - intros Hmedia later.
    change (run env (ToggleRecording :: ToggleRecording :: Settled :: Settled :: later)
              initial)
      with (run env later
              (getUserMedia_settled env
                 (getUserMedia_settled env (startRecording (startRecording initial))))).
    apply run_leaked.
    assert (Hfirst : getUserMedia_settled env (startRecording (startRecording initial))
                     = startRecording
                         (getUserMedia_settled env (startRecording initial))).
    { unfold getUserMedia_settled, startRecording. cbn.
      rewrite Hmedia, Hctor, Hstart. reflexivity. }
    rewrite Hfirst.
    set (first := getUserMedia_settled env (startRecording initial)).
    assert (Hone : allocated first /\ streamRef first = Some 0%nat /\
                   streams first !! 0%nat = Some true).
    { unfold first, getUserMedia_settled, startRecording. cbn.
      rewrite Hmedia, Hctor, Hstart. cbn. split; [| split].
      - intros k Hk. cbn in Hk. cbn. rewrite lookup_insert_ne by lia. apply lookup_empty.
      - reflexivity.
      - apply lookup_insert_eq. }
    destruct Hone as (Ha & Hr & Hl).
    exact (second_start_leaks env first 0%nat Hmedia Ha Hr Hl).
Qed.

Lemma toggle_holds_one_stream_witness :
  let events := [ToggleRecording; ToggleRecording; Settled; ToggleRecording;
                 StopRecording; ToggleRecording] in
  forallb (fun e => negb (is_start e)) events = true /\
  no_leak (run_serial no_throw events initial) /\
  leaked 0%nat
    (run no_throw [ToggleRecording; ToggleRecording; Settled; Settled; StopRecording]
       initial).
Proof.
  cbv zeta.
  assert (H : forallb (fun e => negb (is_start e))
                [ToggleRecording; ToggleRecording; Settled; ToggleRecording;
                 StopRecording; ToggleRecording] = true) by reflexivity.
  split; [exact H |].
  pose proof (toggle_holds_one_stream no_throw _ eq_refl eq_refl H) as T.
  cbv zeta in T. destruct T as (Hno & _ & _ & _ & Hleak).
  split; [exact Hno |].
  exact (Hleak eq_refl [StopRecording]).
Defined.

(** Property X26.  When the permission is granted but the recorder cannot
    be created or started, the hook reports "Failed to access microphone"
    and leaves the recording flag as it was, yet the stream it obtained
    stays open in [streamRef].  A stop at that point releases it.  But
    the flag being off, the next toggle starts again, and a start never
    releases the stream held: the first stream is then out of reach with
    its tracks live, and no later call of the hook stops it. *)
Theorem failed_start_leaks_stream (env env' : Setup -> CallResult) (events : list Event)
    (h : Hook) :
  allocated h -> isRecording h = false ->
  env GetUserMedia = Completes ->
  env NewMediaRecorder = Throws \/ env Start = Throws ->
  env' GetUserMedia = Completes ->
  let failed := getUserMedia_settled env (startRecording h) in
  let id := nextStream h in
  isRecording failed = false /\
  error failed = Some "Failed to access microphone"%string /\
  streamRef failed = Some id /\ streams failed !! id = Some true /\
  streams (stopRecording failed) !! id = Some false /\
  leaked id
    (run env' events
       (getUserMedia_settled env' (toggleRecording (isRecording failed) failed))).
Proof.
  intros Halloc Hoff Hmedia Hfail Hmedia'. cbv zeta.
  pose proof (start_streams env h) as H. cbv zeta in H.
  destruct H as [_ [(Hthrows & _) | (_ & Hs & Hr & Hn & Hi)]]; [congruence |].
  assert (Hflag : isRecording (getUserMedia_settled env (startRecording h)) = false).
  { rewrite Hi. destruct Hfail as [-> | ->]; [exact Hoff |].
    destruct (env NewMediaRecorder); exact Hoff. }
  assert (Herror : error (getUserMedia_settled env (startRecording h))
                   = Some "Failed to access microphone"%string).
  { destruct h as [flag err rec held live states ns nr pend].
    unfold getUserMedia_settled, startRecording. cbn. rewrite Hmedia.
    destruct Hfail as [-> | Hstart]; [reflexivity |].
    destruct (env NewMediaRecorder); [| reflexivity]. now rewrite Hstart. }
  assert (Hlive : streams (getUserMedia_settled env (startRecording h)) !! nextStream h
                  = Some true)
    by (rewrite Hs; apply lookup_insert_eq).
  split; [exact Hflag |]. split; [exact Herror |]. split; [exact Hr |].
  split; [exact Hlive |]. split.
  - destruct (stop_streams (getUserMedia_settled env (startRecording h))) as (-> & _).
    rewrite Hr. rewrite lookup_alter_eq, Hlive. reflexivity.
  - rewrite Hflag. unfold toggleRecording.
    remember (getUserMedia_settled env (startRecording h)) as failed eqn:Hfailed.
    assert (Hfalloc : allocated failed).
    { intros k Hk. rewrite Hn in Hk. rewrite Hs, lookup_insert_ne by lia.
      apply Halloc. lia. }
    apply run_leaked.
    exact (second_start_leaks env' failed (nextStream h) Hmedia' Hfalloc Hr Hlive).
Qed.

Lemma failed_start_leaks_stream_witness :
  let env := fun s => match s with NewMediaRecorder => Throws | _ => Completes end in
  let failed := getUserMedia_settled env (startRecording initial) in
  allocated initial /\
  leaked 0%nat
    (run no_throw [ToggleRecording; Settled; StopRecording]
       (getUserMedia_settled no_throw (toggleRecording (isRecording failed) failed))).
Proof.
  cbv zeta.
  assert (Ha : allocated initial) by (intros id _; apply lookup_empty).
  split; [exact Ha |].
  exact (proj2 (proj2 (proj2 (proj2 (proj2
    (failed_start_leaks_stream
       (fun s => match s with NewMediaRecorder => Throws | _ => Completes end)
       no_throw [ToggleRecording; Settled; StopRecording] initial
       Ha eq_refl eq_refl (or_introl eq_refl) eq_refl)))))).
Defined.

End MediaCaptureFacts.
